(** * Terrain height loader: tile cache, request queue and decode transform

    A shallow embedding of [TerrainHeightLoader] (with [UsageTracker],
    [HeightLoaderTile] and [RequestQueue]) and the properties of its
    specification.

    JavaScript objects that are shared by reference (tiles, requests, the
    promises handed to callers) live in append-only object stores and are
    named by their index there; a [Set] is a [gset], a [Map] a [gmap].
    Coordinates are integers ([Z]); a sample of a [Float32Array] is an IEEE
    754 binary32 value, computed through binary64 as JavaScript does. *)

From Stdlib Require Import ZArith Lia Ascii.
From Stdlib Require Import Floats.SpecFloat.
From stdpp Require Import gmap strings list pretty.

Set Warnings "-clear-no-such-hyp".

Local Open Scope Z_scope.

(** ** JavaScript numbers *)

Module JSNumber.

(** A [number] is an IEEE 754 binary64 value with round to nearest even. *)
Definition prec64 : Z := 53.
Definition emax64 : Z := 1024.

Definition of_Z (z : Z) : spec_float := binary_normalize prec64 emax64 z 0 false.
Definition add : spec_float → spec_float → spec_float := SFadd prec64 emax64.
Definition mul : spec_float → spec_float → spec_float := SFmul prec64 emax64.
Definition div : spec_float → spec_float → spec_float := SFdiv prec64 emax64.

(** The literal [0.1]: the binary64 value nearest to one tenth. *)
Definition lit_0_1 : spec_float := S754_finite false 7205759403792794 (-56).

(** The literal [0.25], used by the box filter. *)
Definition lit_0_25 : spec_float := S754_finite false 4503599627370496 (-54).

(** Storing into a [Float32Array]: round the binary64 value to binary32. *)
Definition fround (v : spec_float) : spec_float :=
  match v with
  | S754_finite s m e => binary_round 24 128 s m e
  | _ => v
  end.

(** An array element read as a number: a read past the end yields
    [undefined], which arithmetic converts to NaN. *)
Definition of_element (o : option Z) : spec_float :=
  match o with
  | Some z => of_Z z
  | None => S754_nan
  end.

(** [2 ** i] for a whole number [i] that is not negative: the power of
    two rounded to binary64, which is [Infinity] from [i = 1024] on. *)
Definition pow2 (i : nat) : spec_float :=
  binary_normalize prec64 emax64 1 (Z.of_nat i) false.

(** [Math.floor] of a finite number, as the whole number that a template
    literal prints; both zeros print as [0]. (NaN and the infinities,
    which the quotient of a whole number by [2 ** i] never is, are sent
    to 0.) *)
Definition floor (v : spec_float) : Z :=
  match v with
  | S754_finite s m e => Z.shiftl (cond_Zopp s (Z.pos m)) e
  | _ => 0
  end.

End JSNumber.

(** ** UsageTracker *)

(** [type AnyObject = any]: an owner is only ever compared for identity. *)
Abbreviation AnyObject := nat (only parsing).

Module UsageTracker.

Record t := Build { users : gset AnyObject }.

Definition new : t := {| users := ∅ |}.

Definition use (id : AnyObject) (tr : t) : t :=
  {| users := {[id]} ∪ users tr |}.

Definition release (id : AnyObject) (tr : t) : t :=
  {| users := users tr ∖ {[id]} |}.

Definition isUsed (tr : t) : bool := bool_decide (0 < size (users tr))%nat.

End UsageTracker.

(** ** TerrainHeightLoaderBitmap *)

(** The raster that [createImageBitmap] yields, with the bytes that
    [getImageData] reads back from it: four per pixel (R, G, B, A), row
    by row. *)
Record ImageBitmap := {
  ib_width : nat;
  ib_height : nat;
  ib_data : list Z
}.

Module TerrainHeightLoaderBitmap.

(** Modelled from the spec: the class [TerrainHeightLoaderBitmap] is
    imported by the loader; a payload has a pixel width, a pixel height, a
    row-major array of float elevation samples and the source raster
    handle if retained. [deleted] records that [delete()] released it. *)
Record t := Build {
  bitmap : option ImageBitmap;
  data : list spec_float;
  width : nat;
  height : nat;
  deleted : bool
}.

Definition new (b : option ImageBitmap) (d : list spec_float) (w h : nat) : t :=
  {| bitmap := b; data := d; width := w; height := h; deleted := false |}.

Definition sample (bm : t) (col row : nat) : spec_float :=
  default S754_nan (data bm !! (row * width bm + col)%nat).

(** Modelled from the spec: [downscale()] produces a half-resolution
    box/average-downsampled payload: each sample of the result is the
    mean of the 2x2 block of samples it covers. *)
Definition downscale (bm : t) : t :=
  let w := (width bm / 2)%nat in
  let h := (height bm / 2)%nat in
  new None
    (flat_map (λ row,
       map (λ col,
         JSNumber.fround
           (JSNumber.mul
              (JSNumber.add
                 (JSNumber.add
                    (JSNumber.add (sample bm (2 * col) (2 * row))
                                  (sample bm (2 * col + 1) (2 * row)))
                    (sample bm (2 * col) (2 * row + 1)))
                 (sample bm (2 * col + 1) (2 * row + 1)))
              JSNumber.lit_0_25))
         (seq 0 w))
       (seq 0 h))
    w h.

(** Modelled from the spec: [delete()] releases the payload. *)
Definition delete (bm : t) : t :=
  {| bitmap := bitmap bm; data := data bm; width := width bm;
     height := height bm; deleted := true |}.

End TerrainHeightLoaderBitmap.

(** ** HeightLoaderTile *)

Module HeightLoaderTile.

Record t := Build {
  tracker : UsageTracker.t;
  levels : gmap nat TerrainHeightLoaderBitmap.t
}.

Definition new : t := {| tracker := UsageTracker.new; levels := ∅ |}.

Definition setLevel (levelId : nat) (bm : TerrainHeightLoaderBitmap.t) (tile : t) : t :=
  {| tracker := tracker tile; levels := <[levelId := bm]> (levels tile) |}.

Definition getLevel (levelId : nat) (tile : t) : option TerrainHeightLoaderBitmap.t :=
  levels tile !! levelId.

Definition delete (tile : t) : t :=
  {| tracker := tracker tile;
     levels := TerrainHeightLoaderBitmap.delete <$> levels tile |}.

Definition with_tracker (f : UsageTracker.t → UsageTracker.t) (tile : t) : t :=
  {| tracker := f (tracker tile); levels := levels tile |}.

End HeightLoaderTile.

(** ** Requests and the request queue *)

(** References into the object stores. *)
Abbreviation TileRef := nat (only parsing).
Abbreviation ReqRef := nat (only parsing).
Abbreviation PromiseRef := nat (only parsing).

(** An entry of [waitingList]: the closure [{resolve: () => ...}] built by
    [getOrLoadTile], that is the variables it captures: the coordinate,
    the owner and the [resolve] function of the caller's promise. *)
Record WaitingListItem := {
  wl_x : Z;
  wl_y : Z;
  wl_zoom : Z;
  wl_owner : AnyObject;
  wl_resolve : PromiseRef
}.

Record Request := {
  req_x : Z;
  req_y : Z;
  req_zoom : Z;
  waitingList : list WaitingListItem
}.

Definition push_waiting (item : WaitingListItem) (r : Request) : Request :=
  {| req_x := req_x r; req_y := req_y r; req_zoom := req_zoom r;
     waitingList := waitingList r ++ [item] |}.

(** [request.x === x && request.y === y && request.zoom === zoom] *)
Definition request_matches (x y zoom : Z) (r : Request) : bool :=
  (req_x r =? x) && (req_y r =? y) && (req_zoom r =? zoom).

Module RequestQueue.

Record t := Build {
  queue : list ReqRef;
  queueInProgress : list ReqRef
}.

Definition new : t := {| queue := []; queueInProgress := [] |}.

Definition add (request : ReqRef) (q : t) : t :=
  {| queue := queue q ++ [request]; queueInProgress := queueInProgress q |}.

(** [shift()] takes the first element, [push] appends. *)
Definition get (q : t) : option ReqRef * t :=
  match queue q with
  | [] => (None, q)
  | request :: rest =>
      (Some request,
       {| queue := rest; queueInProgress := queueInProgress q ++ [request] |})
  end.

(** [indexOf] then [splice(index, 1)]: the first occurrence goes. *)
Fixpoint remove_first (request : ReqRef) (l : list ReqRef) : list ReqRef :=
  match l with
  | [] => []
  | r :: rest => if decide (r = request) then rest else r :: remove_first request rest
  end.

Definition remove (request : ReqRef) (q : t) : t :=
  {| queue := queue q; queueInProgress := remove_first request (queueInProgress q) |}.

(** [Array.prototype.find] over references, reading each request object
    in the store. *)
Definition find_in (store : list Request) (x y zoom : Z) (l : list ReqRef) : option ReqRef :=
  List.find (λ r, match store !! r with
                  | Some req => request_matches x y zoom req
                  | None => false
                  end) l.

Definition find (store : list Request) (x y zoom : Z) (q : t) : option ReqRef :=
  match find_in store x y zoom (queue q) with
  | Some r => Some r
  | None => find_in store x y zoom (queueInProgress q)
  end.

Definition size (q : t) : nat := length (queue q).

End RequestQueue.

(** ** TerrainHeightLoader *)

(** What a caller's promise holds. *)
Inductive PromiseState :=
  | Pending
  | Fulfilled (tile : TileRef).

#[global] Instance PromiseState_eq_dec : EqDecision PromiseState.
Proof. solve_decision. Defined.

(** Errors that nothing catches. *)
Inductive JSError :=
  | TypeError      (* a property read on [null] *)
  | LoadRejected.  (* the promise of [load] rejected *)

(** What the awaits of [load] bring back: [fetch] rejects, or it yields a
    response with a status whose body [createImageBitmap] decodes
    ([Some]) or rejects ([None]). *)
Inductive FetchResult :=
  | FetchFailed
  | FetchResponse (status : Z) (image : option ImageBitmap).

(** The loader's fields, the object stores its references point into, and
    the environment: the fetches issued so far (oldest first), the calls
    of [load] suspended at an await, the errors left uncaught. *)
Record Loader := {
  tiles : gmap string TileRef;
  activeRequests : gset ReqRef;
  queue : RequestQueue.t;
  tileStore : list HeightLoaderTile.t;
  requestStore : list Request;
  promiseStore : list PromiseState;
  network : list (Z * Z * Z);
  pipelines : gset ReqRef;
  uncaught : list JSError
}.

Definition maxConcurrentRequests : nat := 2.

Definition init : Loader :=
  {| tiles := ∅; activeRequests := ∅; queue := RequestQueue.new;
     tileStore := []; requestStore := []; promiseStore := [];
     network := []; pipelines := ∅; uncaught := [] |}.

Definition set_tiles (f : gmap string TileRef → gmap string TileRef) (w : Loader) : Loader :=
  {| tiles := f (tiles w); activeRequests := activeRequests w; queue := queue w;
     tileStore := tileStore w; requestStore := requestStore w;
     promiseStore := promiseStore w; network := network w;
     pipelines := pipelines w; uncaught := uncaught w |}.

Definition set_activeRequests (f : gset ReqRef → gset ReqRef) (w : Loader) : Loader :=
  {| tiles := tiles w; activeRequests := f (activeRequests w); queue := queue w;
     tileStore := tileStore w; requestStore := requestStore w;
     promiseStore := promiseStore w; network := network w;
     pipelines := pipelines w; uncaught := uncaught w |}.

Definition set_queue (f : RequestQueue.t → RequestQueue.t) (w : Loader) : Loader :=
  {| tiles := tiles w; activeRequests := activeRequests w; queue := f (queue w);
     tileStore := tileStore w; requestStore := requestStore w;
     promiseStore := promiseStore w; network := network w;
     pipelines := pipelines w; uncaught := uncaught w |}.

Definition set_tileStore (f : list HeightLoaderTile.t → list HeightLoaderTile.t) (w : Loader) : Loader :=
  {| tiles := tiles w; activeRequests := activeRequests w; queue := queue w;
     tileStore := f (tileStore w); requestStore := requestStore w;
     promiseStore := promiseStore w; network := network w;
     pipelines := pipelines w; uncaught := uncaught w |}.

Definition set_requestStore (f : list Request → list Request) (w : Loader) : Loader :=
  {| tiles := tiles w; activeRequests := activeRequests w; queue := queue w;
     tileStore := tileStore w; requestStore := f (requestStore w);
     promiseStore := promiseStore w; network := network w;
     pipelines := pipelines w; uncaught := uncaught w |}.

Definition set_promiseStore (f : list PromiseState → list PromiseState) (w : Loader) : Loader :=
  {| tiles := tiles w; activeRequests := activeRequests w; queue := queue w;
     tileStore := tileStore w; requestStore := requestStore w;
     promiseStore := f (promiseStore w); network := network w;
     pipelines := pipelines w; uncaught := uncaught w |}.

Definition set_network (f : list (Z * Z * Z) → list (Z * Z * Z)) (w : Loader) : Loader :=
  {| tiles := tiles w; activeRequests := activeRequests w; queue := queue w;
     tileStore := tileStore w; requestStore := requestStore w;
     promiseStore := promiseStore w; network := f (network w);
     pipelines := pipelines w; uncaught := uncaught w |}.

Definition set_pipelines (f : gset ReqRef → gset ReqRef) (w : Loader) : Loader :=
  {| tiles := tiles w; activeRequests := activeRequests w; queue := queue w;
     tileStore := tileStore w; requestStore := requestStore w;
     promiseStore := promiseStore w; network := network w;
     pipelines := f (pipelines w); uncaught := uncaught w |}.

Definition set_uncaught (f : list JSError → list JSError) (w : Loader) : Loader :=
  {| tiles := tiles w; activeRequests := activeRequests w; queue := queue w;
     tileStore := tileStore w; requestStore := requestStore w;
     promiseStore := promiseStore w; network := network w;
     pipelines := pipelines w; uncaught := f (uncaught w) |}.

Arguments set_tiles _ _ /.
Arguments set_activeRequests _ _ /.
Arguments set_queue _ _ /.
Arguments set_tileStore _ _ /.
Arguments set_requestStore _ _ /.
Arguments set_promiseStore _ _ /.
Arguments set_network _ _ /.
Arguments set_pipelines _ _ /.
Arguments set_uncaught _ _ /.

(** *** Tiles *)

(** The template string [`${x},${y},${zoom}`]: a whole number below 2^53
    in magnitude is printed digit by digit. *)
Definition getTileKey (x y zoom : Z) : string :=
  pretty x +:+ "," +:+ pretty y +:+ "," +:+ pretty zoom.

(** [None] is the [null] that [getTile] returns. *)
Definition getTile (x y zoom : Z) (w : Loader) : option TileRef :=
  tiles w !! getTileKey x y zoom.

Definition addTile (x y zoom : Z) (w : Loader) : TileRef * Loader :=
  let tile := length (tileStore w) in
  (tile,
   set_tiles (insert (getTileKey x y zoom) tile)
     (set_tileStore (λ s, s ++ [HeightLoaderTile.new]) w)).

(** A method call on the tile object behind a reference. *)
Definition on_tile (f : HeightLoaderTile.t → HeightLoaderTile.t) (tile : TileRef) (w : Loader) : Loader :=
  set_tileStore (alter f tile) w.

Definition addBitmap (bm : TerrainHeightLoaderBitmap.t) (x y zoom : Z) (level : nat) (w : Loader) : Loader :=
  let '(tile, w1) :=
    match getTile x y zoom w with
    | Some tile => (tile, w)
    | None => addTile x y zoom w
    end in
  on_tile (HeightLoaderTile.setLevel level bm) tile w1.

Definition getBitmap (x y zoom : Z) (level : nat) (w : Loader) : option TerrainHeightLoaderBitmap.t :=
  match getTile x y zoom w with
  | None => None
  | Some tile =>
      match tileStore w !! tile with
      | Some obj => HeightLoaderTile.getLevel level obj
      | None => None
      end
  end.

(** [tile.tracker.use(owner)] and [tile.tracker.release(owner)]. *)
Definition tracker_use (tile : TileRef) (owner : AnyObject) (w : Loader) : Loader :=
  on_tile (HeightLoaderTile.with_tracker (UsageTracker.use owner)) tile w.

Definition tracker_release (tile : TileRef) (owner : AnyObject) (w : Loader) : Loader :=
  on_tile (HeightLoaderTile.with_tracker (UsageTracker.release owner)) tile w.

(** [tile.tracker.isUsed()] *)
Definition tile_isUsed (tile : TileRef) (w : Loader) : bool :=
  match tileStore w !! tile with
  | Some obj => UsageTracker.isUsed (HeightLoaderTile.tracker obj)
  | None => false
  end.

Definition tile_users (tile : TileRef) (w : Loader) : gset AnyObject :=
  match tileStore w !! tile with
  | Some obj => UsageTracker.users (HeightLoaderTile.tracker obj)
  | None => ∅
  end.

(** One turn of the loop of [removeUnusedTiles]. *)
Definition removeUnusedTiles_body (entry : string * TileRef) (w : Loader) : Loader :=
  if tile_isUsed entry.2 w then w
  else set_tiles (delete entry.1) (on_tile HeightLoaderTile.delete entry.2 w).

(** The loop runs over the entries the map has when it starts; deleting
    the current entry does not disturb the iteration, and the order in
    which the entries come does not change what is left. *)
Definition removeUnusedTiles (w : Loader) : Loader :=
  foldl (λ acc entry, removeUnusedTiles_body entry acc) w (map_to_list (tiles w)).

(** *** Decoding *)

(** [-10000 + (r * 256 * 256 + g * 256 + b) * 0.1], every operation in
    binary64, the result stored as a float32. *)
Definition decodePixel (r g b : spec_float) : spec_float :=
  JSNumber.fround
    (JSNumber.add (JSNumber.of_Z (-10000))
       (JSNumber.mul
          (JSNumber.add
             (JSNumber.add
                (JSNumber.mul (JSNumber.mul r (JSNumber.of_Z 256)) (JSNumber.of_Z 256))
                (JSNumber.mul g (JSNumber.of_Z 256)))
             b)
          JSNumber.lit_0_1)).

(** The body of the loop of [decodeBitmap], for the sample [i]. *)
Definition decodeSample (imageData : list Z) (i : nat) : spec_float :=
  decodePixel (JSNumber.of_element (imageData !! (i * 4)%nat))
              (JSNumber.of_element (imageData !! (i * 4 + 1)%nat))
              (JSNumber.of_element (imageData !! (i * 4 + 2)%nat)).

Definition decodeBitmap (bm : ImageBitmap) : TerrainHeightLoaderBitmap.t :=
  TerrainHeightLoaderBitmap.new (Some bm)
    (map (decodeSample (ib_data bm)) (seq 0 (ib_width bm * ib_height bm)))
    (ib_width bm) (ib_height bm).

(** *** getOrLoadTile *)

Definition new_promise (st : PromiseState) (w : Loader) : PromiseRef * Loader :=
  (length (promiseStore w), set_promiseStore (λ s, s ++ [st]) w).

(** The [resolve] function of a promise: only a pending promise settles. *)
Definition fulfil (p : PromiseRef) (tile : TileRef) (w : Loader) : Loader :=
  match promiseStore w !! p with
  | Some Pending => set_promiseStore (<[p := Fulfilled tile]>) w
  | _ => w
  end.

Definition new_request (r : Request) (w : Loader) : ReqRef * Loader :=
  (length (requestStore w), set_requestStore (λ s, s ++ [r]) w).

(** The object [{resolve: ...}] that [getOrLoadTile] builds. *)
Definition new_item (x y zoom : Z) (owner : AnyObject) (p : PromiseRef) : WaitingListItem :=
  {| wl_x := x; wl_y := y; wl_zoom := zoom; wl_owner := owner; wl_resolve := p |}.

Definition getOrLoadTile (x y zoom : Z) (owner : AnyObject) (w : Loader) : PromiseRef * Loader :=
  match getTile x y zoom w with
  | Some tile => new_promise (Fulfilled tile) (tracker_use tile owner w)
  | None =>
      let '(p, w1) := new_promise Pending w in
      let waitingListItem := new_item x y zoom owner p in
      match RequestQueue.find (requestStore w1) x y zoom (queue w1) with
      | Some request =>
          (p, set_requestStore (alter (push_waiting waitingListItem) request) w1)
      | None =>
          let '(newRequest, w2) :=
            new_request {| req_x := x; req_y := y; req_zoom := zoom;
                           waitingList := [waitingListItem] |} w1 in
          (p, set_queue (RequestQueue.add newRequest) w2)
      end
  end.

(** How a piece of code ends: normally, or by throwing; either way the
    state reached so far stays. *)
Inductive Completion :=
  | Normal (w : Loader)
  | Throw (e : JSError) (w : Loader).

(** The body of a waiting list item's [resolve]: [tile.tracker] is read
    off whatever [getTile] returned. *)
Definition waiting_resolve (item : WaitingListItem) (w : Loader) : Completion :=
  match getTile (wl_x item) (wl_y item) (wl_zoom item) w with
  | None => Throw TypeError w
  | Some tile =>
      Normal (fulfil (wl_resolve item) tile (tracker_use tile (wl_owner item) w))
  end.

(** [for (const waitingListItem of task.waitingList) waitingListItem.resolve()] *)
Fixpoint resolve_all (items : list WaitingListItem) (w : Loader) : Completion :=
  match items with
  | [] => Normal w
  | item :: rest =>
      match waiting_resolve item w with
      | Normal w1 => resolve_all rest w1
      | Throw e w1 => Throw e w1
      end
  end.

(** *** load *)

(** [load] up to its first await: the request goes out. *)
Definition load_start (x y zoom : Z) (w : Loader) : Loader :=
  set_network (λ log, log ++ [(x, y, zoom)]) w.

(** [Math.floor(x / (2 ** i))] for a whole number [x]. Up to [i = 1023]
    binary64 holds [2 ** i] exactly and dividing a whole number by it
    loses nothing, so the result is the quotient rounded down. From
    [i = 1024] on [2 ** i] is [Infinity] and the quotient is a zero,
    which the cache key prints as [0]. For [x] below 2^53 in magnitude
    the lemma [floor_div_pow2_binary64] derives this from the binary64
    operations. *)
Definition floor_div_pow2 (x : Z) (i : nat) : Z :=
  if (i <? 1024)%nat then x `div` 2 ^ Z.of_nat i else 0.

(** The loop [for (let i = 0; i < downscaleTimes; i++)], from [i] on. *)
Fixpoint load_downscale (decoded : TerrainHeightLoaderBitmap.t) (x y zoom : Z)
    (i count : nat) (w : Loader) : Loader :=
  match count with
  | O => w
  | S count' =>
      let tx := floor_div_pow2 x i in
      let ty := floor_div_pow2 y i in
      let downscaled := TerrainHeightLoaderBitmap.downscale decoded in
      load_downscale decoded x y zoom (S i) count'
        (addBitmap downscaled tx ty zoom (i + 1) w)
  end.

(** [load] after its awaits: [None] when its promise rejects. *)
Definition load_finish (x y zoom : Z) (downscaleTimes : nat) (res : FetchResult)
    (w : Loader) : option Loader :=
  match res with
  | FetchFailed => None
  | FetchResponse status image =>
      if negb (status =? 200) then Some w
      else
        match image with
        | None => None
        | Some bm =>
            let decoded := decodeBitmap bm in
            Some (load_downscale decoded x y zoom 0 downscaleTimes
                    (addBitmap decoded x y zoom 0 w))
        end
  end.

(** *** processQueue and update *)

(** The callback given to [then] in [processQueue]. *)
Definition then_callback (task : ReqRef) (w : Loader) : Completion :=
  let w1 := set_activeRequests (λ s, s ∖ {[task]}) w in
  let w2 := set_queue (RequestQueue.remove task) w1 in
  match requestStore w2 !! task with
  | Some req => resolve_all (waitingList req) w2
  | None => Normal w2
  end.

(** One turn of the loop of [processQueue]; [None] when the loop
    condition fails. *)
Definition processQueue_body (w : Loader) : option Loader :=
  if bool_decide (0 < RequestQueue.size (queue w))%nat
     && bool_decide (size (activeRequests w) < maxConcurrentRequests)%nat
  then
    match RequestQueue.get (queue w) with
    | (Some task, q) =>
        let w1 := set_activeRequests (λ s, {[task]} ∪ s) (set_queue (λ _, q) w) in
        match requestStore w1 !! task with
        | Some req =>
            Some (set_pipelines (λ s, {[task]} ∪ s)
                    (load_start (req_x req) (req_y req) (req_zoom req) w1))
        | None => Some w1
        end
    | (None, _) => None
    end
  else None.

(** The loop takes one request off the waiting list each turn, so the
    length of that list bounds the number of turns. *)
Fixpoint processQueue_loop (turns : nat) (w : Loader) : Loader :=
  match turns with
  | O => w
  | S turns' =>
      match processQueue_body w with
      | Some w1 => processQueue_loop turns' w1
      | None => w
      end
  end.

Definition processQueue (w : Loader) : Loader :=
  processQueue_loop (RequestQueue.size (queue w)) w.

Definition update (w : Loader) : Loader :=
  processQueue (removeUnusedTiles w).

(** *** The loader in its environment *)

(** What can happen to a loader: its public methods are called, a
    consumer calls [use] or [release] on the tracker of a tile it holds,
    or the awaits of a suspended [load] complete. *)
Inductive Event :=
  | EvGetOrLoadTile (x y zoom : Z) (owner : AnyObject)
  | EvUpdate
  | EvUse (tile : TileRef) (owner : AnyObject)
  | EvRelease (tile : TileRef) (owner : AnyObject)
  | EvSettle (task : ReqRef) (res : FetchResult).

(** The awaits of the call of [load] for [task] complete with [res]:
    [load] runs to its end and, if its promise is fulfilled, the [then]
    callback follows: both run as microtasks, before any timer or frame
    callback, so no [update] comes between them. A rejection has no
    handler. Only a suspended call can complete: for any other [task]
    nothing happens. *)
Definition settle (task : ReqRef) (res : FetchResult) (w : Loader) : Loader :=
  if bool_decide (task ∈ pipelines w) then
    let w0 := set_pipelines (λ s, s ∖ {[task]}) w in
    match requestStore w0 !! task with
    | Some req =>
        match load_finish (req_x req) (req_y req) (req_zoom req) 1 res w0 with
        | None => set_uncaught (λ l, l ++ [LoadRejected]) w0
        | Some w1 =>
            match then_callback task w1 with
            | Normal w2 => w2
            | Throw e w2 => set_uncaught (λ l, l ++ [e]) w2
            end
        end
    | None => w0
    end
  else w.

Definition step (w : Loader) (ev : Event) : Loader :=
  match ev with
  | EvGetOrLoadTile x y zoom owner => (getOrLoadTile x y zoom owner w).2
  | EvUpdate => update w
  | EvUse tile owner => tracker_use tile owner w
  | EvRelease tile owner => tracker_release tile owner w
  | EvSettle task res => settle task res w
  end.

Definition run (evs : list Event) (w : Loader) : Loader := foldl step w evs.

(** ** Invariants *)

(** The requests that exist: the waiting ones, then the ones in flight. *)
Definition live_requests (w : Loader) : list ReqRef :=
  RequestQueue.queue (queue w) ++ RequestQueue.queueInProgress (queue w).

Definition coord_of (req : Request) : Z * Z * Z :=
  (req_x req, req_y req, req_zoom req).

Definition request_coord (w : Loader) (r : ReqRef) : option (Z * Z * Z) :=
  coord_of <$> requestStore w !! r.

Definition item_coord (item : WaitingListItem) : Z * Z * Z :=
  (wl_x item, wl_y item, wl_zoom item).

(** The coalescing invariant: two positions of the waiting list and the
    in-flight list that hold requests for one coordinate are the same
    position. *)
Definition one_request_per_coordinate (w : Loader) : Prop :=
  ∀ (i j : nat) (ri rj : ReqRef) (c : Z * Z * Z),
    live_requests w !! i = Some ri →
    live_requests w !! j = Some rj →
    request_coord w ri = Some c →
    request_coord w rj = Some c →
    i = j.


(** What holds of the requests and promises of every reachable state. *)
Record RequestsInv (w : Loader) : Prop := {
  inv_valid : ∀ r, r ∈ live_requests w → (r < length (requestStore w))%nat;
  inv_coords : NoDup (request_coord w <$> live_requests w);
  inv_active :
    activeRequests w = list_to_set (RequestQueue.queueInProgress (queue w));
  inv_pipelines : pipelines w ⊆ activeRequests w;
  inv_cap :
    (length (RequestQueue.queueInProgress (queue w)) ≤ maxConcurrentRequests)%nat;
  inv_items : ∀ r req item,
    requestStore w !! r = Some req → item ∈ waitingList req →
    item_coord item = coord_of req;
  inv_fifo : ∃ k : nat,
    (k ≤ length (requestStore w))%nat
    ∧ RequestQueue.queue (queue w) = seq k (length (requestStore w) - k)
    ∧ network w = coord_of <$> take k (requestStore w);
  inv_promise_valid : ∀ r req item,
    requestStore w !! r = Some req → item ∈ waitingList req →
    (wl_resolve item < length (promiseStore w))%nat;
  inv_promise_owner : ∀ r r' req req' item item',
    requestStore w !! r = Some req → requestStore w !! r' = Some req' →
    item ∈ waitingList req → item' ∈ waitingList req' →
    wl_resolve item = wl_resolve item' → r = r';
  inv_pending : ∀ r req item,
    r ∈ live_requests w → requestStore w !! r = Some req →
    item ∈ waitingList req →
    promiseStore w !! wl_resolve item = Some Pending
}.

(** Every cached reference names a tile object. *)
Definition TilesInv (w : Loader) : Prop :=
  ∀ key tile, tiles w !! key = Some tile → (tile < length (tileStore w))%nat.

Definition Inv (w : Loader) : Prop := RequestsInv w ∧ TilesInv w.

(** [item] is on the waiting list of the request [r]. *)
Definition waits_on (w : Loader) (r : ReqRef) (item : WaitingListItem) : Prop :=
  ∃ req, requestStore w !! r = Some req ∧ item ∈ waitingList req.


(** The reading of "without a later [update] no caller that missed the
    cache is ever resumed": the promise such a caller got stays pending
    through any events that contain no [update]. *)
Definition resumed_only_after_update : Prop :=
  ∀ (evs0 evs : list Event) (x y zoom : Z) (owner : AnyObject),
    let w := run evs0 init in
    getTile x y zoom w = None →
    EvUpdate ∉ evs →
    promiseStore (run evs (getOrLoadTile x y zoom owner w).2)
      !! (getOrLoadTile x y zoom owner w).1 = Some Pending.


(** The reading of "for each i below [downscaleTimes], level i+1 is
    stored at (floor(x / 2^i), floor(y / 2^i), zoom)", with the quotient
    of the integers rounded down. *)
Definition pyramid_at_floor : Prop :=
  ∀ (x y zoom : Z) (downscaleTimes : nat) (bm : ImageBitmap) (w' : Loader),
    load_finish x y zoom downscaleTimes (FetchResponse 200 (Some bm)) init = Some w' →
    ∀ i : nat, (i < downscaleTimes)%nat →
      getBitmap (x `div` 2 ^ Z.of_nat i) (y `div` 2 ^ Z.of_nat i) zoom (i + 1) w'
      = Some (TerrainHeightLoaderBitmap.downscale (decodeBitmap bm)).

Definition completion_state (c : Completion) : Loader :=
  match c with
  | Normal w => w
  | Throw _ w => w
  end.

(** ** Cache keys and waiting requests *)

(** Whether a string holds the separator of the cache keys. *)
Fixpoint has_comma (s : string) : bool :=
  match s with
  | EmptyString => false
  | String c rest => if decide (c = ","%char) then true else has_comma rest
  end.

(** What holds of waiting lists and of the cache in every reachable
    state: a request always has a waiting item, and while a request
    exists its coordinate is not cached. *)
Record WaitersInv (w : Loader) : Prop := {
  inv_waiters : ∀ r req,
    requestStore w !! r = Some req → waitingList req ≠ [];
  inv_uncached : ∀ r req,
    r ∈ live_requests w → requestStore w !! r = Some req →
    getTile (req_x req) (req_y req) (req_zoom req) w = None
}.

(** No tile object is cached under two keys. *)
Definition TilesInj (w : Loader) : Prop :=
  ∀ key key' tile,
    tiles w !! key = Some tile → tiles w !! key' = Some tile → key = key'.

(** A request whose call of [load] rejected: it stays in flight, with no
    pipeline left to complete it. *)
Definition stuck (task : ReqRef) (w : Loader) : Prop :=
  task ∈ RequestQueue.queueInProgress (queue w) ∧ task ∉ pipelines w.

(** ** MapWorkerSystem *)

Section MapWorkerSystem.

(** The class [MapWorker] is imported; of a worker only [queueLength]
    is read. *)
Variable MapWorker : Type.
Variable queueLength : MapWorker → Z.

(** The loop of [getFreeWorker], from the worker [workers[0]] on;
    [None] is the [null] returned after the loop. *)
Fixpoint getFreeWorker (workers : list MapWorker) : option MapWorker :=
  match workers with
  | [] => None
  | worker :: rest =>
      if queueLength worker <? 2 then Some worker else getFreeWorker rest
  end.

End MapWorkerSystem.

(** ** CSM: the cascade splits *)

Module CSM.

(** [const FadeOffsetFactor = 250] *)
Definition FadeOffsetFactor : spec_float := JSNumber.of_Z 250.

(** The literal [0.5] that [updateBreaks] passes as [lambda]. *)
Definition lit_0_5 : spec_float := S754_finite false 4503599627370496 (-53).

Definition sub : spec_float → spec_float → spec_float :=
  SFsub JSNumber.prec64 JSNumber.emax64.

(** An element of a [number[]] read as a number: a read past the end
    yields [undefined], which arithmetic converts to NaN. *)
Definition element (o : option spec_float) : spec_float :=
  match o with
  | Some v => v
  | None => S754_nan
  end.

(** The fields of a [CSM] object that the split code reads and writes;
    [cascades] is a whole number, [breaks] holds two-element arrays. *)
Record t := Build {
  near : spec_float;
  far : spec_float;
  cascades : Z;
  breaks : list (spec_float * spec_float);
  fadeOffsets : list spec_float
}.

Section Splits.

(** The operator [**]. *)
Variable pow : spec_float → spec_float → spec_float.

(** The counter [i] runs over the whole numbers from 1 while
    [i < splits]; then [r.push(1)]. *)
Definition uniformSplit (splits : Z) (near far : spec_float) : list spec_float :=
  map (λ i, JSNumber.div
              (JSNumber.add near
                 (JSNumber.div (JSNumber.mul (sub far near) (JSNumber.of_Z i))
                    (JSNumber.of_Z splits)))
              far)
    (seqZ 1 (splits - 1))
  ++ [JSNumber.of_Z 1].

Definition logarithmicSplit (splits : Z) (near far : spec_float) : list spec_float :=
  map (λ i, JSNumber.div
              (JSNumber.mul near
                 (pow (JSNumber.div far near)
                    (JSNumber.div (JSNumber.of_Z i) (JSNumber.of_Z splits))))
              far)
    (seqZ 1 (splits - 1))
  ++ [JSNumber.of_Z 1].

Definition practicalSplit (splits : Z) (near far lambda : spec_float) : list spec_float :=
  let log := logarithmicSplit splits near far in
  let uni := uniformSplit splits near far in
  map (λ i, JSNumber.add
              (JSNumber.mul lambda (element (log !! Z.to_nat (i - 1))))
              (JSNumber.mul (sub (JSNumber.of_Z 1) lambda)
                 (element (uni !! Z.to_nat (i - 1)))))
    (seqZ 1 (splits - 1))
  ++ [JSNumber.of_Z 1].

(** One turn of the loop of [updateBreaks]: [fadeOffsets] is pushed to
    first and read at the index [i] afterwards. *)
Definition updateBreaks_body (near far : spec_float) (splits : list spec_float)
    (acc : list (spec_float * spec_float) * list spec_float) (i : nat)
    : list (spec_float * spec_float) * list spec_float :=
  let prevBreak :=
    if decide (i = 0%nat) then JSNumber.of_Z 0 else element (splits !! (i - 1)%nat) in
  let fadeOffsets := acc.2 ++ [JSNumber.mul (element (splits !! i)) FadeOffsetFactor] in
  (acc.1 ++ [(prevBreak,
              JSNumber.add (element (splits !! i))
                (JSNumber.div (element (fadeOffsets !! i)) (sub far near)))],
   fadeOffsets).

Definition updateBreaks (c : t) : t :=
  let splits := practicalSplit (cascades c) (near c) (far c) lit_0_5 in
  let r := foldl (updateBreaks_body (near c) (far c) splits) ([], [])
             (seq 0 (length splits)) in
  {| near := near c; far := far c; cascades := cascades c;
     breaks := r.1; fadeOffsets := r.2 |}.

End Splits.

(** The array is converted to a [Float32Array] at the end. *)
Definition getBreaksForUniform (c : t) : list spec_float :=
  map JSNumber.fround
    (flat_map (λ b, [JSNumber.mul b.1 (sub (far c) (near c));
                     JSNumber.mul b.2 (sub (far c) (near c));
                     JSNumber.of_Z 0; JSNumber.of_Z 0])
       (breaks c)).

End CSM.

(** * Properties *)

(** ** UsageTracker *)

Lemma tracker_eq (a b : UsageTracker.t) :
  UsageTracker.users a = UsageTracker.users b → a = b.
Proof. destruct a, b; simpl; congruence. Qed.

Lemma isUsed_false_iff (tr : UsageTracker.t) :
  UsageTracker.isUsed tr = false ↔ UsageTracker.users tr = ∅.
Proof.
  unfold UsageTracker.isUsed. rewrite bool_decide_eq_false. split.
  - intros H. apply leibniz_equiv, size_empty_inv. lia.
  - intros ->. rewrite size_empty. lia.
Qed.

(** C7: [use] and [release] are idempotent, and releasing an owner that
    is not registered changes nothing; both are total functions, so
    neither can raise an error. *)
Theorem tracker_idempotent (tr : UsageTracker.t) (owner : AnyObject) :
  UsageTracker.use owner (UsageTracker.use owner tr) = UsageTracker.use owner tr
  ∧ UsageTracker.release owner (UsageTracker.release owner tr)
    = UsageTracker.release owner tr
  ∧ (owner ∉ UsageTracker.users tr → UsageTracker.release owner tr = tr).
Proof.
  repeat split; [| |intros Hnot]; apply tracker_eq; simpl; set_solver.
Qed.

Lemma tracker_idempotent_witness :
  let tr := UsageTracker.use 5%nat UsageTracker.new in
  (3%nat ∉ UsageTracker.users tr) ∧ UsageTracker.release 3%nat tr = tr.
Proof.
  split.
  - simpl. set_solver.
  - apply (tracker_idempotent (UsageTracker.use 5%nat UsageTracker.new) 3%nat).
    simpl. set_solver.
Defined.

(** ** Integer arithmetic in binary64 is exact below 2^53 *)

Lemma iter_pos_iter {A} (f : A → A) (p : positive) (x : A) :
  SpecFloat.iter_pos f p x = Pos.iter f x p.
Proof.
  revert x. induction p as [p IH|p IH|]; intros x; simpl.
  - rewrite !IH. by rewrite !Pos.iter_swap.
  - by rewrite !IH.
  - done.
Qed.

Lemma Zpos_iter_xO (p k : positive) :
  Z.pos (Pos.iter xO p k) = Z.pos p * 2 ^ Z.pos k.
Proof.
  induction k as [|k IH] using Pos.peano_ind.
  - simpl. lia.
  - rewrite Pos.iter_succ, Pos2Z.inj_succ, Z.pow_succ_r by lia.
    rewrite Pos2Z.inj_xO, IH. lia.
Qed.

Lemma iter_shr_1_exact (q k : positive) :
  Pos.iter shr_1 {| shr_m := Z.pos (Pos.iter xO q k); shr_r := false; shr_s := false |} k
  = {| shr_m := Z.pos q; shr_r := false; shr_s := false |}.
Proof.
  induction k as [|k IH] using Pos.peano_ind.
  - done.
  - rewrite Pos.iter_succ_r. rewrite Pos.iter_succ. simpl. exact IH.
Qed.

Lemma digits2_bounds (p : positive) :
  2 ^ (Z.pos (digits2_pos p) - 1) ≤ Z.pos p < 2 ^ Z.pos (digits2_pos p).
Proof.
  induction p as [p IH|p IH|]; simpl digits2_pos.
  - rewrite Pos2Z.inj_succ, Z.pow_succ_r by lia.
    replace (Z.succ (Z.pos (digits2_pos p)) - 1) with (Z.succ (Z.pos (digits2_pos p) - 1)) by lia.
    rewrite Z.pow_succ_r by lia. lia.
  - rewrite Pos2Z.inj_succ, Z.pow_succ_r by lia.
    replace (Z.succ (Z.pos (digits2_pos p)) - 1) with (Z.succ (Z.pos (digits2_pos p) - 1)) by lia.
    rewrite Z.pow_succ_r by lia. lia.
  - simpl. lia.
Qed.

Lemma digits2_unique (p : positive) (d : Z) :
  2 ^ (d - 1) ≤ Z.pos p < 2 ^ d → Z.pos (digits2_pos p) = d.
Proof.
  intros [Hlo Hhi]. pose proof (digits2_bounds p) as [Hlo' Hhi'].
  assert (0 < d).
  { destruct (Z.lt_trichotomy d 0) as [?|[->|?]]; [|simpl in Hhi; lia|done].
    rewrite Z.pow_neg_r in Hhi by done. lia. }
  destruct (Z.lt_trichotomy (Z.pos (digits2_pos p)) d) as [Hlt|[?|Hgt]]; [|done|].
  - assert (2 ^ Z.pos (digits2_pos p) ≤ 2 ^ (d - 1)) by (apply Z.pow_le_mono_r; lia). lia.
  - assert (2 ^ d ≤ 2 ^ (Z.pos (digits2_pos p) - 1)) by (apply Z.pow_le_mono_r; lia). lia.
Qed.

Lemma digits2_shift (m q : positive) (t : Z) :
  0 ≤ t → Z.pos m = Z.pos q * 2 ^ t →
  Z.pos (digits2_pos m) = Z.pos (digits2_pos q) + t.
Proof.
  intros Ht Hm. apply digits2_unique. rewrite Hm.
  pose proof (digits2_bounds q) as [Hlo Hhi].
  replace (Z.pos (digits2_pos q) + t - 1) with ((Z.pos (digits2_pos q) - 1) + t) by lia.
  rewrite !Z.pow_add_r by lia.
  assert (0 < 2 ^ t) by (apply Z.pow_pos_nonneg; lia). nia.
Qed.

Lemma round_aux_exact (m q : positive) (e t : Z) :
  0 ≤ t → Z.pos m = Z.pos q * 2 ^ t →
  Z.pos (digits2_pos q) = 53 →
  -1074 ≤ e + t ≤ 971 →
  binary_round_aux 53 1024 false (Z.pos m) e loc_Exact = S754_finite false q (e + t).
Proof.
  intros Ht Hm Hq He.
  pose proof (digits2_shift m q t Ht Hm) as Hdm.
  unfold binary_round_aux, shr_fexp, fexp, emin. simpl Zdigits2.
  rewrite Hdm, Hq.
  replace (Z.max (53 + t + e - 53) (3 - 1024 - 53) - e) with t by lia.
  assert (shr (shr_record_of_loc (Z.pos m) loc_Exact) e t
          = ({| shr_m := Z.pos q; shr_r := false; shr_s := false |}, e + t)) as ->.
  { destruct t as [|t|t]; [| |lia].
    - simpl. rewrite Z.add_0_r. do 2 f_equal. lia.
    - simpl. rewrite iter_pos_iter.
      assert (m = Pos.iter xO q t) as ->.
      { apply Pos2Z.inj. by rewrite Zpos_iter_xO. }
      by rewrite iter_shr_1_exact. }
  cbn [shr_m loc_of_shr_record round_nearest_even Zdigits2]. rewrite Hq.
  replace (Z.max (53 + (e + t) - 53) (3 - 1024 - 53) - (e + t)) with 0 by lia.
  cbn [shr shr_record_of_loc shr_m].
  change (1024 - 53) with 971.
  destruct (Z.leb_spec (e + t) 971); [done|lia].
Qed.

Lemma shl_align_fst (mx : positive) (ex ex' : Z) :
  ex' ≤ ex → Z.pos (fst (shl_align mx ex ex')) = Z.pos mx * 2 ^ (ex - ex')
  ∧ snd (shl_align mx ex ex') = ex'.
Proof.
  intros Hle. unfold shl_align.
  destruct (ex' - ex) as [|d|d] eqn:Hd; [|lia|].
  - assert (ex = ex') as -> by lia. rewrite Z.sub_diag. simpl. split; lia.
  - simpl. rewrite Zpos_iter_xO. split; [|done]. do 2 f_equal. lia.
Qed.

Lemma shl_align_ge (mx : positive) (ex ex' : Z) :
  ex ≤ ex' → shl_align mx ex ex' = (mx, ex).
Proof. intros Hle. unfold shl_align. destruct (ex' - ex) eqn:Hd; [done|done|lia]. Qed.

Lemma round_exact (m q : positive) (e e' : Z) :
  Z.pos (digits2_pos q) = 53 → -1074 ≤ e' ≤ 971 →
  Z.pos m * 2 ^ Z.max 0 (e - e') = Z.pos q * 2 ^ Z.max 0 (e' - e) →
  binary_round 53 1024 false m e = S754_finite false q e'.
Proof.
  intros Hq He' Hm. unfold binary_round.
  destruct (Z.le_gt_cases e e') as [Hle|Hgt].
  - rewrite Z.max_l, Z.max_r in Hm by lia. rewrite Z.pow_0_r, Z.mul_1_r in Hm.
    pose proof (digits2_shift m q (e' - e) ltac:(lia) Hm) as Hdm.
    unfold fexp, emin. rewrite Hdm, Hq.
    rewrite shl_align_ge by lia.
    rewrite (round_aux_exact m q e (e' - e)) by (try done; lia).
    f_equal. lia.
  - rewrite Z.max_r, Z.max_l in Hm by lia. rewrite Z.pow_0_r, Z.mul_1_r in Hm.
    assert (Z.pos q = Z.pos m * 2 ^ (e - e')) as Hq' by lia.
    pose proof (digits2_shift q m (e - e') ltac:(lia) Hq') as Hdq.
    unfold fexp, emin.
    replace (Z.max (Z.pos (digits2_pos m) + e - 53) (3 - 1024 - 53)) with e' by lia.
    destruct (shl_align_fst m e e' ltac:(lia)) as [Hfst Hsnd].
    destruct (shl_align m e e') as [mz ez]. simpl in Hfst, Hsnd. subst ez.
    assert (mz = q) as -> by (apply Pos2Z.inj; lia).
    rewrite (round_aux_exact q q e' 0) by (try done; lia).
    f_equal. lia.
Qed.

Lemma digits2_mono (a c : positive) :
  Z.pos a ≤ Z.pos c → Z.pos (digits2_pos a) ≤ Z.pos (digits2_pos c).
Proof.
  intros Hle. pose proof (digits2_bounds a) as [Hlo _].
  pose proof (digits2_bounds c) as [_ Hhi].
  destruct (Z.le_gt_cases (Z.pos (digits2_pos a)) (Z.pos (digits2_pos c))); [done|].
  assert (2 ^ Z.pos (digits2_pos c) ≤ 2 ^ (Z.pos (digits2_pos a) - 1))
    by (apply Z.pow_le_mono_r; lia).
  lia.
Qed.

Lemma digits2_le_53 (n : positive) :
  Z.pos n < 2 ^ 53 → Z.pos (digits2_pos n) ≤ 53.
Proof.
  intros Hn. pose proof (digits2_bounds n) as [Hlo _].
  destruct (Z.le_gt_cases (Z.pos (digits2_pos n)) 53); [done|].
  assert (2 ^ 53 ≤ 2 ^ (Z.pos (digits2_pos n) - 1)) by (apply Z.pow_le_mono_r; lia).
  lia.
Qed.

Lemma of_pos_canonical (n : positive) :
  Z.pos n < 2 ^ 53 →
  ∃ q, Z.pos q = Z.pos n * 2 ^ (53 - Z.pos (digits2_pos n))
       ∧ Z.pos (digits2_pos q) = 53
       ∧ binary_round 53 1024 false n 0
         = S754_finite false q (Z.pos (digits2_pos n) - 53).
Proof.
  intros Hn. pose proof (digits2_le_53 n Hn) as Hd.
  assert (0 < Z.pos n * 2 ^ (53 - Z.pos (digits2_pos n))) as Hpos.
  { assert (0 < 2 ^ (53 - Z.pos (digits2_pos n))) by (apply Z.pow_pos_nonneg; lia). lia. }
  exists (Z.to_pos (Z.pos n * 2 ^ (53 - Z.pos (digits2_pos n)))).
  rewrite Z2Pos.id by done. split; [done|].
  assert (Z.pos (digits2_pos (Z.to_pos (Z.pos n * 2 ^ (53 - Z.pos (digits2_pos n))))) = 53)
    as Hq.
  { rewrite (digits2_shift _ n (53 - Z.pos (digits2_pos n))); [lia|lia|].
    by rewrite Z2Pos.id. }
  split; [done|].
  apply round_exact; [done|lia|].
  replace (Z.max 0 (0 - (Z.pos (digits2_pos n) - 53)))
    with (53 - Z.pos (digits2_pos n)) by lia.
  replace (Z.max 0 (Z.pos (digits2_pos n) - 53 - 0)) with 0 by lia.
  rewrite Z2Pos.id by done. rewrite Z.pow_0_r. lia.
Qed.

Lemma SFadd_pos_exact (a b : positive) :
  Z.pos (a + b) < 2 ^ 53 →
  SFadd 53 1024 (binary_round 53 1024 false a 0) (binary_round 53 1024 false b 0)
  = binary_round 53 1024 false (a + b) 0.
Proof.
  intros Hc.
  assert (Z.pos a < 2 ^ 53) as Ha by lia.
  assert (Z.pos b < 2 ^ 53) as Hb by lia.
  destruct (of_pos_canonical a Ha) as (qa & Hqa & Hda & ->).
  destruct (of_pos_canonical b Hb) as (qb & Hqb & Hdb & ->).
  destruct (of_pos_canonical (a + b) Hc) as (qc & Hqc & Hdc & ->).
  pose proof (digits2_le_53 a Ha) as Hda53.
  pose proof (digits2_le_53 b Hb) as Hdb53.
  pose proof (digits2_le_53 (a + b) Hc) as Hdc53.
  pose proof (digits2_mono a (a + b) ltac:(lia)) as Hac.
  pose proof (digits2_mono b (a + b) ltac:(lia)) as Hbc.
  set (da := Z.pos (digits2_pos a)) in *.
  set (db := Z.pos (digits2_pos b)) in *.
  set (dc := Z.pos (digits2_pos (a + b))) in *.
  unfold SFadd. cbn [cond_Zopp].
  set (ez := Z.min (da - 53) (db - 53)).
  destruct (shl_align_fst qa (da - 53) ez ltac:(lia)) as [Hxa _].
  destruct (shl_align_fst qb (db - 53) ez ltac:(lia)) as [Hxb _].
  set (xa := fst (shl_align qa (da - 53) ez)) in *.
  set (xb := fst (shl_align qb (db - 53) ez)) in *.
  change (Z.pos xa + Z.pos xb) with (Z.pos (xa + xb)).
  cbn [binary_normalize].
  apply round_exact; [done|lia|].
  replace (Z.max 0 (ez - (dc - 53))) with 0 by lia.
  replace (Z.max 0 (dc - 53 - ez)) with (dc - 53 - ez) by lia.
  rewrite Z.pow_0_r, Z.mul_1_r, Pos2Z.inj_add, Hxa, Hxb, Hqa, Hqb, Hqc.
  rewrite <-!Z.mul_assoc, <-!Z.pow_add_r by lia.
  replace (53 - da + (da - 53 - ez)) with (- ez) by lia.
  replace (53 - db + (db - 53 - ez)) with (- ez) by lia.
  replace (53 - dc + (dc - 53 - ez)) with (- ez) by lia.
  lia.
Qed.

Lemma SFmul_pos_exact (a b : positive) :
  Z.pos (a * b) < 2 ^ 53 →
  SFmul 53 1024 (binary_round 53 1024 false a 0) (binary_round 53 1024 false b 0)
  = binary_round 53 1024 false (a * b) 0.
Proof.
  intros Hc.
  assert (Z.pos a < 2 ^ 53) as Ha by nia.
  assert (Z.pos b < 2 ^ 53) as Hb by nia.
  destruct (of_pos_canonical a Ha) as (qa & Hqa & Hda & ->).
  destruct (of_pos_canonical b Hb) as (qb & Hqb & Hdb & ->).
  destruct (of_pos_canonical (a * b) Hc) as (qc & Hqc & Hdc & ->).
  pose proof (digits2_le_53 a Ha) as Hda53.
  pose proof (digits2_le_53 b Hb) as Hdb53.
  pose proof (digits2_le_53 (a * b) Hc) as Hdc53.
  assert (Z.pos (digits2_pos a) + Z.pos (digits2_pos b) - 1
          ≤ Z.pos (digits2_pos (a * b))) as Hprod.
  { pose proof (digits2_bounds a) as [Hla _].
    pose proof (digits2_bounds b) as [Hlb _].
    pose proof (digits2_bounds (a * b)) as [_ Hhc].
    destruct (Z.le_gt_cases (Z.pos (digits2_pos a) + Z.pos (digits2_pos b) - 1)
                (Z.pos (digits2_pos (a * b)))); [done|].
    assert (2 ^ Z.pos (digits2_pos (a * b))
            ≤ 2 ^ ((Z.pos (digits2_pos a) - 1) + (Z.pos (digits2_pos b) - 1)))
      by (apply Z.pow_le_mono_r; lia).
    rewrite Z.pow_add_r in * by lia. nia. }
  set (da := Z.pos (digits2_pos a)) in *.
  set (db := Z.pos (digits2_pos b)) in *.
  set (dc := Z.pos (digits2_pos (a * b))) in *.
  unfold SFmul. cbn [xorb].
  rewrite (round_aux_exact (qa * qb) qc (da - 53 + (db - 53)) (53 - da - db + dc));
    [f_equal; lia|lia| |done|lia].
  rewrite Pos2Z.inj_mul, Hqa, Hqb, Hqc, Pos2Z.inj_mul.
  replace (Z.pos a * 2 ^ (53 - da) * (Z.pos b * 2 ^ (53 - db)))
    with (Z.pos a * Z.pos b * (2 ^ (53 - da) * 2 ^ (53 - db))) by lia.
  rewrite <-!Z.mul_assoc, <-!Z.pow_add_r by lia.
  do 3 f_equal. lia.
Qed.

Lemma of_Z_pos (n : positive) :
  JSNumber.of_Z (Z.pos n) = binary_round 53 1024 false n 0.
Proof. reflexivity. Qed.

Lemma of_Z_add (a b : Z) :
  0 ≤ a → 0 ≤ b → a + b < 2 ^ 53 →
  JSNumber.add (JSNumber.of_Z a) (JSNumber.of_Z b) = JSNumber.of_Z (a + b).
Proof.
  intros Ha Hb Hc. destruct a as [|a|a]; [|..|lia]; (destruct b as [|b|b]; [|..|lia]).
  - reflexivity.
  - change (0 + Z.pos b) with (Z.pos b). rewrite of_Z_pos.
    destruct (of_pos_canonical b ltac:(lia)) as (q & _ & _ & ->). reflexivity.
  - rewrite Z.add_0_r, of_Z_pos.
    destruct (of_pos_canonical a ltac:(lia)) as (q & _ & _ & ->). reflexivity.
  - change (Z.pos a + Z.pos b) with (Z.pos (a + b)) in *.
    rewrite !of_Z_pos. by apply SFadd_pos_exact.
Qed.

Lemma of_Z_mul (a b : Z) :
  0 ≤ a < 2 ^ 53 → 0 ≤ b < 2 ^ 53 → a * b < 2 ^ 53 →
  JSNumber.mul (JSNumber.of_Z a) (JSNumber.of_Z b) = JSNumber.of_Z (a * b).
Proof.
  intros [Ha Ha'] [Hb Hb'] Hc.
  destruct a as [|a|a]; [|..|lia]; (destruct b as [|b|b]; [|..|lia]).
  - reflexivity.
  - change (0 * Z.pos b) with 0. rewrite of_Z_pos.
    destruct (of_pos_canonical b Hb') as (q & _ & _ & ->). reflexivity.
  - rewrite Z.mul_0_r, of_Z_pos.
    destruct (of_pos_canonical a Ha') as (q & _ & _ & ->). reflexivity.
  - change (Z.pos a * Z.pos b) with (Z.pos (a * b)) in *.
    rewrite !of_Z_pos. by apply SFmul_pos_exact.
Qed.

(** ** The decode transform *)

Lemma lit_0_1_nearest :
  JSNumber.lit_0_1 = JSNumber.div (JSNumber.of_Z 1) (JSNumber.of_Z 10).
Proof. vm_compute. reflexivity. Qed.

Lemma lit_0_25_exact :
  JSNumber.lit_0_25 = JSNumber.div (JSNumber.of_Z 1) (JSNumber.of_Z 4).
Proof. vm_compute. reflexivity. Qed.

(** Packing three channels is exact: the binary64 operations of the
    source compute the integer [r * 65536 + g * 256 + b]. *)
Lemma decodePixel_packed (r g b : Z) :
  0 ≤ r ≤ 255 → 0 ≤ g ≤ 255 → 0 ≤ b ≤ 255 →
  decodePixel (JSNumber.of_Z r) (JSNumber.of_Z g) (JSNumber.of_Z b)
  = JSNumber.fround
      (JSNumber.add (JSNumber.of_Z (-10000))
         (JSNumber.mul (JSNumber.of_Z (r * 65536 + g * 256 + b)) JSNumber.lit_0_1)).
Proof.
  intros Hr Hg Hb. unfold decodePixel.
  assert (2 ^ 53 = 9007199254740992) as Hpow by reflexivity.
  rewrite !of_Z_mul by nia.
  rewrite !of_Z_add by nia.
  do 5 f_equal. lia.
Qed.

Lemma decodeBitmap_sample (bm : ImageBitmap) (i : nat) :
  (i < ib_width bm * ib_height bm)%nat →
  TerrainHeightLoaderBitmap.data (decodeBitmap bm) !! i
  = Some (decodeSample (ib_data bm) i).
Proof.
  intros Hi. unfold decodeBitmap. simpl.
  rewrite list_lookup_fmap, lookup_seq_lt by done. reflexivity.
Qed.

(** C5: for a pixel whose channels are the bytes R, G, B, the sample that
    [decodeBitmap] stores is the float32 rounding of [-10000 + P * 0.1],
    computed in binary64, where [P = R*65536 + G*256 + B] is the exact
    packed integer; the pixel (0, 39, 16) decodes to -9000 exactly, that
    is to the float32 with mantissa 9216000 = 9000 * 2^10 and
    exponent -10. *)
Theorem decode_transform :
  (∀ (bm : ImageBitmap) (i : nat) (r g b : Z),
     (i < ib_width bm * ib_height bm)%nat →
     ib_data bm !! (i * 4)%nat = Some r →
     ib_data bm !! (i * 4 + 1)%nat = Some g →
     ib_data bm !! (i * 4 + 2)%nat = Some b →
     0 ≤ r ≤ 255 → 0 ≤ g ≤ 255 → 0 ≤ b ≤ 255 →
     TerrainHeightLoaderBitmap.data (decodeBitmap bm) !! i
     = Some (JSNumber.fround
               (JSNumber.add (JSNumber.of_Z (-10000))
                  (JSNumber.mul (JSNumber.of_Z (r * 65536 + g * 256 + b))
                                JSNumber.lit_0_1))))
  ∧ decodePixel (JSNumber.of_Z 0) (JSNumber.of_Z 39) (JSNumber.of_Z 16)
    = JSNumber.fround (JSNumber.of_Z (-9000))
  ∧ decodePixel (JSNumber.of_Z 0) (JSNumber.of_Z 39) (JSNumber.of_Z 16)
    = S754_finite true 9216000 (-10)
  ∧ 9216000 = 9000 * 2 ^ 10.
Proof.
  split; [|by vm_compute].
  intros bm i r g b Hi Hr Hg Hb Hr255 Hg255 Hb255.
  rewrite decodeBitmap_sample by done.
  unfold decodeSample. rewrite Hr, Hg, Hb. simpl JSNumber.of_element.
  f_equal. by apply decodePixel_packed.
Qed.

Lemma decode_transform_witness :
  let bm := {| ib_width := 1; ib_height := 1; ib_data := [0; 39; 16; 255] |} in
  TerrainHeightLoaderBitmap.data (decodeBitmap bm) !! 0%nat
  = Some (S754_finite true 9216000 (-10)).
Proof.
  intros bm.
  rewrite (proj1 decode_transform bm 0%nat 0 39 16);
    [by vm_compute | simpl; lia | reflexivity | reflexivity | reflexivity
    | lia | lia | lia].
Defined.

(** ** Operations that only touch the tiles *)

Lemma RequestsInv_ext (w w' : Loader) :
  activeRequests w' = activeRequests w →
  queue w' = queue w →
  requestStore w' = requestStore w →
  promiseStore w' = promiseStore w →
  network w' = network w →
  pipelines w' = pipelines w →
  RequestsInv w → RequestsInv w'.
Proof.
  destruct w, w'; simpl; intros; subst.
  destruct H5; constructor; assumption.
Qed.

Lemma TilesInv_ext (w w' : Loader) :
  tiles w' = tiles w →
  length (tileStore w') = length (tileStore w) →
  TilesInv w → TilesInv w'.
Proof. unfold TilesInv. intros -> ->. done. Qed.

Lemma on_tile_Inv (f : HeightLoaderTile.t → HeightLoaderTile.t) (tile : TileRef) (w : Loader) :
  Inv w → Inv (on_tile f tile w).
Proof.
  intros [HR HT]. split.
  - by eapply RequestsInv_ext; [..|exact HR].
  - eapply TilesInv_ext; [..|exact HT]; [done|]. simpl. apply length_alter.
Qed.

Lemma addBitmap_requests (bm : TerrainHeightLoaderBitmap.t) (x y zoom : Z) (level : nat) (w : Loader) :
  activeRequests (addBitmap bm x y zoom level w) = activeRequests w
  ∧ queue (addBitmap bm x y zoom level w) = queue w
  ∧ requestStore (addBitmap bm x y zoom level w) = requestStore w
  ∧ promiseStore (addBitmap bm x y zoom level w) = promiseStore w
  ∧ network (addBitmap bm x y zoom level w) = network w
  ∧ pipelines (addBitmap bm x y zoom level w) = pipelines w
  ∧ uncaught (addBitmap bm x y zoom level w) = uncaught w.
Proof. unfold addBitmap. by destruct (getTile x y zoom w). Qed.

Lemma addBitmap_TilesInv (bm : TerrainHeightLoaderBitmap.t) (x y zoom : Z) (level : nat) (w : Loader) :
  TilesInv w → TilesInv (addBitmap bm x y zoom level w).
Proof.
  intros HT. unfold addBitmap.
  destruct (getTile x y zoom w) as [tile|] eqn:Hget; simpl.
  - intros key t Hk. simpl in *. rewrite length_alter. by eapply HT.
  - intros key t. simpl. rewrite length_alter, length_app. simpl.
    rewrite lookup_insert. case_decide; intros Hk; simplify_eq; [lia|].
    apply HT in Hk. lia.
Qed.

Lemma addBitmap_Inv (bm : TerrainHeightLoaderBitmap.t) (x y zoom : Z) (level : nat) (w : Loader) :
  Inv w → Inv (addBitmap bm x y zoom level w).
Proof.
  intros [HR HT]. split; [|by apply addBitmap_TilesInv].
  pose proof (addBitmap_requests bm x y zoom level w) as (?&?&?&?&?&?&?).
  by eapply RequestsInv_ext; [..|exact HR].
Qed.

Lemma load_downscale_requests (decoded : TerrainHeightLoaderBitmap.t) (x y zoom : Z)
    (count i : nat) (w : Loader) :
  let w' := load_downscale decoded x y zoom i count w in
  activeRequests w' = activeRequests w
  ∧ queue w' = queue w
  ∧ requestStore w' = requestStore w
  ∧ promiseStore w' = promiseStore w
  ∧ network w' = network w
  ∧ pipelines w' = pipelines w
  ∧ uncaught w' = uncaught w.
Proof.
  revert i w. induction count as [|count IH]; intros i w; simpl; [done|].
  destruct (IH (S i) (addBitmap (TerrainHeightLoaderBitmap.downscale decoded)
                        (floor_div_pow2 x i) (floor_div_pow2 y i) zoom (i + 1) w))
    as (->&->&->&->&->&->&->).
  apply addBitmap_requests.
Qed.

Lemma load_downscale_TilesInv (decoded : TerrainHeightLoaderBitmap.t) (x y zoom : Z)
    (count i : nat) (w : Loader) :
  TilesInv w → TilesInv (load_downscale decoded x y zoom i count w).
Proof.
  revert i w. induction count as [|count IH]; intros i w HT; simpl; [done|].
  by apply IH, addBitmap_TilesInv.
Qed.

Lemma load_finish_requests (x y zoom : Z) (n : nat) (res : FetchResult) (w w' : Loader) :
  load_finish x y zoom n res w = Some w' →
  activeRequests w' = activeRequests w
  ∧ queue w' = queue w
  ∧ requestStore w' = requestStore w
  ∧ promiseStore w' = promiseStore w
  ∧ network w' = network w
  ∧ pipelines w' = pipelines w
  ∧ uncaught w' = uncaught w.
Proof.
  unfold load_finish. intros H.
  destruct res as [|status [bm|]]; [done|..];
    destruct (negb (status =? 200)); simplify_eq; try done.
  destruct (load_downscale_requests (decodeBitmap bm) x y zoom n 0
              (addBitmap (decodeBitmap bm) x y zoom 0 w)) as (->&->&->&->&->&->&->).
  apply addBitmap_requests.
Qed.

Lemma load_finish_Inv (x y zoom : Z) (n : nat) (res : FetchResult) (w w' : Loader) :
  load_finish x y zoom n res w = Some w' → Inv w → Inv w'.
Proof.
  intros H [HR HT]. split.
  - destruct (load_finish_requests _ _ _ _ _ _ _ H) as (?&?&?&?&?&?&?).
    by eapply RequestsInv_ext; [..|exact HR].
  - unfold load_finish in H.
    destruct res as [|status [bm|]]; [done|..];
      destruct (negb (status =? 200)); simplify_eq; try done.
    by apply load_downscale_TilesInv, addBitmap_TilesInv.
Qed.

(** A status other than 200 leaves the loader as it was. *)
Lemma load_finish_failure (x y zoom : Z) (n : nat) (status : Z) (image : option ImageBitmap) (w : Loader) :
  status ≠ 200 → load_finish x y zoom n (FetchResponse status image) w = Some w.
Proof.
  intros Hs. unfold load_finish.
  destruct (Z.eqb_spec status 200); [done|reflexivity].
Qed.

(** ** The eviction pass *)

Lemma tile_isUsed_on_tile_delete (t tile : TileRef) (w : Loader) :
  tile_isUsed t (on_tile HeightLoaderTile.delete tile w) = tile_isUsed t w.
Proof.
  unfold tile_isUsed, on_tile. simpl.
  destruct (decide (tile = t)) as [->|Hne].
  - rewrite list_lookup_alter_eq. by destruct (tileStore w !! t).
  - by rewrite list_lookup_alter_ne.
Qed.

Lemma removeUnusedTiles_body_isUsed (entry : string * TileRef) (t : TileRef) (w : Loader) :
  tile_isUsed t (removeUnusedTiles_body entry w) = tile_isUsed t w.
Proof.
  unfold removeUnusedTiles_body.
  destruct (tile_isUsed entry.2 w); [done|].
  apply (tile_isUsed_on_tile_delete t entry.2 w).
Qed.

Lemma removeUnusedTiles_body_tiles (entry : string * TileRef) (w : Loader) :
  tiles (removeUnusedTiles_body entry w)
  = if tile_isUsed entry.2 w then tiles w else delete entry.1 (tiles w).
Proof. unfold removeUnusedTiles_body. by destruct (tile_isUsed entry.2 w). Qed.

Lemma removeUnusedTiles_body_requests (entry : string * TileRef) (w : Loader) :
  let w' := removeUnusedTiles_body entry w in
  activeRequests w' = activeRequests w
  ∧ queue w' = queue w
  ∧ requestStore w' = requestStore w
  ∧ promiseStore w' = promiseStore w
  ∧ network w' = network w
  ∧ pipelines w' = pipelines w
  ∧ uncaught w' = uncaught w
  ∧ length (tileStore w') = length (tileStore w).
Proof.
  unfold removeUnusedTiles_body. destruct (tile_isUsed entry.2 w); simpl; [done|].
  by rewrite length_alter.
Qed.

Lemma removeUnusedTiles_loop_requests (entries : list (string * TileRef)) (w : Loader) :
  let w' := foldl (λ acc entry, removeUnusedTiles_body entry acc) w entries in
  activeRequests w' = activeRequests w
  ∧ queue w' = queue w
  ∧ requestStore w' = requestStore w
  ∧ promiseStore w' = promiseStore w
  ∧ network w' = network w
  ∧ pipelines w' = pipelines w
  ∧ uncaught w' = uncaught w
  ∧ length (tileStore w') = length (tileStore w).
Proof.
  revert w. induction entries as [|entry entries IH]; intros w; simpl; [done|].
  destruct (IH (removeUnusedTiles_body entry w)) as (->&->&->&->&->&->&->&->).
  apply removeUnusedTiles_body_requests.
Qed.

(** What the loop leaves under a key: nothing if it met the key with an
    unused tile, the old entry if every tile it met under the key was in
    use. *)
Lemma removeUnusedTiles_loop_lookup (w0 : Loader) (entries : list (string * TileRef))
    (w : Loader) (key : string) :
  (∀ t, tile_isUsed t w = tile_isUsed t w0) →
  let w' := foldl (λ acc entry, removeUnusedTiles_body entry acc) w entries in
  (∀ t, tile_isUsed t w' = tile_isUsed t w0)
  ∧ ((∃ t, (key, t) ∈ entries ∧ tile_isUsed t w0 = false) → tiles w' !! key = None)
  ∧ ((∀ t, (key, t) ∈ entries → tile_isUsed t w0 = true) →
     tiles w' !! key = tiles w !! key)
  ∧ (tiles w !! key = None → tiles w' !! key = None).
Proof.
  revert w. induction entries as [|[k t] entries IH]; intros w Hused; simpl.
  { split; [done|]. split; [|done]. intros (t & Hin & _). by apply elem_of_nil in Hin. }
  assert (∀ t', tile_isUsed t' (removeUnusedTiles_body (k, t) w) = tile_isUsed t' w0)
    as Hused'.
  { intros t'. by rewrite removeUnusedTiles_body_isUsed. }
  destruct (IH _ Hused') as (IH1 & IH2 & IH3 & IH4).
  assert (tiles w !! key = None → tiles (removeUnusedTiles_body (k, t) w) !! key = None)
    as Hnone.
  { intros Hk. rewrite removeUnusedTiles_body_tiles. simpl.
    destruct (tile_isUsed t w); [done|].
    rewrite lookup_delete. by case_decide. }
  split; [done|]. split; [|split].
  - intros (t' & Hin & Hun). apply elem_of_cons in Hin as [Heq|Hin].
    + simplify_eq. apply IH4.
      rewrite removeUnusedTiles_body_tiles. simpl.
      rewrite Hused, Hun. apply lookup_delete_eq.
    + apply IH2. eauto.
  - intros Hall. rewrite IH3.
    + rewrite removeUnusedTiles_body_tiles. simpl.
      destruct (tile_isUsed t w) eqn:Ht; [done|].
      rewrite lookup_delete. case_decide as Hk; [|done]. subst k.
      rewrite Hused, Hall in Ht; [done|]. apply elem_of_cons. by left.
    + intros t' Hin. apply Hall, elem_of_cons. by right.
  - intros Hk. by apply IH4, Hnone.
Qed.

(** After the eviction pass the cache holds the tiles that were in use
    when it started, and no other. *)
Lemma removeUnusedTiles_tiles (w : Loader) :
  tiles (removeUnusedTiles w)
  = filter (λ entry, tile_isUsed entry.2 w = true) (tiles w).
Proof.
  apply map_eq. intros key. unfold removeUnusedTiles.
  destruct (removeUnusedTiles_loop_lookup w (map_to_list (tiles w)) w key)
    as (_ & Hgone & Hkept & Hnone); [done|].
  destruct (tiles w !! key) as [t|] eqn:Hk.
  - destruct (tile_isUsed t w) eqn:Ht.
    + rewrite Hkept.
      * symmetry. by apply map_lookup_filter_Some.
      * intros t' Hin. apply elem_of_map_to_list in Hin. by simplify_eq.
    + rewrite Hgone.
      * symmetry. apply map_lookup_filter_None. right. intros t' Hk' Ht'.
        simpl in Ht'. congruence.
      * exists t. split; [|done]. by apply elem_of_map_to_list.
  - rewrite Hnone by done. symmetry. apply map_lookup_filter_None. by left.
Qed.

Lemma removeUnusedTiles_requests (w : Loader) :
  let w' := removeUnusedTiles w in
  activeRequests w' = activeRequests w
  ∧ queue w' = queue w
  ∧ requestStore w' = requestStore w
  ∧ promiseStore w' = promiseStore w
  ∧ network w' = network w
  ∧ pipelines w' = pipelines w
  ∧ uncaught w' = uncaught w
  ∧ length (tileStore w') = length (tileStore w).
Proof. apply removeUnusedTiles_loop_requests. Qed.

Lemma removeUnusedTiles_Inv (w : Loader) : Inv w → Inv (removeUnusedTiles w).
Proof.
  intros [HR HT].
  destruct (removeUnusedTiles_requests w) as (?&?&?&?&?&?&?&Hlen).
  split.
  - by eapply RequestsInv_ext; [..|exact HR].
  - intros key t. rewrite removeUnusedTiles_tiles, Hlen.
    intros [Hk _]%map_lookup_filter_Some. by eapply HT.
Qed.

(** ** The admission pass *)

Lemma live_requests_valid_lookup (w : Loader) (r : ReqRef) :
  RequestsInv w → r ∈ live_requests w → is_Some (requestStore w !! r).
Proof. intros HR Hr. apply lookup_lt_is_Some. by apply (inv_valid w HR). Qed.

Lemma NoDup_live_requests (w : Loader) : RequestsInv w → NoDup (live_requests w).
Proof. intros HR. eapply NoDup_fmap_1, (inv_coords w HR). Qed.

Lemma NoDup_queueInProgress (w : Loader) :
  RequestsInv w → NoDup (RequestQueue.queueInProgress (queue w)).
Proof.
  intros HR. apply NoDup_live_requests in HR.
  unfold live_requests in HR. by apply NoDup_app in HR as (_ & _ & ?).
Qed.

Lemma size_activeRequests (w : Loader) :
  RequestsInv w →
  size (activeRequests w) = length (RequestQueue.queueInProgress (queue w)).
Proof.
  intros HR. rewrite (inv_active w HR).
  apply size_list_to_set, NoDup_queueInProgress, HR.
Qed.

(** One turn of the admission loop, spelled out. *)
Lemma processQueue_body_Some (w w1 : Loader) :
  RequestsInv w →
  processQueue_body w = Some w1 →
  ∃ task rest req,
    RequestQueue.queue (queue w) = task :: rest
    ∧ requestStore w !! task = Some req
    ∧ (size (activeRequests w) < maxConcurrentRequests)%nat
    ∧ w1 = {| tiles := tiles w;
              activeRequests := {[task]} ∪ activeRequests w;
              queue := {| RequestQueue.queue := rest;
                          RequestQueue.queueInProgress :=
                            RequestQueue.queueInProgress (queue w) ++ [task] |};
              tileStore := tileStore w;
              requestStore := requestStore w;
              promiseStore := promiseStore w;
              network := network w ++ [coord_of req];
              pipelines := {[task]} ∪ pipelines w;
              uncaught := uncaught w |}.
Proof.
  intros HR. unfold processQueue_body, RequestQueue.get, RequestQueue.size.
  case_bool_decide as Hsize; [|done].
  case_bool_decide as Hcap; [|done]. simpl.
  destruct (RequestQueue.queue (queue w)) as [|task rest] eqn:Hq; [done|].
  simpl.
  destruct (live_requests_valid_lookup w task HR) as [req Hreq].
  { unfold live_requests. rewrite Hq. set_solver. }
  rewrite Hreq. intros [= <-]. by exists task, rest, req.
Qed.

Lemma processQueue_body_RequestsInv (w w1 : Loader) :
  RequestsInv w → processQueue_body w = Some w1 → RequestsInv w1.
Proof.
  intros HR Hbody.
  destruct (processQueue_body_Some w w1 HR Hbody)
    as (task & rest & req & Hq & Hreq & Hcap & ->).
  assert (live_requests w
          ≡ₚ rest ++ RequestQueue.queueInProgress (queue w) ++ [task]) as Hperm.
  { unfold live_requests. rewrite Hq. simpl.
    rewrite (assoc_L (++)). by rewrite <-Permutation_cons_append. }
  constructor; unfold live_requests, request_coord; simpl.
  - intros r Hr. apply (inv_valid w HR). by rewrite Hperm.
  - rewrite <-Hperm. apply (inv_coords w HR).
  - rewrite list_to_set_app_L, (inv_active w HR). set_solver.
  - pose proof (inv_pipelines w HR). set_solver.
  - rewrite length_app. simpl. rewrite <-(size_activeRequests w HR). lia.
  - apply (inv_items w HR).
  - destruct (inv_fifo w HR) as (k & Hk & Hqueue & Hnet).
    rewrite Hq in Hqueue.
    destruct (length (requestStore w) - k)%nat as [|m] eqn:Hm; [done|].
    simpl in Hqueue. injection Hqueue as -> ->.
    exists (S k). split; [lia|]. split.
    + f_equal. lia.
    + rewrite (take_S_r _ _ req) by done.
      rewrite fmap_app, Hnet. reflexivity.
  - apply (inv_promise_valid w HR).
  - apply (inv_promise_owner w HR).
  - intros r req' item Hr. apply (inv_pending w HR). by rewrite Hperm.
Qed.

Lemma processQueue_body_frame (w w1 : Loader) :
  processQueue_body w = Some w1 →
  tiles w1 = tiles w ∧ tileStore w1 = tileStore w
  ∧ requestStore w1 = requestStore w ∧ promiseStore w1 = promiseStore w
  ∧ uncaught w1 = uncaught w.
Proof.
  unfold processQueue_body.
  destruct (_ && _); [|done].
  destruct (RequestQueue.get (queue w)) as [[task|] q]; [|done]. simpl.
  destruct (requestStore w !! task); by intros [= <-].
Qed.

Lemma processQueue_loop_frame (turns : nat) (w : Loader) :
  let w' := processQueue_loop turns w in
  tiles w' = tiles w ∧ tileStore w' = tileStore w
  ∧ requestStore w' = requestStore w ∧ promiseStore w' = promiseStore w
  ∧ uncaught w' = uncaught w.
Proof.
  revert w. induction turns as [|turns IH]; intros w; simpl; [done|].
  destruct (processQueue_body w) as [w1|] eqn:Hbody; [|done].
  destruct (IH w1) as (->&->&->&->&->).
  by apply processQueue_body_frame.
Qed.

Lemma processQueue_loop_Inv (turns : nat) (w : Loader) :
  Inv w → Inv (processQueue_loop turns w).
Proof.
  revert w. induction turns as [|turns IH]; intros w HI; simpl; [done|].
  destruct (processQueue_body w) as [w1|] eqn:Hbody; [|done].
  apply IH. destruct HI as [HR HT]. split.
  - by eapply processQueue_body_RequestsInv.
  - destruct (processQueue_body_frame w w1 Hbody) as (Ht & Hs & _).
    eapply TilesInv_ext; [..|exact HT]; congruence.
Qed.

Lemma update_Inv (w : Loader) : Inv w → Inv (update w).
Proof. intros HI. by apply processQueue_loop_Inv, removeUnusedTiles_Inv. Qed.

(** The loop of [processQueue] stops because its condition fails, not
    because the bound on its turns is reached. *)
Lemma processQueue_exhausts (w : Loader) :
  RequestsInv w → processQueue_body (processQueue w) = None.
Proof.
  unfold processQueue, RequestQueue.size.
  generalize (eq_refl (length (RequestQueue.queue (queue w)))).
  generalize (length (RequestQueue.queue (queue w))) at 1 3 as turns.
  intros turns. revert w. induction turns as [|turns IH]; intros w Hlen HR; simpl.
  - unfold processQueue_body, RequestQueue.size. rewrite <-Hlen.
    by case_bool_decide; [lia|].
  - destruct (processQueue_body w) as [w1|] eqn:Hbody; [|done].
    apply IH; [|by eapply processQueue_body_RequestsInv].
    destruct (processQueue_body_Some w w1 HR Hbody)
      as (task & rest & req & Hq & _ & _ & ->).
    simpl. rewrite Hq in Hlen. simpl in Hlen. lia.
Qed.

(** ** Looking a request up by coordinate *)

Lemma request_matches_true (x y zoom : Z) (req : Request) :
  request_matches x y zoom req = true ↔ coord_of req = (x, y, zoom).
Proof.
  unfold request_matches, coord_of.
  rewrite !andb_true_iff, !Z.eqb_eq. split.
  - by intros [[-> ->] ->].
  - by intros [= -> -> ->].
Qed.

Lemma find_in_Some (store : list Request) (x y zoom : Z) (l : list ReqRef) (r : ReqRef) :
  RequestQueue.find_in store x y zoom l = Some r →
  r ∈ l ∧ ∃ req, store !! r = Some req ∧ coord_of req = (x, y, zoom).
Proof.
  unfold RequestQueue.find_in. intros [Hin Hm]%find_some.
  split; [by apply list_elem_of_In|].
  destruct (store !! r) as [req|]; [|done].
  exists req. split; [done|]. by apply request_matches_true.
Qed.

Lemma find_in_None (store : list Request) (x y zoom : Z) (l : list ReqRef) (r : ReqRef) (req : Request) :
  RequestQueue.find_in store x y zoom l = None →
  r ∈ l → store !! r = Some req → coord_of req ≠ (x, y, zoom).
Proof.
  unfold RequestQueue.find_in. intros Hnone Hin Hreq Hc.
  apply list_elem_of_In in Hin.
  pose proof (find_none _ _ Hnone r Hin) as Hm. simpl in Hm.
  rewrite Hreq in Hm. apply request_matches_true in Hc. congruence.
Qed.

Lemma find_Some (w : Loader) (x y zoom : Z) (r : ReqRef) :
  RequestQueue.find (requestStore w) x y zoom (queue w) = Some r →
  r ∈ live_requests w
  ∧ ∃ req, requestStore w !! r = Some req ∧ coord_of req = (x, y, zoom).
Proof.
  unfold RequestQueue.find, live_requests.
  destruct (RequestQueue.find_in _ x y zoom (RequestQueue.queue _)) as [r'|] eqn:Hq.
  - intros [= ->]. apply find_in_Some in Hq as [Hin Hreq].
    split; [|done]. apply elem_of_app. by left.
  - intros [Hin Hreq]%find_in_Some. split; [|done]. apply elem_of_app. by right.
Qed.

Lemma find_None (w : Loader) (x y zoom : Z) :
  RequestQueue.find (requestStore w) x y zoom (queue w) = None →
  Some (x, y, zoom) ∉ request_coord w <$> live_requests w.
Proof.
  unfold RequestQueue.find, live_requests.
  destruct (RequestQueue.find_in _ x y zoom (RequestQueue.queue _)) eqn:Hq; [done|].
  intros Hp (r & Hc & Hin)%list_elem_of_fmap.
  unfold request_coord in Hc.
  destruct (requestStore w !! r) as [req|] eqn:Hreq; [|done].
  simpl in Hc. apply (inj Some) in Hc. symmetry in Hc.
  apply elem_of_app in Hin as [Hin|Hin].
  - by eapply (find_in_None _ x y zoom _ r req Hq).
  - by eapply (find_in_None _ x y zoom _ r req Hp).
Qed.

(** A request that exists for the coordinate is the one [find] returns. *)
Lemma find_live (w : Loader) (r : ReqRef) (req : Request) :
  RequestsInv w → r ∈ live_requests w → requestStore w !! r = Some req →
  RequestQueue.find (requestStore w) (req_x req) (req_y req) (req_zoom req) (queue w)
  = Some r.
Proof.
  intros HR Hin Hreq.
  destruct (RequestQueue.find _ _ _ _ _) as [r'|] eqn:Hfind.
  - apply find_Some in Hfind as (Hin' & req' & Hreq' & Hc).
    f_equal.
    apply list_elem_of_lookup in Hin as [i Hi].
    apply list_elem_of_lookup in Hin' as [j Hj].
    assert (i = j) as <-; [|congruence].
    eapply (NoDup_lookup _ i j); [apply (inv_coords w HR)|..].
    + rewrite list_lookup_fmap, Hi. simpl. unfold request_coord. by rewrite Hreq.
    + rewrite list_lookup_fmap, Hj. simpl. unfold request_coord.
      rewrite Hreq'. simpl. by rewrite Hc.
  - apply find_None in Hfind. exfalso. apply Hfind.
    apply list_elem_of_fmap. exists r. split; [|done].
    unfold request_coord. by rewrite Hreq.
Qed.

(** ** getOrLoadTile *)

Lemma getOrLoadTile_hit (x y zoom : Z) (owner : AnyObject) (w : Loader) (tile : TileRef) :
  getTile x y zoom w = Some tile →
  getOrLoadTile x y zoom owner w
  = (length (promiseStore w),
     set_promiseStore (λ s, s ++ [Fulfilled tile]) (tracker_use tile owner w)).
Proof. intros H. unfold getOrLoadTile. by rewrite H. Qed.

Lemma getOrLoadTile_coalesce (x y zoom : Z) (owner : AnyObject) (w : Loader) (r : ReqRef) :
  getTile x y zoom w = None →
  RequestQueue.find (requestStore w) x y zoom (queue w) = Some r →
  getOrLoadTile x y zoom owner w
  = (length (promiseStore w),
     set_requestStore
       (alter (push_waiting (new_item x y zoom owner (length (promiseStore w)))) r)
       (set_promiseStore (λ s, s ++ [Pending]) w)).
Proof. intros H Hf. unfold getOrLoadTile. rewrite H. simpl. by rewrite Hf. Qed.

Lemma getOrLoadTile_new (x y zoom : Z) (owner : AnyObject) (w : Loader) :
  getTile x y zoom w = None →
  RequestQueue.find (requestStore w) x y zoom (queue w) = None →
  getOrLoadTile x y zoom owner w
  = (length (promiseStore w),
     set_queue (RequestQueue.add (length (requestStore w)))
       (set_requestStore
          (λ s, s ++ [ {| req_x := x; req_y := y; req_zoom := zoom;
                          waitingList :=
                            [new_item x y zoom owner (length (promiseStore w))] |} ])
          (set_promiseStore (λ s, s ++ [Pending]) w))).
Proof. intros H Hf. unfold getOrLoadTile. rewrite H. simpl. by rewrite Hf. Qed.

Lemma coord_of_alter_push (item : WaitingListItem) (r : ReqRef) (store : list Request) :
  coord_of <$> alter (push_waiting item) r store = coord_of <$> store.
Proof.
  apply list_eq. intros i. rewrite !list_lookup_fmap.
  destruct (decide (r = i)) as [->|Hne].
  - rewrite list_lookup_alter_eq. by destruct (store !! i).
  - by rewrite list_lookup_alter_ne.
Qed.

Lemma lookup_alter_push_coord (item : WaitingListItem) (r r' : ReqRef) (store : list Request) :
  coord_of <$> alter (push_waiting item) r store !! r' = coord_of <$> store !! r'.
Proof. by rewrite <-!list_lookup_fmap, coord_of_alter_push. Qed.

(** The items of a store to which one waiting item was added, under [r]. *)
Lemma alter_push_items (it : WaitingListItem) (r : ReqRef) (store : list Request)
    (r' : ReqRef) (req' : Request) (item : WaitingListItem) :
  alter (push_waiting it) r store !! r' = Some req' → item ∈ waitingList req' →
  (∃ req0, store !! r' = Some req0 ∧ coord_of req0 = coord_of req'
           ∧ (item ∈ waitingList req0 ∨ (r' = r ∧ item = it))).
Proof.
  destruct (decide (r = r')) as [->|Hne].
  - rewrite list_lookup_alter_eq.
    destruct (store !! r') as [req0|]; [|done]. simpl. intros [= <-] Hin.
    exists req0. split; [done|]. split; [done|].
    simpl in Hin. apply elem_of_app in Hin as [Hin|Hin]; [by left|].
    apply list_elem_of_singleton in Hin. by right.
  - rewrite list_lookup_alter_ne by done. intros Hreq Hin.
    exists req'. by eauto.
Qed.

Lemma snoc_items (it : WaitingListItem) (x y zoom : Z) (store : list Request)
    (r' : ReqRef) (req' : Request) (item : WaitingListItem) :
  (store ++ [ {| req_x := x; req_y := y; req_zoom := zoom; waitingList := [it] |} ]) !! r'
  = Some req' →
  item ∈ waitingList req' →
  (store !! r' = Some req' ∧ (r' < length store)%nat)
  ∨ (r' = length store ∧ item = it ∧ coord_of req' = (x, y, zoom)).
Proof.
  intros Hreq Hin. apply lookup_app_Some in Hreq as [Hreq|[Hlen Hreq]].
  - left. split; [done|]. by eapply lookup_lt_Some.
  - right. apply list_lookup_singleton_Some in Hreq as [Hi <-].
    simpl in Hin. apply list_elem_of_singleton in Hin.
    split; [lia|done].
Qed.

Lemma getOrLoadTile_hit_Inv (x y zoom : Z) (owner : AnyObject) (w : Loader) (tile : TileRef) :
  getTile x y zoom w = Some tile → Inv w → Inv (getOrLoadTile x y zoom owner w).2.
Proof.
  intros Hget [HR HT]. rewrite (getOrLoadTile_hit _ _ _ _ _ tile Hget). simpl.
  split.
  - constructor; unfold live_requests, request_coord; simpl;
      try by destruct HR.
    + intros r req item Hreq Hin. rewrite length_app. simpl.
      pose proof (inv_promise_valid w HR r req item Hreq Hin). lia.
    + intros r req item Hr Hreq Hin.
      apply lookup_app_l_Some. by eapply (inv_pending w HR).
  - intros key t Hk. simpl in *. rewrite length_alter. by eapply HT.
Qed.

Lemma getOrLoadTile_coalesce_Inv (x y zoom : Z) (owner : AnyObject) (w : Loader) (r : ReqRef) :
  getTile x y zoom w = None →
  RequestQueue.find (requestStore w) x y zoom (queue w) = Some r →
  Inv w → Inv (getOrLoadTile x y zoom owner w).2.
Proof.
  intros Hget Hfind [HR HT].
  rewrite (getOrLoadTile_coalesce _ _ _ _ _ r Hget Hfind). simpl.
  apply find_Some in Hfind as (Hlive & req & Hreq & Hcoord).
  split; [|done].
  constructor; unfold live_requests, request_coord; simpl;
    try by destruct HR.
  - intros r' Hr'. rewrite length_alter. by apply (inv_valid w HR).
  - erewrite list_fmap_ext; [apply (inv_coords w HR)|].
    intros i r' _. apply lookup_alter_push_coord.
  - intros r' req' item Hreq' Hin.
    destruct (alter_push_items _ _ _ _ _ _ Hreq' Hin)
      as (req0 & Hreq0 & Hc & [Hold|[-> ->]]).
    + rewrite <-Hc. by eapply (inv_items w HR).
    + rewrite <-Hc. simplify_eq. by rewrite Hcoord.
  - destruct (inv_fifo w HR) as (k & Hk & Hqueue & Hnet).
    exists k. rewrite length_alter. split; [done|]. split; [done|].
    by rewrite fmap_take, coord_of_alter_push, <-fmap_take.
  - intros r' req' item Hreq' Hin. rewrite length_app. simpl.
    destruct (alter_push_items _ _ _ _ _ _ Hreq' Hin)
      as (req0 & Hreq0 & Hc & [Hold|[-> ->]]).
    + pose proof (inv_promise_valid w HR r' req0 item Hreq0 Hold). lia.
    + simpl. lia.
  - intros r1 r2 req1 req2 item1 item2 Hreq1 Hreq2 Hin1 Hin2 Hp.
    destruct (alter_push_items _ _ _ _ _ _ Hreq1 Hin1)
      as (req01 & Hreq01 & _ & [Hold1|[-> ->]]);
    destruct (alter_push_items _ _ _ _ _ _ Hreq2 Hin2)
      as (req02 & Hreq02 & _ & [Hold2|[-> ->]]); [| | |done].
    + by eapply (inv_promise_owner w HR r1 r2).
    + pose proof (inv_promise_valid w HR r1 req01 item1 Hreq01 Hold1).
      simpl in Hp. lia.
    + pose proof (inv_promise_valid w HR r2 req02 item2 Hreq02 Hold2).
      simpl in Hp. lia.
  - intros r' req' item Hr' Hreq' Hin.
    destruct (alter_push_items _ _ _ _ _ _ Hreq' Hin)
      as (req0 & Hreq0 & _ & [Hold|[-> ->]]).
    + apply lookup_app_l_Some. by eapply (inv_pending w HR).
    + simpl. by rewrite lookup_app_r, Nat.sub_diag.
Qed.

Lemma getOrLoadTile_new_Inv (x y zoom : Z) (owner : AnyObject) (w : Loader) :
  getTile x y zoom w = None →
  RequestQueue.find (requestStore w) x y zoom (queue w) = None →
  Inv w → Inv (getOrLoadTile x y zoom owner w).2.
Proof.
  intros Hget Hfind [HR HT].
  rewrite (getOrLoadTile_new _ _ _ _ _ Hget Hfind). simpl.
  apply find_None in Hfind.
  set (it := new_item x y zoom owner (length (promiseStore w))).
  set (n := length (requestStore w)).
  assert ((RequestQueue.queue (queue w) ++ [n])
            ++ RequestQueue.queueInProgress (queue w)
          ≡ₚ n :: live_requests w) as Hperm.
  { unfold live_requests. rewrite <-(assoc_L (++)). simpl.
    by rewrite <-Permutation_middle. }
  assert (∀ r, r ∈ live_requests w →
            coord_of <$> (requestStore w ++ [ {| req_x := x; req_y := y;
               req_zoom := zoom; waitingList := [it] |} ]) !! r
            = request_coord w r) as Hcoord.
  { intros r Hr. unfold request_coord.
    by rewrite lookup_app_l by by apply (inv_valid w HR). }
  split; [|done].
  constructor; unfold live_requests, request_coord; simpl;
    try by destruct HR.
  - intros r Hr. rewrite Hperm in Hr. rewrite length_app. simpl.
    apply elem_of_cons in Hr as [->|Hr]; [fold n; lia|].
    apply (inv_valid w HR) in Hr. lia.
  - rewrite Hperm. rewrite fmap_cons. apply NoDup_cons. split.
    + rewrite lookup_app_r by (fold n; lia). fold n. rewrite Nat.sub_diag. simpl.
      intros Hin. apply Hfind.
      apply list_elem_of_fmap in Hin as (r & Hc & Hr).
      apply list_elem_of_fmap. exists r. split; [|done].
      by rewrite <-Hcoord.
    + erewrite list_fmap_ext; [apply (inv_coords w HR)|].
      intros i r Hi. apply Hcoord. by eapply list_elem_of_lookup_2.
  - intros r' req' item Hreq' Hin.
    destruct (snoc_items _ _ _ _ _ _ _ _ Hreq' Hin) as [[Hold _]|(-> & -> & Hc)].
    + by eapply (inv_items w HR).
    + by rewrite Hc.
  - destruct (inv_fifo w HR) as (k & Hk & Hqueue & Hnet).
    exists k. rewrite length_app. simpl. fold n in Hk, Hqueue |- *.
    split; [lia|]. split.
    + replace (n + 1 - k)%nat with (S (n - k)) by lia.
      rewrite seq_S, Hqueue. do 2 f_equal. lia.
    + by rewrite take_app_le.
  - intros r' req' item Hreq' Hin. rewrite length_app. simpl.
    destruct (snoc_items _ _ _ _ _ _ _ _ Hreq' Hin) as [[Hold _]|(-> & -> & Hc)].
    + pose proof (inv_promise_valid w HR r' req' item Hold Hin). lia.
    + simpl. lia.
  - intros r1 r2 req1 req2 item1 item2 Hreq1 Hreq2 Hin1 Hin2 Hp.
    destruct (snoc_items _ _ _ _ _ _ _ _ Hreq1 Hin1) as [[Hold1 _]|(-> & -> & _)];
    destruct (snoc_items _ _ _ _ _ _ _ _ Hreq2 Hin2) as [[Hold2 _]|(-> & -> & _)];
      [| | |done].
    + by eapply (inv_promise_owner w HR r1 r2).
    + pose proof (inv_promise_valid w HR r1 req1 item1 Hold1 Hin1).
      simpl in Hp. lia.
    + pose proof (inv_promise_valid w HR r2 req2 item2 Hold2 Hin2).
      simpl in Hp. lia.
  - intros r' req' item Hr' Hreq' Hin. rewrite Hperm in Hr'.
    destruct (snoc_items _ _ _ _ _ _ _ _ Hreq' Hin) as [[Hold Hlt]|(-> & -> & _)].
    + apply lookup_app_l_Some. apply elem_of_cons in Hr' as [->|Hr'].
      * fold n in Hlt. lia.
      * by eapply (inv_pending w HR).
    + simpl. by rewrite lookup_app_r, Nat.sub_diag.
Qed.

Lemma getOrLoadTile_Inv (x y zoom : Z) (owner : AnyObject) (w : Loader) :
  Inv w → Inv (getOrLoadTile x y zoom owner w).2.
Proof.
  intros HI.
  destruct (getTile x y zoom w) as [tile|] eqn:Hget.
  - by eapply getOrLoadTile_hit_Inv.
  - destruct (RequestQueue.find (requestStore w) x y zoom (queue w)) as [r|] eqn:Hfind.
    + by eapply getOrLoadTile_coalesce_Inv.
    + by apply getOrLoadTile_new_Inv.
Qed.

(** ** Completion of a pipeline *)

Lemma remove_first_sublist (r : ReqRef) (l : list ReqRef) :
  RequestQueue.remove_first r l `sublist_of` l.
Proof.
  induction l as [|r' l IH]; simpl; [done|].
  case_decide; [by apply sublist_cons|by apply sublist_skip].
Qed.

Lemma elem_of_remove_first (r r' : ReqRef) (l : list ReqRef) :
  NoDup l → r' ∈ RequestQueue.remove_first r l ↔ r' ∈ l ∧ r' ≠ r.
Proof.
  induction l as [|a l IH]; simpl; intros Hnd.
  { split; [by intros ?%elem_of_nil|by intros [?%elem_of_nil _]]. }
  apply NoDup_cons in Hnd as [Ha Hnd]. case_decide as Heq.
  - subst a. rewrite elem_of_cons. split.
    + intros Hin. split; [by right|]. by intros ->.
    + by intros [[->|Hin] Hne].
  - rewrite !elem_of_cons, IH by done. split.
    + intros [->|[Hin Hne]]; [by split; [left|]|by split; [right|]].
    + intros [[->|Hin] Hne]; [by left|by right].
Qed.

Lemma fulfil_frame (p : PromiseRef) (tile : TileRef) (w : Loader) :
  let w' := fulfil p tile w in
  tiles w' = tiles w ∧ activeRequests w' = activeRequests w
  ∧ queue w' = queue w ∧ tileStore w' = tileStore w
  ∧ requestStore w' = requestStore w ∧ network w' = network w
  ∧ pipelines w' = pipelines w ∧ uncaught w' = uncaught w
  ∧ length (promiseStore w') = length (promiseStore w)
  ∧ (∀ q, q ≠ p → promiseStore w' !! q = promiseStore w !! q).
Proof.
  unfold fulfil. destruct (promiseStore w !! p) as [[|t]|]; simpl; try done.
  rewrite length_insert. repeat split; try done.
  intros q Hq. by rewrite list_lookup_insert_ne.
Qed.

Lemma waiting_resolve_frame (item : WaitingListItem) (w : Loader) :
  let w' := completion_state (waiting_resolve item w) in
  tiles w' = tiles w ∧ activeRequests w' = activeRequests w
  ∧ queue w' = queue w ∧ length (tileStore w') = length (tileStore w)
  ∧ requestStore w' = requestStore w ∧ network w' = network w
  ∧ pipelines w' = pipelines w ∧ uncaught w' = uncaught w
  ∧ length (promiseStore w') = length (promiseStore w)
  ∧ (∀ q, q ≠ wl_resolve item → promiseStore w' !! q = promiseStore w !! q).
Proof.
  unfold waiting_resolve.
  destruct (getTile _ _ _ w) as [tile|]; simpl; [|done].
  destruct (fulfil_frame (wl_resolve item) tile (tracker_use tile (wl_owner item) w))
    as (->&->&->&->&->&->&->&->&->&Hq).
  simpl. rewrite length_alter. repeat split; try done.
Qed.

Lemma resolve_all_frame (items : list WaitingListItem) (w : Loader) :
  let w' := completion_state (resolve_all items w) in
  tiles w' = tiles w ∧ activeRequests w' = activeRequests w
  ∧ queue w' = queue w ∧ length (tileStore w') = length (tileStore w)
  ∧ requestStore w' = requestStore w ∧ network w' = network w
  ∧ pipelines w' = pipelines w ∧ uncaught w' = uncaught w
  ∧ length (promiseStore w') = length (promiseStore w)
  ∧ (∀ q, (∀ item, item ∈ items → wl_resolve item ≠ q) →
          promiseStore w' !! q = promiseStore w !! q).
Proof.
  revert w. induction items as [|item items IH]; intros w; simpl; [done|].
  pose proof (waiting_resolve_frame item w) as Hone.
  destruct (waiting_resolve item w) as [w1|e w1]; simpl in Hone.
  - destruct (IH w1) as (->&->&->&->&->&->&->&->&->&Hq).
    destruct Hone as (->&->&->&->&->&->&->&->&->&Hq1).
    repeat split; try done.
    intros q Hall. rewrite Hq, Hq1; [done|..].
    + intros ->. eapply Hall; [|done]. by left.
    + intros item' Hin. apply Hall. by right.
  - simpl. destruct Hone as (->&->&->&->&->&->&->&->&->&Hq1).
    repeat split; try done.
    intros q Hall. apply Hq1. intros ->. eapply Hall; [|done]. by left.
Qed.

Lemma then_callback_Inv (task : ReqRef) (w : Loader) :
  task ∉ pipelines w →
  task ∈ RequestQueue.queueInProgress (queue w) →
  Inv w → Inv (completion_state (then_callback task w)).
Proof.
  intros Hpipe Hflight [HR HT]. unfold then_callback.
  set (w2 := set_queue (RequestQueue.remove task)
               (set_activeRequests (λ s, s ∖ {[task]}) w)).
  pose proof (NoDup_live_requests w HR) as Hnd.
  pose proof (NoDup_queueInProgress w HR) as Hndp.
  assert (live_requests w2 `sublist_of` live_requests w) as Hsub.
  { unfold live_requests, w2. simpl.
    apply sublist_app; [done|apply remove_first_sublist]. }
  assert (∀ r, r ∈ live_requests w2 → r ≠ task) as Hne.
  { unfold live_requests, w2. simpl. intros r Hr ->.
    unfold live_requests in Hnd. apply NoDup_app in Hnd as (_ & Hdisj & _).
    apply elem_of_app in Hr as [Hr|Hr].
    - by apply (Hdisj task Hr).
    - by apply elem_of_remove_first in Hr as [_ ?]. }
  pose proof (resolve_all_frame
    (match requestStore w2 !! task with Some req => waitingList req | None => [] end) w2)
    as Hframe.
  assert (completion_state
            match requestStore w2 !! task with
            | Some req => resolve_all (waitingList req) w2
            | None => Normal w2
            end
          = completion_state (resolve_all
              (match requestStore w2 !! task with
               | Some req => waitingList req | None => [] end) w2)) as ->.
  { by destruct (requestStore w2 !! task). }
  destruct Hframe as (Ht & Ha & Hq & Hts & Hrs & Hn & Hp & Hu & Hps & Hpq).
  set (w3 := completion_state _) in *.
  assert (live_requests w3 = live_requests w2) as Hlive.
  { unfold live_requests. by rewrite Hq. }
  split.
  - constructor; rewrite ?Hlive; unfold request_coord; rewrite ?Hrs, ?Hq, ?Hn, ?Ha, ?Hp, ?Hps.
    + intros r Hr. apply (inv_valid w HR). by eapply elem_of_sublist.
    + eapply sublist_NoDup; [apply (inv_coords w HR)|]. by apply fmap_sublist.
    + simpl. rewrite (inv_active w HR). apply set_eq. intros r.
      rewrite elem_of_difference, !elem_of_list_to_set, elem_of_remove_first by done.
      set_solver.
    + simpl. pose proof (inv_pipelines w HR). set_solver.
    + simpl. etrans; [|apply (inv_cap w HR)].
      apply sublist_length, remove_first_sublist.
    + apply (inv_items w HR).
    + apply (inv_fifo w HR).
    + apply (inv_promise_valid w HR).
    + apply (inv_promise_owner w HR).
    + intros r req item Hr Hreq Hin. rewrite Hpq.
      * eapply (inv_pending w HR); [|done..]. by eapply elem_of_sublist.
      * intros item' Hin' Heq. apply (Hne r Hr).
        simpl in *. destruct (requestStore w !! task) as [req'|] eqn:Htask;
          [|by apply elem_of_nil in Hin'].
        by eapply (inv_promise_owner w HR r task req req' item item').
  - intros key t. rewrite Ht, Hts. apply HT.
Qed.

Lemma settle_Inv (task : ReqRef) (res : FetchResult) (w : Loader) :
  Inv w → Inv (settle task res w).
Proof.
  intros [HR HT]. unfold settle. case_bool_decide as Hin; [|done].
  set (w0 := set_pipelines (λ s, s ∖ {[task]}) w).
  assert (Inv w0) as HI0.
  { split; [|done]. constructor; try by destruct HR.
    simpl. pose proof (inv_pipelines w HR). set_solver. }
  destruct (requestStore w0 !! task) as [req|]; [|done].
  destruct (load_finish _ _ _ 1 res w0) as [w1|] eqn:Hload.
  - assert (Inv (completion_state (then_callback task w1))) as HI.
    { destruct (load_finish_requests _ _ _ _ _ _ _ Hload) as (_&Hq&_&_&_&Hp&_).
      apply then_callback_Inv; [| |by eapply load_finish_Inv].
      - rewrite Hp. simpl. set_solver.
      - rewrite Hq. simpl. apply (inv_pipelines w HR) in Hin.
        rewrite (inv_active w HR) in Hin. by apply elem_of_list_to_set in Hin. }
    destruct (then_callback task w1) as [w2|e w2]; simpl in HI; [done|].
    destruct HI as [HR2 HT2]. split; [|done].
    by eapply RequestsInv_ext; [..|exact HR2].
  - destruct HI0 as [HR0 HT0]. split; [|done].
    by eapply RequestsInv_ext; [..|exact HR0].
Qed.

(** ** Reachable states *)

Lemma init_Inv : Inv init.
Proof.
  split; [|done].
  constructor; unfold live_requests, request_coord; simpl; try done.
  - intros r Hr. by apply elem_of_nil in Hr.
  - constructor.
  - unfold maxConcurrentRequests. lia.
  - by exists 0%nat.
Qed.

Lemma step_Inv (w : Loader) (ev : Event) : Inv w → Inv (step w ev).
Proof.
  intros HI. destruct ev as [x y zoom owner| |tile owner|tile owner|task res]; simpl.
  - by apply getOrLoadTile_Inv.
  - by apply update_Inv.
  - by apply on_tile_Inv.
  - by apply on_tile_Inv.
  - by apply settle_Inv.
Qed.


Lemma run_Inv (evs : list Event) (w : Loader) : Inv w → Inv (run evs w).
Proof.
  revert w. induction evs as [|ev evs IH]; intros w HI; simpl; [done|].
  by apply IH, step_Inv.
Qed.

Lemma reachable_Inv (evs : list Event) : Inv (run evs init).
Proof. apply run_Inv, init_Inv. Qed.

(** ** The concurrency cap *)

(** C2: whatever sequence of calls and completions the loader goes
    through, the calls of [load] that are still suspended, the set
    [activeRequests] and the in-flight list of the queue each hold at
    most [maxConcurrentRequests] = 2 requests. *)
Theorem in_flight_bounded (evs : list Event) :
  let w := run evs init in
  (size (pipelines w) ≤ maxConcurrentRequests)%nat
  ∧ (size (activeRequests w) ≤ maxConcurrentRequests)%nat
  ∧ (length (RequestQueue.queueInProgress (queue w)) ≤ maxConcurrentRequests)%nat
  ∧ maxConcurrentRequests = 2%nat.
Proof.
  intros w. destruct (reachable_Inv evs) as [HR _]. fold w in HR.
  pose proof (inv_cap w HR) as Hcap.
  pose proof (size_activeRequests w HR) as Hsize.
  pose proof (subseteq_size _ _ (inv_pipelines w HR)) as Hsub.
  repeat split; [lia|lia|done].
Qed.

(** ** The coalescing invariant *)

Lemma RequestsInv_one_request_per_coordinate (w : Loader) :
  RequestsInv w → one_request_per_coordinate w.
Proof.
  intros HR i j ri rj c Hi Hj Hci Hcj.
  eapply (NoDup_lookup _ i j (Some c)); [apply (inv_coords w HR)|..].
  - by rewrite list_lookup_fmap, Hi, <-Hci.
  - by rewrite list_lookup_fmap, Hj, <-Hcj.
Qed.

(** C4: in every state the loader reaches, through any sequence of
    [getOrLoadTile] and [update] calls, tracker calls and pipeline
    completions, the waiting list and the in-flight list together hold at
    most one request per coordinate; each listed reference names a
    request, so each has a coordinate. *)
Theorem coalescing_invariant (evs : list Event) :
  one_request_per_coordinate (run evs init)
  ∧ ∀ r, r ∈ live_requests (run evs init) →
         is_Some (request_coord (run evs init) r).
Proof.
  destruct (reachable_Inv evs) as [HR _]. split.
  - by apply RequestsInv_one_request_per_coordinate.
  - intros r Hr. unfold request_coord. apply fmap_is_Some.
    by apply live_requests_valid_lookup.
Qed.

(** ** Admission order *)

Lemma processQueue_body_None (w : Loader) :
  processQueue_body w = None →
  RequestQueue.queue (queue w) = []
  ∨ (maxConcurrentRequests ≤ size (activeRequests w))%nat.
Proof.
  unfold processQueue_body, RequestQueue.size, RequestQueue.get.
  destruct (RequestQueue.queue (queue w)) as [|task rest]; [by left|].
  case_bool_decide as Hsize; [|simpl in Hsize; lia].
  case_bool_decide as Hcap; [|right; lia]. simpl.
  by destruct (requestStore _ !! task).
Qed.

Lemma processQueue_loop_admits (turns : nat) (w : Loader) :
  RequestsInv w →
  ∃ cs,
    RequestQueue.queue (queue (processQueue_loop turns w))
    = drop (turns `min` (length (RequestQueue.queue (queue w))
                         `min` (maxConcurrentRequests - size (activeRequests w))))
        (RequestQueue.queue (queue w))
    ∧ RequestQueue.queueInProgress (queue (processQueue_loop turns w))
      = RequestQueue.queueInProgress (queue w)
        ++ take (turns `min` (length (RequestQueue.queue (queue w))
                              `min` (maxConcurrentRequests - size (activeRequests w))))
             (RequestQueue.queue (queue w))
    ∧ activeRequests (processQueue_loop turns w)
      = list_to_set
          (take (turns `min` (length (RequestQueue.queue (queue w))
                              `min` (maxConcurrentRequests - size (activeRequests w))))
             (RequestQueue.queue (queue w)))
        ∪ activeRequests w
    ∧ pipelines (processQueue_loop turns w)
      = list_to_set
          (take (turns `min` (length (RequestQueue.queue (queue w))
                              `min` (maxConcurrentRequests - size (activeRequests w))))
             (RequestQueue.queue (queue w)))
        ∪ pipelines w
    ∧ network (processQueue_loop turns w) = network w ++ cs
    ∧ Some <$> cs
      = request_coord w
        <$> take (turns `min` (length (RequestQueue.queue (queue w))
                               `min` (maxConcurrentRequests - size (activeRequests w))))
              (RequestQueue.queue (queue w)).
Proof.
  revert w. induction turns as [|turns IH]; intros w HR.
  { exists []. simpl. rewrite drop_0, !app_nil_r.
    repeat split; by rewrite ?(left_id_L ∅ (∪)). }
  simpl processQueue_loop.
  destruct (processQueue_body w) as [w1|] eqn:Hbody.
  - pose proof (processQueue_body_RequestsInv w w1 HR Hbody) as HR1.
    destruct (processQueue_body_Some w w1 HR Hbody)
      as (task & rest & req & Hq & Hreq & Hcap & Hw1).
    destruct (IH w1 HR1) as (cs & IHq & IHp & IHa & IHl & IHn & IHc).
    pose proof (size_activeRequests w HR) as Hs.
    pose proof (size_activeRequests w1 HR1) as Hs1.
    assert (RequestQueue.queue (queue w1) = rest) as Hq1 by by rewrite Hw1.
    assert (RequestQueue.queueInProgress (queue w1)
            = RequestQueue.queueInProgress (queue w) ++ [task]) as Hp1
      by by rewrite Hw1.
    rewrite Hp1, length_app in Hs1. simpl in Hs1.
    rewrite Hq1 in IHq, IHp, IHa, IHl, IHc.
    rewrite Hq. simpl length.
    replace (S turns `min` (S (length rest)
                            `min` (maxConcurrentRequests - size (activeRequests w))))%nat
      with (S (turns `min` (length rest
                            `min` (maxConcurrentRequests - size (activeRequests w1)))))
      by lia.
    set (k := (turns `min` (length rest
                            `min` (maxConcurrentRequests - size (activeRequests w1))))%nat)
      in *.
    exists (coord_of req :: cs). rewrite firstn_cons, skipn_cons, !fmap_cons.
    split; [done|]. split; [by rewrite IHp, Hp1, <- app_assoc|].
    split; [rewrite IHa, Hw1; simpl; set_solver|].
    split; [rewrite IHl, Hw1; simpl; set_solver|].
    split; [by rewrite IHn, Hw1; simpl; rewrite <- app_assoc|].
    rewrite IHc. unfold request_coord at 2. rewrite Hreq. simpl. f_equal.
    apply list_fmap_ext. intros i r _. unfold request_coord. by rewrite Hw1.
  - exists [].
    replace (S turns `min` (length (RequestQueue.queue (queue w))
                            `min` (maxConcurrentRequests - size (activeRequests w))))%nat
      with 0%nat.
    + simpl. rewrite drop_0, !app_nil_r.
      repeat split; by rewrite ?(left_id_L ∅ (∪)).
    + destruct (processQueue_body_None w Hbody) as [Hq|Hcap]; [rewrite Hq; simpl|]; lia.
Qed.

Lemma update_admits (w : Loader) :
  Inv w →
  ∃ cs,
    RequestQueue.queue (queue (update w))
    = drop (length (RequestQueue.queue (queue w))
            `min` (maxConcurrentRequests - size (activeRequests w)))
        (RequestQueue.queue (queue w))
    ∧ RequestQueue.queueInProgress (queue (update w))
      = RequestQueue.queueInProgress (queue w)
        ++ take (length (RequestQueue.queue (queue w))
                 `min` (maxConcurrentRequests - size (activeRequests w)))
             (RequestQueue.queue (queue w))
    ∧ activeRequests (update w)
      = list_to_set
          (take (length (RequestQueue.queue (queue w))
                 `min` (maxConcurrentRequests - size (activeRequests w)))
             (RequestQueue.queue (queue w)))
        ∪ activeRequests w
    ∧ pipelines (update w)
      = list_to_set
          (take (length (RequestQueue.queue (queue w))
                 `min` (maxConcurrentRequests - size (activeRequests w)))
             (RequestQueue.queue (queue w)))
        ∪ pipelines w
    ∧ network (update w) = network w ++ cs
    ∧ Some <$> cs
      = request_coord w
        <$> take (length (RequestQueue.queue (queue w))
                  `min` (maxConcurrentRequests - size (activeRequests w)))
              (RequestQueue.queue (queue w)).
Proof.
  intros HI. destruct (removeUnusedTiles_Inv w HI) as [HR' _].
  destruct (removeUnusedTiles_requests w) as (Ha & Hq & Hs & _ & Hn & Hp & _).
  unfold update, processQueue, RequestQueue.size.
  destruct (processQueue_loop_admits
              (length (RequestQueue.queue (queue (removeUnusedTiles w))))
              (removeUnusedTiles w) HR') as (cs & H1 & H2 & H3 & H4 & H5 & H6).
  rewrite Ha, Hq, Hn, Hp in *.
  replace (length (RequestQueue.queue (queue w))
           `min` (length (RequestQueue.queue (queue w))
                  `min` (maxConcurrentRequests - size (activeRequests w))))%nat
    with (length (RequestQueue.queue (queue w))
          `min` (maxConcurrentRequests - size (activeRequests w)))%nat
    in * by lia.
  exists cs. repeat split; try done.
  rewrite H6. apply list_fmap_ext. intros i r _. unfold request_coord. by rewrite Hs.
Qed.

(** C9: an admission pass of [update] moves the first [k] requests of
    the waiting list, in their order, to the end of the in-flight list
    and fetches them in that order, where [k] is the number of free slots
    or the length of the waiting list, whichever is less; the rest of
    the waiting list stays, in its order. So within a pass a request is
    never admitted before one that waits ahead of it. Across passes:
    requests are numbered in the order in which [getOrLoadTile] created
    them, and a call that creates one puts it at the end of the waiting
    list; in every reachable state the waiting list is the run of the
    newest requests, oldest first, and the fetches issued so far are
    those of all older requests, in that same order. One turn of the
    loop takes the head of the waiting list, as [get] does. *)
Theorem fifo_admission (evs : list Event) :
  let w := run evs init in
  let waiting := RequestQueue.queue (queue w) in
  let k := (length waiting `min` (maxConcurrentRequests - size (activeRequests w)))%nat in
  RequestQueue.queue (queue (update w)) = drop k waiting
  ∧ RequestQueue.queueInProgress (queue (update w))
    = RequestQueue.queueInProgress (queue w) ++ take k waiting
  ∧ activeRequests (update w) = list_to_set (take k waiting) ∪ activeRequests w
  ∧ (∃ cs, network (update w) = network w ++ cs
           ∧ Some <$> cs = request_coord w <$> take k waiting)
  ∧ (∀ (i j : nat) (ri rj : ReqRef),
       waiting !! i = Some ri → waiting !! j = Some rj → (i < j)%nat →
       rj ∈ RequestQueue.queueInProgress (queue (update w)) →
       ri ∈ RequestQueue.queueInProgress (queue (update w)))
  ∧ (∃ n : nat,
      (n ≤ length (requestStore w))%nat
      ∧ waiting = seq n (length (requestStore w) - n)
      ∧ network w = coord_of <$> take n (requestStore w))
  ∧ (∀ x y zoom owner,
       RequestQueue.queue (queue (getOrLoadTile x y zoom owner w).2) = waiting
       ∨ RequestQueue.queue (queue (getOrLoadTile x y zoom owner w).2)
         = waiting ++ [length (requestStore w)])
  ∧ (∀ w1, processQueue_body w = Some w1 →
       ∃ task rest req,
         waiting = task :: rest
         ∧ requestStore w !! task = Some req
         ∧ RequestQueue.queue (queue w1) = rest
         ∧ RequestQueue.queueInProgress (queue w1)
           = RequestQueue.queueInProgress (queue w) ++ [task]
         ∧ activeRequests w1 = {[task]} ∪ activeRequests w
         ∧ network w1 = network w ++ [coord_of req])
  ∧ (∀ q task rest, RequestQueue.queue q = task :: rest →
       RequestQueue.get q
       = (Some task,
          {| RequestQueue.queue := rest;
             RequestQueue.queueInProgress := RequestQueue.queueInProgress q ++ [task] |})).
Proof.
  intros w waiting k. pose proof (reachable_Inv evs) as HI. fold w in HI.
  destruct (update_admits w HI) as (cs & Hq & Hp & Ha & _ & Hn & Hc).
  fold waiting k in Hq, Hp, Ha, Hc. destruct HI as [HR _].
  split; [done|]. split; [done|]. split; [done|]. split; [by exists cs|].
  split; [|split; [apply (inv_fifo w HR)|split; [|split]]].
  - intros i j ri rj Hi Hj Hij. rewrite Hp, !elem_of_app.
    pose proof (NoDup_live_requests w HR) as Hnd.
    apply NoDup_app in Hnd as (_ & Hdisj & _).
    intros [Hold|Hnew].
    { destruct (Hdisj rj); [|done]. by eapply list_elem_of_lookup_2. }
    right. apply list_elem_of_lookup in Hnew as [j' Hj'].
    pose proof (lookup_lt_Some _ _ _ Hj') as Hlt. rewrite length_take in Hlt.
    rewrite lookup_take_lt in Hj' by lia.
    assert (j' = j) as ->.
    { eapply NoDup_lookup; [|exact Hj'|exact Hj].
      fold waiting in Hdisj. pose proof (NoDup_live_requests w HR) as Hnd.
      by apply NoDup_app in Hnd as (? & _ & _). }
    apply list_elem_of_lookup. exists i. rewrite lookup_take_lt by lia. done.
  - intros x y zoom owner.
    destruct (getTile x y zoom w) as [tile|] eqn:Hget.
    { left. by rewrite (getOrLoadTile_hit _ _ _ _ _ tile Hget). }
    destruct (RequestQueue.find (requestStore w) x y zoom (queue w)) as [r|] eqn:Hfind.
    + left. by rewrite (getOrLoadTile_coalesce _ _ _ _ _ r Hget Hfind).
    + right. by rewrite (getOrLoadTile_new _ _ _ _ _ Hget Hfind).
  - intros w1 Hbody.
    destruct (processQueue_body_Some w w1 HR Hbody)
      as (task & rest & req & Hq' & Hreq & _ & ->).
    by exists task, rest, req.
  - intros q task rest Hq'. unfold RequestQueue.get. by rewrite Hq'.
Qed.

Lemma fifo_admission_witness :
  let w := run [EvGetOrLoadTile 1 2 3 7%nat; EvGetOrLoadTile 4 5 3 8%nat;
                EvGetOrLoadTile 6 7 3 9%nat] init in
  RequestQueue.queue (queue w) = [0%nat; 1%nat; 2%nat]
  ∧ RequestQueue.queue (queue (update w)) = [2%nat]
  ∧ RequestQueue.queueInProgress (queue (update w)) = [0%nat; 1%nat]
  ∧ network (update w) = [(1, 2, 3); (4, 5, 3)].
Proof.
  intros w.
  destruct (fifo_admission [EvGetOrLoadTile 1 2 3 7%nat; EvGetOrLoadTile 4 5 3 8%nat;
                            EvGetOrLoadTile 6 7 3 9%nat])
    as (Hq & Hp & _ & (cs & Hn & Hc) & _).
  fold w in Hq, Hp, Hn, Hc.
  split; [by vm_compute|]. split; [etrans; [exact Hq|]; by vm_compute|].
  split; [etrans; [exact Hp|]; by vm_compute|].
  rewrite Hn. apply (inj (fmap Some)).
  rewrite fmap_app, Hc. by vm_compute.
Defined.

(** ** Eviction *)

Lemma update_tiles (w : Loader) :
  tiles (update w) = filter (λ entry, tile_isUsed entry.2 w = true) (tiles w).
Proof.
  unfold update, processQueue.
  destruct (processQueue_loop_frame
              (RequestQueue.size (queue (removeUnusedTiles w))) (removeUnusedTiles w))
    as (-> & _).
  apply removeUnusedTiles_tiles.
Qed.

Lemma tile_isUsed_users (tile : TileRef) (w : Loader) :
  tile_isUsed tile w = false ↔ tile_users tile w = ∅.
Proof.
  unfold tile_isUsed, tile_users.
  destruct (tileStore w !! tile) as [obj|]; [|done].
  apply isUsed_false_iff.
Qed.




(** ** The pyramid levels that [load] stores *)

Lemma addBitmap_getBitmap (bm : TerrainHeightLoaderBitmap.t) (x y zoom : Z) (level : nat) (w : Loader) :
  TilesInv w → getBitmap x y zoom level (addBitmap bm x y zoom level w) = Some bm.
Proof.
  intros HT. unfold addBitmap, getBitmap.
  destruct (getTile x y zoom w) as [tile|] eqn:Hget.
  - unfold getTile in *. simpl. rewrite Hget, list_lookup_alter_eq.
    destruct (lookup_lt_is_Some_2 (tileStore w) tile) as [obj ->]; [by eapply HT|].
    simpl. unfold HeightLoaderTile.getLevel. simpl. apply lookup_insert_eq.
  - unfold getTile. simpl. rewrite lookup_insert_eq, list_lookup_alter_eq.
    rewrite lookup_app_r, Nat.sub_diag by done. simpl.
    unfold HeightLoaderTile.getLevel. simpl. apply lookup_insert_eq.
Qed.

Lemma addBitmap_getBitmap_other (bm bm' : TerrainHeightLoaderBitmap.t)
    (x y zoom x' y' zoom' : Z) (level level' : nat) (w : Loader) :
  TilesInv w → level' ≠ level →
  getBitmap x' y' zoom' level' w = Some bm' →
  getBitmap x' y' zoom' level' (addBitmap bm x y zoom level w) = Some bm'.
Proof.
  intros HT Hne. unfold addBitmap, getBitmap.
  destruct (getTile x' y' zoom' w) as [tile'|] eqn:Hget'; [|done].
  destruct (tileStore w !! tile') as [obj'|] eqn:Hobj'; [|done].
  intros Hlevel.
  destruct (getTile x y zoom w) as [tile|] eqn:Hget.
  - unfold getTile in *. simpl. rewrite Hget'.
    destruct (decide (tile = tile')) as [->|Hnt].
    + rewrite list_lookup_alter_eq, Hobj'. simpl.
      unfold HeightLoaderTile.getLevel in *. simpl. by rewrite lookup_insert_ne.
    + by rewrite list_lookup_alter_ne, Hobj'.
  - unfold getTile in *. simpl.
    rewrite lookup_insert_ne by congruence. rewrite Hget'.
    assert (tile' < length (tileStore w))%nat as Hlt by by eapply HT.
    rewrite list_lookup_alter_ne by lia.
    by rewrite lookup_app_l, Hobj'.
Qed.

(** ** Dividing a whole number by a power of two in binary64 *)

Lemma pow2_finite (i : nat) :
  (i < 1024)%nat → JSNumber.pow2 i = S754_finite false 4503599627370496 (Z.of_nat i - 52).
Proof.
  intros Hi. unfold JSNumber.pow2, JSNumber.prec64, JSNumber.emax64. simpl binary_normalize.
  apply round_exact; [done|lia|].
  replace (Z.max 0 (Z.of_nat i - (Z.of_nat i - 52))) with 52 by lia.
  replace (Z.max 0 (Z.of_nat i - 52 - Z.of_nat i)) with 0 by lia. done.
Qed.

Lemma round_aux_overflow (q : positive) (e : Z) :
  Z.pos (digits2_pos q) = 53 → 971 < e →
  binary_round_aux 53 1024 false (Z.pos q) e loc_Exact = S754_infinity false.
Proof.
  intros Hq He.
  unfold binary_round_aux, shr_fexp, fexp, emin. simpl Zdigits2. rewrite Hq.
  replace (Z.max (53 + e - 53) (3 - 1024 - 53) - e) with 0 by lia.
  cbn [shr shr_record_of_loc shr_m loc_of_shr_record round_nearest_even Zdigits2].
  rewrite Hq.
  replace (Z.max (53 + e - 53) (3 - 1024 - 53) - e) with 0 by lia.
  cbn [shr shr_record_of_loc shr_m].
  change (1024 - 53) with 971.
  destruct (Z.leb_spec e 971); [lia|done].
Qed.

Lemma pow2_infinite (i : nat) : (1024 ≤ i)%nat → JSNumber.pow2 i = S754_infinity false.
Proof.
  intros Hi. unfold JSNumber.pow2, JSNumber.prec64, JSNumber.emax64. simpl binary_normalize. unfold binary_round.
  destruct (shl_align_fst 1 (Z.of_nat i)
              (fexp 53 1024 (Z.pos (digits2_pos 1) + Z.of_nat i))) as [Hm He].
  { unfold fexp, emin. simpl. lia. }
  destruct (shl_align 1 (Z.of_nat i) _) as [mz ez]. simpl in Hm, He. subst ez.
  unfold fexp, emin in *. simpl digits2_pos in *.
  replace (Z.max (1 + Z.of_nat i - 53) (3 - 1024 - 53)) with (Z.of_nat i - 52) in * by lia.
  replace (Z.of_nat i - (Z.of_nat i - 52)) with 52 in Hm by lia.
  apply round_aux_overflow; [|lia].
  apply digits2_unique. rewrite Hm. simpl. lia.
Qed.

Lemma round_aux_sign (m e : Z) (l : location) (q : positive) (e' : Z) :
  binary_round_aux 53 1024 false m e l = S754_finite false q e' →
  binary_round_aux 53 1024 true m e l = S754_finite true q e'.
Proof.
  unfold binary_round_aux.
  destruct (shr_fexp 53 1024 m e l) as [mrs1 e1].
  destruct (shr_fexp 53 1024 _ e1 loc_Exact) as [mrs2 e2].
  destruct (shr_m mrs2); [done| |done].
  destruct (e2 <=? 1024 - 53); [|done]. by intros [= -> ->].
Qed.

Lemma of_Z_canonical (x : Z) :
  x ≠ 0 → -2 ^ 53 < x < 2 ^ 53 →
  ∃ (n q : positive) (d : Z),
    Z.abs x = Z.pos n ∧ d = Z.pos (digits2_pos n) ∧ 1 ≤ d ≤ 53
    ∧ Z.pos q = Z.pos n * 2 ^ (53 - d)
    ∧ Z.pos (digits2_pos q) = 53
    ∧ JSNumber.of_Z x = S754_finite (x <? 0) q (d - 53).
Proof.
  intros Hx Hb. destruct x as [|n|n]; [done|..].
  - destruct (of_pos_canonical n ltac:(lia)) as (q & Hq & Hd & Hr).
    exists n, q, (Z.pos (digits2_pos n)).
    pose proof (digits2_le_53 n ltac:(lia)).
    repeat split; try done; lia.
  - destruct (of_pos_canonical n ltac:(lia)) as (q & Hq & Hd & Hr).
    exists n, q, (Z.pos (digits2_pos n)).
    pose proof (digits2_le_53 n ltac:(lia)).
    repeat split; try done; try lia.
    unfold JSNumber.of_Z, binary_normalize, JSNumber.prec64, JSNumber.emax64.
    unfold binary_round in *.
    destruct (shl_align n 0 _) as [mz ez].
    by apply round_aux_sign.
Qed.

Lemma div_core_pow2 (q : positive) (e : Z) (i : Z) :
  Z.pos (digits2_pos q) = 53 → -1073 ≤ e - i →
  SFdiv_core_binary 53 1024 (Z.pos q) e 4503599627370496 (i - 52)
  = (2 * Z.pos q, e - i - 1, loc_Exact).
Proof.
  intros Hq He. unfold SFdiv_core_binary.
  change (Zdigits2 (Z.pos q)) with (Z.pos (digits2_pos q)).
  change (Zdigits2 4503599627370496) with 53.
  rewrite Hq. unfold fexp, emin.
  replace (Z.min (Z.max (53 + e - (53 + (i - 52)) - 53) (3 - 1024 - 53)) (e - (i - 52)))
    with (e - i - 1) by lia.
  replace (e - (i - 52) - (e - i - 1)) with 53 by lia.
  rewrite Z.shiftl_mul_pow2 by lia.
  replace (Z.pos q * 2 ^ 53) with (2 * Z.pos q * 4503599627370496) by lia.
  pose proof (Z.div_mul (2 * Z.pos q) 4503599627370496 ltac:(lia)) as Hdiv.
  pose proof (Z.mod_mul (2 * Z.pos q) 4503599627370496 ltac:(lia)) as Hmod.
  unfold Z.div, Z.modulo in Hdiv, Hmod.
  destruct (Z.div_eucl (2 * Z.pos q * 4503599627370496) 4503599627370496) as [a b].
  simpl in Hdiv, Hmod. subst a b. reflexivity.
Qed.

Lemma div_core_pow2_min (q : positive) (e : Z) (i : Z) :
  Z.pos (digits2_pos q) = 53 → e - i = -1074 →
  SFdiv_core_binary 53 1024 (Z.pos q) e 4503599627370496 (i - 52)
  = (Z.pos q, -1074, loc_Exact).
Proof.
  intros Hq He. unfold SFdiv_core_binary.
  change (Zdigits2 (Z.pos q)) with (Z.pos (digits2_pos q)).
  change (Zdigits2 4503599627370496) with 53.
  rewrite Hq. unfold fexp, emin.
  replace (Z.min (Z.max (53 + e - (53 + (i - 52)) - 53) (3 - 1024 - 53)) (e - (i - 52)))
    with (-1074) by lia.
  replace (e - (i - 52) - -1074) with 52 by lia.
  rewrite Z.shiftl_mul_pow2 by lia.
  change (2 ^ 52) with 4503599627370496.
  pose proof (Z.div_mul (Z.pos q) 4503599627370496 ltac:(lia)) as Hdiv.
  pose proof (Z.mod_mul (Z.pos q) 4503599627370496 ltac:(lia)) as Hmod.
  unfold Z.div, Z.modulo in Hdiv, Hmod.
  destruct (Z.div_eucl (Z.pos q * 4503599627370496) 4503599627370496) as [a b].
  simpl in Hdiv, Hmod. subst a b. reflexivity.
Qed.

Lemma div_pow2_exact (s : bool) (q : positive) (e : Z) (i : nat) :
  Z.pos (digits2_pos q) = 53 → (i < 1024)%nat → e ≤ 0 → -1074 ≤ e - Z.of_nat i →
  JSNumber.div (S754_finite s q e) (JSNumber.pow2 i) = S754_finite s q (e - Z.of_nat i).
Proof.
  intros Hq Hi He Hlo. rewrite pow2_finite by done.
  unfold JSNumber.div, SFdiv, JSNumber.prec64, JSNumber.emax64.
  rewrite xorb_false_r.
  assert (binary_round_aux 53 1024 false
            (SFdiv_core_binary 53 1024 (Z.pos q) e 4503599627370496
               (Z.of_nat i - 52)).1.1
            (SFdiv_core_binary 53 1024 (Z.pos q) e 4503599627370496
               (Z.of_nat i - 52)).1.2
            (SFdiv_core_binary 53 1024 (Z.pos q) e 4503599627370496
               (Z.of_nat i - 52)).2
          = S754_finite false q (e - Z.of_nat i)) as Hround.
  { destruct (decide (e - Z.of_nat i = -1074)) as [Hmin|Hne].
    - rewrite div_core_pow2_min by done. simpl.
      rewrite (round_aux_exact q q (-1074) 0); [f_equal; lia|lia|lia|done|lia].
    - rewrite div_core_pow2 by (done || lia). cbn [fst snd].
      change (2 * Z.pos q) with (Z.pos (q~0)).
      rewrite (round_aux_exact (q~0) q (e - Z.of_nat i - 1) 1);
        [f_equal; lia|lia|lia|done|lia]. }
  destruct (SFdiv_core_binary 53 1024 (Z.pos q) e 4503599627370496 (Z.of_nat i - 52))
    as [[mz ez] lz].
  simpl in Hround. destruct s; [by apply round_aux_sign|done].
Qed.

Lemma floor_div_pow2_binary64 (x : Z) (i : nat) :
  -2 ^ 53 < x < 2 ^ 53 →
  JSNumber.floor (JSNumber.div (JSNumber.of_Z x) (JSNumber.pow2 i)) = floor_div_pow2 x i.
Proof.
  intros Hb. unfold floor_div_pow2.
  destruct (decide (x = 0)) as [->|Hx].
  { rewrite Z.div_0_l by (apply Z.pow_nonzero; lia).
    destruct (Nat.ltb_spec i 1024) as [Hi|Hi].
    - by rewrite pow2_finite.
    - by rewrite pow2_infinite. }
  destruct (of_Z_canonical x Hx Hb) as (n & q & d & Hn & Hd & Hdb & Hq & Hdq & ->).
  destruct (Nat.ltb_spec i 1024) as [Hi|Hi]; [|by rewrite pow2_infinite].
  destruct (decide (d - 53 - Z.of_nat i = -1075)) as [Hsub|Hnorm].
  - assert (i = 1023%nat) as -> by lia. assert (d = 1) as -> by lia.
    assert (n = 1%positive) as ->.
    { pose proof (digits2_bounds n) as Hnb. rewrite <- Hd in Hnb. simpl in Hnb. lia. }
    assert (q = 4503599627370496%positive) as -> by (simpl in Hq; lia).
    destruct x as [|p|p]; [done|..]; simpl in Hn; injection Hn as ->; by vm_compute.
  - rewrite div_pow2_exact by (done || lia). unfold JSNumber.floor.
    rewrite Z.shiftl_div_pow2 by lia.
    replace (- (d - 53 - Z.of_nat i)) with (Z.of_nat i + (53 - d)) by lia.
    rewrite Z.pow_add_r by lia.
    assert (cond_Zopp (x <? 0) (Z.pos q) = x * 2 ^ (53 - d)) as ->.
    { rewrite Hq. destruct x as [|p|p]; [done|..]; simpl in Hn; injection Hn as ->.
      - done.
      - simpl cond_Zopp. lia. }
    apply Z.div_mul_cancel_r; apply Z.pow_nonzero; lia.
Qed.

Lemma floor_div_pow2_0 (x : Z) : floor_div_pow2 x 0 = x.
Proof. unfold floor_div_pow2. simpl. apply Z.div_1_r. Qed.

Lemma load_downscale_levels (decoded : TerrainHeightLoaderBitmap.t) (x y zoom : Z)
    (count i : nat) (w : Loader) :
  TilesInv w →
  let w' := load_downscale decoded x y zoom i count w in
  (∀ j, (i ≤ j < i + count)%nat →
        getBitmap (floor_div_pow2 x j) (floor_div_pow2 y j) zoom (j + 1) w'
        = Some (TerrainHeightLoaderBitmap.downscale decoded))
  ∧ (∀ x' y' zoom' level bm,
       (level ≤ i)%nat →
       getBitmap x' y' zoom' level w = Some bm →
       getBitmap x' y' zoom' level w' = Some bm).
Proof.
  revert i w. induction count as [|count IH]; intros i w HT; simpl.
  { split; [intros j ?; lia|done]. }
  set (w1 := addBitmap _ _ _ _ _ w).
  assert (TilesInv w1) as HT1 by by apply addBitmap_TilesInv.
  destruct (IH (S i) w1 HT1) as [IHnew IHold]. split.
  - intros j Hj. destruct (decide (j = i)) as [->|Hne].
    + apply IHold; [lia|]. by apply addBitmap_getBitmap.
    + apply IHnew. lia.
  - intros x' y' zoom' level bm Hlevel Hbm.
    apply IHold; [lia|]. apply addBitmap_getBitmap_other; [done|lia|done].
Qed.

Lemma load_finish_level0 (w : Loader) (x y zoom : Z) (n : nat) (bm : ImageBitmap) :
  TilesInv w →
  ∃ w', load_finish x y zoom n (FetchResponse 200 (Some bm)) w = Some w'
        ∧ getBitmap x y zoom 0 w' = Some (decodeBitmap bm).
Proof.
  intros HT. eexists. split; [reflexivity|].
  set (w0 := addBitmap (decodeBitmap bm) x y zoom 0 w).
  assert (TilesInv w0) as HT0 by by apply addBitmap_TilesInv.
  destruct (load_downscale_levels (decodeBitmap bm) x y zoom n 0 w0 HT0) as [_ Hold].
  apply Hold; [lia|]. by apply addBitmap_getBitmap.
Qed.

(** C8: a successful [load] stores the decoded raster as level 0 at
    (x, y, zoom) and, for each i below [downscaleTimes], the downscaled
    raster, half as wide and half as high, as level i+1 of a tile that
    exists afterwards: for i up to 1023 the tile at
    (floor(x / 2^i), floor(y / 2^i), zoom), and from i = 1024 on, where
    [2 ** i] is [Infinity], the tile at (0, 0, zoom); for x and y below
    2^53 in magnitude that is, for every i, the tile at the coordinate
    that [Math.floor(x / (2 ** i))] and [Math.floor(y / (2 ** i))] give
    in binary64; with [downscaleTimes] = 1, the value [processQueue]
    passes, that is one more [addBitmap], for level 1 at (x, y, zoom)
    itself. *)
Theorem load_pyramid (w : Loader) (x y zoom : Z) (downscaleTimes : nat) (bm : ImageBitmap) :
  TilesInv w →
  let decoded := decodeBitmap bm in
  let downscaled := TerrainHeightLoaderBitmap.downscale decoded in
  ∃ w', load_finish x y zoom downscaleTimes (FetchResponse 200 (Some bm)) w = Some w'
    ∧ getBitmap x y zoom 0 w' = Some decoded
    ∧ (∀ i, (i < downscaleTimes)%nat → (i < 1024)%nat →
         getBitmap (x `div` 2 ^ Z.of_nat i) (y `div` 2 ^ Z.of_nat i) zoom (i + 1) w'
         = Some downscaled
         ∧ is_Some (getTile (x `div` 2 ^ Z.of_nat i) (y `div` 2 ^ Z.of_nat i) zoom w'))
    ∧ (∀ i, (i < downscaleTimes)%nat → (1024 ≤ i)%nat →
         getBitmap 0 0 zoom (i + 1) w' = Some downscaled
         ∧ is_Some (getTile 0 0 zoom w'))
    ∧ (∀ i, (i < downscaleTimes)%nat →
         - 2 ^ 53 < x < 2 ^ 53 → - 2 ^ 53 < y < 2 ^ 53 →
         getBitmap
           (JSNumber.floor (JSNumber.div (JSNumber.of_Z x) (JSNumber.pow2 i)))
           (JSNumber.floor (JSNumber.div (JSNumber.of_Z y) (JSNumber.pow2 i)))
           zoom (i + 1) w'
         = Some downscaled)
    ∧ TerrainHeightLoaderBitmap.width downscaled
      = (TerrainHeightLoaderBitmap.width decoded / 2)%nat
    ∧ TerrainHeightLoaderBitmap.height downscaled
      = (TerrainHeightLoaderBitmap.height decoded / 2)%nat
    ∧ (downscaleTimes = 1%nat →
       w' = addBitmap downscaled x y zoom 1 (addBitmap decoded x y zoom 0 w)
       ∧ getBitmap x y zoom 1 w' = Some downscaled).
Proof.
  intros HT decoded downscaled. eexists. split; [reflexivity|].
  set (w0 := addBitmap decoded x y zoom 0 w).
  assert (TilesInv w0) as HT0 by by apply addBitmap_TilesInv.
  destruct (load_downscale_levels decoded x y zoom downscaleTimes 0 w0 HT0)
    as [Hnew Hold].
  split; [|split; [|split; [|split; [|split; [|split]]]]]; try done.
  - apply Hold; [lia|]. by apply addBitmap_getBitmap.
  - intros i Hi Hlow. assert (Hlevel := Hnew i ltac:(lia)).
    unfold floor_div_pow2 in Hlevel.
    destruct (Nat.ltb_spec i 1024); [|lia]. split; [done|].
    unfold getBitmap in Hlevel. by destruct (getTile _ _ _ _).
  - intros i Hi Hhigh. assert (Hlevel := Hnew i ltac:(lia)).
    unfold floor_div_pow2 in Hlevel.
    destruct (Nat.ltb_spec i 1024); [lia|]. split; [done|].
    unfold getBitmap in Hlevel. by destruct (getTile _ _ _ _).
  - intros i Hi Hx Hy. rewrite !floor_div_pow2_binary64 by done.
    apply Hnew. lia.
  - intros ->. simpl. rewrite !floor_div_pow2_0.
    split; [done|]. by apply addBitmap_getBitmap, addBitmap_TilesInv.
Qed.

Lemma load_pyramid_witness :
  let bm := {| ib_width := 2; ib_height := 2;
               ib_data := [0; 39; 16; 255; 0; 39; 16; 255;
                           0; 39; 26; 255; 1; 0; 0; 255] |} in
  ∃ w', load_finish 5 3 9 2 (FetchResponse 200 (Some bm)) init = Some w'
    ∧ getBitmap 5 3 9 0 w' = Some (decodeBitmap bm)
    ∧ getBitmap 5 3 9 1 w'
      = Some (TerrainHeightLoaderBitmap.downscale (decodeBitmap bm))
    ∧ getBitmap 2 1 9 2 w'
      = Some (TerrainHeightLoaderBitmap.downscale (decodeBitmap bm)).
Proof.
  intros bm.
  destruct (load_pyramid init 5 3 9 2 bm) as (w' & Hload & H0 & Hlevels & _).
  { intros key tile Hk. simpl in Hk. by rewrite lookup_empty in Hk. }
  exists w'. split; [done|]. split; [done|]. split.
  - apply (Hlevels 0%nat); lia.
  - apply (Hlevels 1%nat); lia.
Defined.

(** C8 as stated fails from the level 1025 on: [2 ** 1024] is
    [Infinity], so [load(-1, 5, 9, 1025)] stores level 1025 in the tile
    "0,0,9", and the tile at (floor(-1 / 2^1024), floor(5 / 2^1024), 9) =
    (-1, 0, 9) has no such level. *)
Lemma load_pyramid_overflow :
  let bm := {| ib_width := 1; ib_height := 1; ib_data := [0; 39; 16; 255] |} in
  let downscaled := TerrainHeightLoaderBitmap.downscale (decodeBitmap bm) in
  JSNumber.pow2 1024 = S754_infinity false
  ∧ JSNumber.div (JSNumber.of_Z (-1)) (JSNumber.pow2 1024) = S754_zero true
  ∧ JSNumber.floor (JSNumber.div (JSNumber.of_Z (-1)) (JSNumber.pow2 1024)) = 0
  ∧ (-1) `div` 2 ^ Z.of_nat 1024 = -1
  ∧ 5 `div` 2 ^ Z.of_nat 1024 = 0
  ∧ (∃ w', load_finish (-1) 5 9 1025 (FetchResponse 200 (Some bm)) init = Some w'
       ∧ getBitmap (-1) 0 9 1025 w' = None
       ∧ getBitmap 0 0 9 1025 w' = Some downscaled)
  ∧ ¬ pyramid_at_floor.
Proof.
  intros bm downscaled.
  assert (∃ w', load_finish (-1) 5 9 1025 (FetchResponse 200 (Some bm)) init = Some w'
            ∧ getBitmap (-1) 0 9 1025 w' = None
            ∧ getBitmap 0 0 9 1025 w' = Some downscaled) as Hrun.
  { eexists. split; [reflexivity|]. split; by vm_compute. }
  split; [by vm_compute|]. split; [by vm_compute|]. split; [by vm_compute|].
  split; [by vm_compute|]. split; [by vm_compute|]. split; [exact Hrun|].
  intros Hclaim. destruct Hrun as (w' & Hload & Hnone & _).
  pose proof (Hclaim (-1) 5 9 1025%nat bm w' Hload 1024%nat ltac:(lia)) as Habs.
  replace ((-1) `div` 2 ^ Z.of_nat 1024) with (-1) in Habs by by vm_compute.
  replace (5 `div` 2 ^ Z.of_nat 1024) with 0 in Habs by by vm_compute.
  change (1024 + 1)%nat with 1025%nat in Habs.
  rewrite Hnone in Habs. discriminate Habs.
Qed.

(** ** What the steps leave alone *)

Lemma then_callback_frame (task : ReqRef) (w : Loader) :
  let w' := completion_state (then_callback task w) in
  tiles w' = tiles w
  ∧ activeRequests w' = activeRequests w ∖ {[task]}
  ∧ queue w' = RequestQueue.remove task (queue w)
  ∧ requestStore w' = requestStore w
  ∧ network w' = network w
  ∧ pipelines w' = pipelines w
  ∧ uncaught w' = uncaught w
  ∧ length (tileStore w') = length (tileStore w)
  ∧ length (promiseStore w') = length (promiseStore w).
Proof.
  unfold then_callback.
  set (w2 := set_queue (RequestQueue.remove task)
               (set_activeRequests (λ s, s ∖ {[task]}) w)).
  destruct (requestStore w2 !! task) as [req|]; [|done].
  by destruct (resolve_all_frame (waitingList req) w2)
    as (-> & -> & -> & -> & -> & -> & -> & -> & -> & _).
Qed.

Lemma settle_frame (task : ReqRef) (res : FetchResult) (w : Loader) :
  let w' := settle task res w in
  requestStore w' = requestStore w
  ∧ network w' = network w
  ∧ RequestQueue.queue (queue w') = RequestQueue.queue (queue w)
  ∧ pipelines w' ⊆ pipelines w
  ∧ (RequestQueue.queueInProgress (queue w')
       = RequestQueue.queueInProgress (queue w)
     ∨ (task ∈ pipelines w
        ∧ RequestQueue.queueInProgress (queue w')
          = RequestQueue.remove_first task (RequestQueue.queueInProgress (queue w)))).
Proof.
  unfold settle. case_bool_decide as Hin; [|by repeat split; [..|left]].
  set (w0 := set_pipelines (λ s, s ∖ {[task]}) w).
  destruct (requestStore w0 !! task) as [req|];
    [|simpl; repeat split; [set_solver|by left]].
  destruct (load_finish _ _ _ 1 res w0) as [w1|] eqn:Hload;
    [|simpl; repeat split; [set_solver|by left]].
  destruct (load_finish_requests _ _ _ _ _ _ _ Hload) as (Ha&Hq&Hrs&Hps&Hn&Hp&Hu).
  pose proof (then_callback_frame task w1) as Hframe.
  destruct (then_callback task w1) as [w3|e w3]; simpl in Hframe |- *;
    destruct Hframe as (_ & _ & -> & -> & -> & -> & _);
    rewrite Hq, Hrs, Hn, Hp; simpl;
    (repeat split; [set_solver|by right]).
Qed.

Lemma update_frame (w : Loader) :
  requestStore (update w) = requestStore w
  ∧ promiseStore (update w) = promiseStore w
  ∧ uncaught (update w) = uncaught w.
Proof.
  unfold update, processQueue.
  destruct (processQueue_loop_frame
              (RequestQueue.size (queue (removeUnusedTiles w))) (removeUnusedTiles w))
    as (_ & _ & -> & -> & ->).
  by destruct (removeUnusedTiles_requests w) as (_&_&->&->&_&_&->&_).
Qed.

Lemma getOrLoadTile_requestStore (x y zoom : Z) (owner : AnyObject) (w : Loader) :
  let w' := (getOrLoadTile x y zoom owner w).2 in
  network w' = network w
  ∧ pipelines w' = pipelines w
  ∧ RequestQueue.queueInProgress (queue w') = RequestQueue.queueInProgress (queue w)
  ∧ (requestStore w' = requestStore w ∧ queue w' = queue w
     ∨ (∃ item r, requestStore w' = alter (push_waiting item) r (requestStore w)
                  ∧ queue w' = queue w)
     ∨ (∃ req, requestStore w' = requestStore w ++ [req]
               ∧ RequestQueue.queue (queue w')
                 = RequestQueue.queue (queue w) ++ [length (requestStore w)])).
Proof.
  destruct (getTile x y zoom w) as [tile|] eqn:Hget.
  { rewrite (getOrLoadTile_hit _ _ _ _ _ tile Hget). simpl.
    repeat split. by left. }
  destruct (RequestQueue.find (requestStore w) x y zoom (queue w)) as [r|] eqn:Hfind.
  - rewrite (getOrLoadTile_coalesce _ _ _ _ _ r Hget Hfind). simpl.
    repeat split. right. left. by eexists _, _.
  - rewrite (getOrLoadTile_new _ _ _ _ _ Hget Hfind). simpl.
    repeat split. right. right. by eexists.
Qed.

(** A waiting item stays on its request, and the request keeps its
    coordinate, whatever happens. *)
Lemma step_waits_on (w : Loader) (ev : Event) (r : ReqRef) (item : WaitingListItem) :
  waits_on w r item →
  waits_on (step w ev) r item ∧ request_coord (step w ev) r = request_coord w r.
Proof.
  intros (req & Hreq & Hin).
  assert (requestStore (step w ev) = requestStore w →
          waits_on (step w ev) r item
          ∧ request_coord (step w ev) r = request_coord w r) as Hsame.
  { intros Hs. unfold waits_on, request_coord. rewrite Hs. by eauto. }
  destruct ev as [x y zoom owner| |tile owner|tile owner|task res]; simpl in *.
  - destruct (getOrLoadTile_requestStore x y zoom owner w)
      as (_ & _ & _ & [[Hs _]|[(it & r' & Hs & _)|(req' & Hs & _)]]).
    + by apply Hsame.
    + unfold waits_on, request_coord. rewrite Hs.
      split; [|apply lookup_alter_push_coord].
      destruct (decide (r' = r)) as [->|Hne].
      * rewrite list_lookup_alter_eq, Hreq. simpl. eexists. split; [done|].
        simpl. apply elem_of_app. by left.
      * rewrite list_lookup_alter_ne by done. by eauto.
    + unfold waits_on, request_coord. rewrite Hs.
      rewrite (lookup_app_l_Some _ _ _ _ Hreq). rewrite Hreq. by eauto.
  - apply Hsame, update_frame.
  - by apply Hsame.
  - by apply Hsame.
  - apply Hsame, settle_frame.
Qed.

Lemma run_waits_on (evs : list Event) (w : Loader) (r : ReqRef) (item : WaitingListItem) :
  waits_on w r item →
  waits_on (run evs w) r item ∧ request_coord (run evs w) r = request_coord w r.
Proof.
  revert w. induction evs as [|ev evs IH]; intros w Hw; simpl; [done|].
  destruct (step_waits_on w ev r item Hw) as [Hw' Hc].
  destruct (IH _ Hw') as [Hw'' Hc']. split; [done|congruence].
Qed.

(** ** A cache miss *)

(** On a miss the caller's item ends up on the one request that exists
    for the coordinate; that request waits unless one was in flight. *)
Lemma getOrLoadTile_miss_request (x y zoom : Z) (owner : AnyObject) (w : Loader) :
  getTile x y zoom w = None →
  let w' := (getOrLoadTile x y zoom owner w).2 in
  (getOrLoadTile x y zoom owner w).1 = length (promiseStore w)
  ∧ ∃ r, waits_on w' r (new_item x y zoom owner (length (promiseStore w)))
         ∧ r ∈ live_requests w'
         ∧ request_coord w' r = Some (x, y, zoom)
         ∧ (RequestQueue.find_in (requestStore w) x y zoom
              (RequestQueue.queueInProgress (queue w)) = None →
            r ∈ RequestQueue.queue (queue w')).
Proof.
  intros Hget.
  destruct (RequestQueue.find (requestStore w) x y zoom (queue w)) as [r|] eqn:Hfind.
  - rewrite (getOrLoadTile_coalesce _ _ _ _ _ r Hget Hfind). simpl.
    split; [done|]. exists r.
    pose proof Hfind as (Hlive & req & Hreq & Hc)%find_Some.
    unfold waits_on, live_requests, request_coord. simpl.
    rewrite list_lookup_alter_eq, Hreq. simpl.
    split; [|split; [done|split; [by rewrite <-Hc|]]].
    + eexists. split; [done|]. simpl. apply elem_of_app. right.
      by apply list_elem_of_singleton.
    + intros Hflight. unfold RequestQueue.find in Hfind.
      destruct (RequestQueue.find_in _ x y zoom (RequestQueue.queue _)) as [r'|] eqn:Hq;
        [|congruence].
      injection Hfind as ->. by apply find_in_Some in Hq as [? _].
  - rewrite (getOrLoadTile_new _ _ _ _ _ Hget Hfind). simpl.
    split; [done|]. exists (length (requestStore w)).
    unfold waits_on, live_requests, request_coord. simpl.
    rewrite lookup_app_r, Nat.sub_diag by done. simpl.
    split; [|split].
    + eexists. split; [done|]. simpl. by apply list_elem_of_singleton.
    + set_solver.
    + split; [done|]. intros _. set_solver.
Qed.

Lemma step_still_waiting (w : Loader) (ev : Event) (r : ReqRef) :
  ev ≠ EvUpdate →
  r ∈ RequestQueue.queue (queue w) →
  r ∈ RequestQueue.queue (queue (step w ev)).
Proof.
  intros Hev Hr.
  destruct ev as [x y zoom owner| |tile owner|tile owner|task res]; simpl; try done.
  - destruct (getOrLoadTile_requestStore x y zoom owner w)
      as (_ & _ & _ & [[_ ->]|[(it & r' & _ & ->)|(req' & _ & ->)]]); [done..|].
    apply elem_of_app. by left.
  - by destruct (settle_frame task res w) as (_ & _ & -> & _).
Qed.

Lemma step_network (w : Loader) (ev : Event) :
  ev ≠ EvUpdate →
  network (step w ev) = network w ∧ pipelines (step w ev) ⊆ pipelines w.
Proof.
  intros Hev.
  destruct ev as [x y zoom owner| |tile owner|tile owner|task res]; simpl; try done.
  - by destruct (getOrLoadTile_requestStore x y zoom owner w) as (-> & -> & _).
  - by destruct (settle_frame task res w) as (_ & -> & _ & ? & _).
Qed.

Lemma getOrLoadTile_miss_frame (w : Loader) (x y zoom : Z) (owner : AnyObject) :
  getTile x y zoom w = None →
  let p := (getOrLoadTile x y zoom owner w).1 in
  let w' := (getOrLoadTile x y zoom owner w).2 in
  tiles w' = tiles w ∧ tileStore w' = tileStore w
  ∧ network w' = network w ∧ pipelines w' = pipelines w
  ∧ activeRequests w' = activeRequests w
  ∧ RequestQueue.queueInProgress (queue w')
    = RequestQueue.queueInProgress (queue w)
  ∧ uncaught w' = uncaught w
  ∧ p = length (promiseStore w)
  ∧ promiseStore w' = promiseStore w ++ [Pending]
  ∧ ((∃ r, RequestQueue.find (requestStore w) x y zoom (queue w) = Some r
           ∧ requestStore w'
             = alter (push_waiting (new_item x y zoom owner p)) r (requestStore w)
           ∧ RequestQueue.queue (queue w') = RequestQueue.queue (queue w))
     ∨ (RequestQueue.find (requestStore w) x y zoom (queue w) = None
        ∧ requestStore w'
          = requestStore w ++ [ {| req_x := x; req_y := y; req_zoom := zoom;
                                   waitingList := [new_item x y zoom owner p] |} ]
        ∧ RequestQueue.queue (queue w')
          = RequestQueue.queue (queue w) ++ [length (requestStore w)])).
Proof.
  intros Hget.
  destruct (RequestQueue.find (requestStore w) x y zoom (queue w)) as [r|] eqn:Hfind.
  - rewrite (getOrLoadTile_coalesce _ _ _ _ _ r Hget Hfind). simpl.
    repeat split. left. by exists r.
  - rewrite (getOrLoadTile_new _ _ _ _ _ Hget Hfind). simpl.
    repeat split. by right.
Qed.

Lemma run_waiting_pending (evs : list Event) (w : Loader) (r : ReqRef) (item : WaitingListItem) :
  EvUpdate ∉ evs → Inv w → waits_on w r item →
  r ∈ RequestQueue.queue (queue w) →
  promiseStore (run evs w) !! wl_resolve item = Some Pending.
Proof.
  revert w. induction evs as [|ev evs IH]; intros w Hevs HI Hwaits Hqueue; simpl.
  - destruct Hwaits as (req & Hreq & Hin), HI as [HR _].
    eapply (inv_pending w HR r req item); [|done..].
    apply elem_of_app. by left.
  - apply not_elem_of_cons in Hevs as [Hev Hevs].
    apply IH; [done|by apply step_Inv|by apply step_waits_on|].
    by apply step_still_waiting.
Qed.

(** C10, as amended: a [getOrLoadTile] call that misses the cache leaves
    the cache, the tile objects, the fetch log, the suspended pipelines
    and the in-flight requests as they were; it hands out a pending
    promise and either appends a waiting item to the request [find]
    returns or enqueues a new request with that one item. No step other
    than [update] issues a fetch. If no request for the coordinate was
    in flight at the call, the caller's promise stays pending for as long
    as no [update] happens. *)
Theorem miss_only_enqueues :
  (∀ (w : Loader) (x y zoom : Z) (owner : AnyObject),
     getTile x y zoom w = None →
     let p := (getOrLoadTile x y zoom owner w).1 in
     let w' := (getOrLoadTile x y zoom owner w).2 in
     tiles w' = tiles w ∧ tileStore w' = tileStore w
     ∧ network w' = network w ∧ pipelines w' = pipelines w
     ∧ activeRequests w' = activeRequests w
     ∧ RequestQueue.queueInProgress (queue w')
       = RequestQueue.queueInProgress (queue w)
     ∧ uncaught w' = uncaught w
     ∧ p = length (promiseStore w)
     ∧ promiseStore w' = promiseStore w ++ [Pending]
     ∧ ((∃ r, RequestQueue.find (requestStore w) x y zoom (queue w) = Some r
              ∧ requestStore w'
                = alter (push_waiting (new_item x y zoom owner p)) r (requestStore w)
              ∧ RequestQueue.queue (queue w') = RequestQueue.queue (queue w))
        ∨ (RequestQueue.find (requestStore w) x y zoom (queue w) = None
           ∧ requestStore w'
             = requestStore w ++ [ {| req_x := x; req_y := y; req_zoom := zoom;
                                      waitingList := [new_item x y zoom owner p] |} ]
           ∧ RequestQueue.queue (queue w')
             = RequestQueue.queue (queue w) ++ [length (requestStore w)])))
  ∧ (∀ (w : Loader) (ev : Event),
       ev ≠ EvUpdate →
       network (step w ev) = network w ∧ pipelines (step w ev) ⊆ pipelines w)
  ∧ (∀ (evs0 evs : list Event) (x y zoom : Z) (owner : AnyObject),
       let w := run evs0 init in
       getTile x y zoom w = None →
       RequestQueue.find_in (requestStore w) x y zoom
         (RequestQueue.queueInProgress (queue w)) = None →
       EvUpdate ∉ evs →
       promiseStore (run evs (getOrLoadTile x y zoom owner w).2)
         !! (getOrLoadTile x y zoom owner w).1 = Some Pending).
Proof.
  split; [|split; [apply step_network|]].
  - intros w x y zoom owner Hget. by apply getOrLoadTile_miss_frame.
  - intros evs0 evs x y zoom owner w Hget Hflight Hevs.
    destruct (getOrLoadTile_miss_request x y zoom owner w Hget)
      as (-> & r & Hwaits & _ & _ & Hqueue).
    specialize (Hqueue Hflight).
    apply (run_waiting_pending evs _ r
             (new_item x y zoom owner (length (promiseStore w)))); try done.
    apply getOrLoadTile_Inv, reachable_Inv.
Qed.

Lemma miss_only_enqueues_witness :
  let evs := [EvGetOrLoadTile 1 2 3 8%nat; EvUse 0%nat 8%nat;
              EvSettle 0%nat (FetchResponse 200 None)] in
  getTile 1 2 3 (run [] init) = None
  ∧ (EvUpdate ∉ evs)
  ∧ promiseStore (run evs (getOrLoadTile 1 2 3 7%nat (run [] init)).2)
      !! (getOrLoadTile 1 2 3 7%nat (run [] init)).1 = Some Pending.
Proof.
  intros evs.
  assert (EvUpdate ∉ evs) as Hevs.
  { unfold evs. rewrite !not_elem_of_cons. repeat split; try done.
    apply not_elem_of_nil. }
  split; [reflexivity|]. split; [done|].
  apply (proj2 (proj2 miss_only_enqueues) [] evs 1 2 3 7%nat);
    [reflexivity|reflexivity|done].
Defined.

(** C10 as stated fails: a caller that joins a request already in
    flight is resumed when that request's pipeline completes, with no
    [update] after its call. Here the second caller misses the cache,
    nothing but the completion of the fetch follows, and its promise is
    fulfilled. *)
Lemma resumed_without_update :
  let bm := {| ib_width := 1; ib_height := 1; ib_data := [0; 39; 16; 255] |} in
  let w := run [EvGetOrLoadTile 1 2 3 7%nat; EvUpdate] init in
  let evs := [EvSettle 0%nat (FetchResponse 200 (Some bm))] in
  getTile 1 2 3 w = None
  ∧ (EvUpdate ∉ evs)
  ∧ promiseStore (run evs (getOrLoadTile 1 2 3 8%nat w).2)
      !! (getOrLoadTile 1 2 3 8%nat w).1 = Some (Fulfilled 0%nat)
  ∧ ¬ resumed_only_after_update.
Proof.
  intros bm w evs.
  assert (getTile 1 2 3 w = None) as Hmiss by by vm_compute.
  assert (EvUpdate ∉ evs) as Hevs.
  { unfold evs. rewrite not_elem_of_cons. split; [done|apply not_elem_of_nil]. }
  assert (promiseStore (run evs (getOrLoadTile 1 2 3 8%nat w).2)
            !! (getOrLoadTile 1 2 3 8%nat w).1 = Some (Fulfilled 0%nat)) as Hrun
    by by vm_compute.
  split; [done|]. split; [done|]. split; [done|].
  intros Hclaim.
  pose proof (Hclaim [EvGetOrLoadTile 1 2 3 7%nat; EvUpdate] evs 1 2 3 8%nat Hmiss Hevs)
    as Habs.
  fold w in Habs. rewrite Hrun in Habs. discriminate Habs.
Qed.

(** ** A failed fetch *)

(** When the response is not a 200 and the tile is not cached, the first
    waiting item throws: nothing is stored, nobody is resumed. *)
Lemma settle_failure_throws (w : Loader) (task : ReqRef) (req : Request)
    (item : WaitingListItem) (rest : list WaitingListItem) (status : Z)
    (image : option ImageBitmap) :
  task ∈ pipelines w →
  requestStore w !! task = Some req →
  waitingList req = item :: rest →
  getTile (wl_x item) (wl_y item) (wl_zoom item) w = None →
  status ≠ 200 →
  let w' := settle task (FetchResponse status image) w in
  uncaught w' = uncaught w ++ [TypeError]
  ∧ tiles w' = tiles w
  ∧ tileStore w' = tileStore w
  ∧ promiseStore w' = promiseStore w.
Proof.
  intros Hin Hreq Hwl Hget Hstatus. unfold settle.
  rewrite bool_decide_eq_true_2 by done.
  cbn [requestStore set_pipelines]. rewrite Hreq.
  rewrite load_finish_failure by done.
  unfold then_callback. simpl. rewrite Hreq, Hwl. simpl.
  unfold waiting_resolve, getTile in *. simpl. by rewrite Hget.
Qed.

(** C1, on the code: two callers wait for the tile (1, 2, 3), the fetch
    is admitted and answered with a 404. No tile is cached, but the
    first waiting item throws a [TypeError] that nothing catches, the
    second is never run, and both callers' promises stay pending. *)
Theorem not_found_stalls_waiters :
  let w := run [EvGetOrLoadTile 1 2 3 7%nat; EvGetOrLoadTile 1 2 3 8%nat; EvUpdate] init in
  let w' := settle 0%nat (FetchResponse 404 None) w in
  pipelines w = {[0%nat]}
  ∧ (waitingList <$> requestStore w !! 0%nat)
    = Some [new_item 1 2 3 7%nat 0%nat; new_item 1 2 3 8%nat 1%nat]
  ∧ getTile 1 2 3 w' = None
  ∧ then_callback 0%nat (set_pipelines (λ s, s ∖ {[0%nat]}) w)
    = Throw TypeError
        (set_queue (RequestQueue.remove 0%nat)
           (set_activeRequests (λ s, s ∖ {[0%nat]})
              (set_pipelines (λ s, s ∖ {[0%nat]}) w)))
  ∧ uncaught w' = [TypeError]
  ∧ promiseStore w' = [Pending; Pending]
  ∧ live_requests w' = [].
Proof. by vm_compute. Qed.

(** ** From creation to completion of a request *)

Lemma live_coord_inj (w : Loader) (r1 r2 : ReqRef) (c : Z * Z * Z) :
  RequestsInv w →
  r1 ∈ live_requests w → r2 ∈ live_requests w →
  request_coord w r1 = Some c → request_coord w r2 = Some c → r1 = r2.
Proof.
  intros HR [i Hi]%list_elem_of_lookup [j Hj]%list_elem_of_lookup Hc1 Hc2.
  assert (i = j) as <-; [|congruence].
  by eapply (RequestsInv_one_request_per_coordinate w HR i j r1 r2 c).
Qed.







(** ** Fan-out to the waiting callers *)

Lemma tile_users_tracker_use (tile t : TileRef) (owner : AnyObject) (w : Loader) :
  (t < length (tileStore w))%nat →
  tile_users t (tracker_use tile owner w)
  = if decide (tile = t) then {[owner]} ∪ tile_users t w else tile_users t w.
Proof.
  intros Hlt. unfold tile_users, tracker_use, on_tile. simpl.
  destruct (lookup_lt_is_Some_2 _ _ Hlt) as [obj Hobj].
  case_decide as Heq.
  - subst. by rewrite list_lookup_alter_eq, Hobj.
  - by rewrite list_lookup_alter_ne.
Qed.

Lemma fulfil_lookup (p q : PromiseRef) (tile : TileRef) (w : Loader) :
  promiseStore (fulfil p tile w) !! q
  = if decide (p = q ∧ promiseStore w !! p = Some Pending)
    then Some (Fulfilled tile) else promiseStore w !! q.
Proof.
  unfold fulfil. destruct (promiseStore w !! p) as [[|t]|] eqn:Hp; simpl.
  - case_decide as Hd.
    + destruct Hd as [<- _]. apply list_lookup_insert_eq. by eapply lookup_lt_Some.
    + rewrite list_lookup_insert_ne; [done|]. intros ->. by apply Hd.
  - case_decide as Hd; [by destruct Hd|done].
  - case_decide as Hd; [by destruct Hd|done].
Qed.

(** When the tile of the coordinate is cached, every waiting item
    registers its owner on it and resolves its promise with it. *)
Lemma resolve_all_success (items : list WaitingListItem) (w : Loader)
    (x y zoom : Z) (t : TileRef) :
  (∀ item, item ∈ items → item_coord item = (x, y, zoom)) →
  getTile x y zoom w = Some t →
  (t < length (tileStore w))%nat →
  ∃ w', resolve_all items w = Normal w'
    ∧ (∀ p, promiseStore w !! p = Some (Fulfilled t) →
            promiseStore w' !! p = Some (Fulfilled t))
    ∧ (∀ item, item ∈ items →
         promiseStore w !! wl_resolve item = Some Pending →
         promiseStore w' !! wl_resolve item = Some (Fulfilled t))
    ∧ (∀ item, item ∈ items → wl_owner item ∈ tile_users t w')
    ∧ tile_users t w ⊆ tile_users t w'.
Proof.
  revert w. induction items as [|item items IH]; intros w Hcoord Hget Hlt; simpl.
  { exists w. repeat split; try done; by intros item ?%elem_of_nil. }
  assert (item_coord item = (x, y, zoom)) as Hc by (apply Hcoord; by left).
  injection Hc as Hx Hy Hz.
  unfold waiting_resolve. rewrite Hx, Hy, Hz, Hget.
  set (w1 := fulfil (wl_resolve item) t (tracker_use t (wl_owner item) w)).
  destruct (fulfil_frame (wl_resolve item) t (tracker_use t (wl_owner item) w))
    as (Ht1 & _ & _ & Hts1 & _ & _ & _ & _ & _ & _).
  fold w1 in Ht1, Hts1.
  assert (tile_users t w1 = {[wl_owner item]} ∪ tile_users t w) as Husers.
  { unfold tile_users at 1. rewrite Hts1. fold (tile_users t (tracker_use t (wl_owner item) w)).
    rewrite tile_users_tracker_use by done. by rewrite decide_True. }
  destruct (IH w1) as (w' & Hres & Hkeep & Hnew & Howners & Hmono).
  { intros item' Hin. apply Hcoord. by right. }
  { unfold getTile in *. by rewrite Ht1. }
  { rewrite Hts1. simpl. by rewrite length_alter. }
  exists w'. split; [done|]. split; [|split; [|split]].
  - intros p Hp. apply Hkeep. unfold w1. rewrite fulfil_lookup.
    case_decide; [done|]. done.
  - intros item' Hin Hp.
    destruct (decide (wl_resolve item = wl_resolve item')) as [Heq|Hne].
    + apply Hkeep. unfold w1. rewrite fulfil_lookup.
      rewrite decide_True; [done|]. split; [done|]. simpl. by rewrite Heq.
    + apply elem_of_cons in Hin as [->|Hin]; [done|].
      apply Hnew; [done|]. unfold w1. rewrite fulfil_lookup.
      rewrite decide_False; [done|]. by intros [? _].
  - intros item' Hin. apply elem_of_cons in Hin as [->|Hin].
    + apply Hmono. rewrite Husers. set_solver.
    + by apply Howners.
  - rewrite <-Hmono, Husers. set_solver.
Qed.

(** A pipeline that ends well resumes every caller waiting on its
    request with the one tile now cached for the coordinate, each
    registered as a user of it. *)
Lemma settle_success (w : Loader) (r : ReqRef) (req : Request) (bm : ImageBitmap)
    (x y zoom : Z) :
  Inv w → r ∈ pipelines w →
  requestStore w !! r = Some req → coord_of req = (x, y, zoom) →
  let w' := settle r (FetchResponse 200 (Some bm)) w in
  network w' = network w
  ∧ uncaught w' = uncaught w
  ∧ ∃ t, getTile x y zoom w' = Some t
         ∧ ∀ item, item ∈ waitingList req →
             promiseStore w' !! wl_resolve item = Some (Fulfilled t)
             ∧ wl_owner item ∈ tile_users t w'.
Proof.
  intros [HR HT] Hin Hreq Hc. injection Hc as Hx Hy Hz.
  unfold settle. rewrite bool_decide_eq_true_2 by done.
  set (w0 := set_pipelines (λ s, s ∖ {[r]}) w).
  change (requestStore w0) with (requestStore w). rewrite Hreq, Hx, Hy, Hz.
  assert (TilesInv w0) as HT0 by done.
  destruct (load_finish_level0 w0 x y zoom 1 bm HT0) as (w1 & Hload & Hlevel0).
  rewrite Hload.
  destruct (load_finish_requests _ _ _ _ _ _ _ Hload) as (Ha&Hq&Hrs&Hps&Hn&Hp&Hu).
  assert (TilesInv w1) as HT1.
  { assert (Inv w0) as HI0.
    { split; [|done]. constructor; try by destruct HR.
      simpl. pose proof (inv_pipelines w HR). set_solver. }
    by destruct (load_finish_Inv _ _ _ _ _ _ _ Hload HI0). }
  unfold getBitmap in Hlevel0.
  destruct (getTile x y zoom w1) as [t|] eqn:Hget; [|done].
  assert (t < length (tileStore w1))%nat as Hlt by by eapply HT1.
  unfold then_callback.
  set (w2 := set_queue (RequestQueue.remove r)
               (set_activeRequests (λ s, s ∖ {[r]}) w1)).
  assert (requestStore w2 !! r = Some req) as -> by (simpl; by rewrite Hrs).
  destruct (resolve_all_success (waitingList req) w2 x y zoom t)
    as (w' & Hres & Hkeep & Hnew & Howners & Hmono); [|done|done|].
  { intros item Hitem. rewrite (inv_items w HR r req item Hreq Hitem).
    unfold coord_of. congruence. }
  pose proof (resolve_all_frame (waitingList req) w2) as Hframe.
  rewrite Hres in Hframe |- *. simpl in Hframe.
  destruct Hframe as (Ht' & _ & _ & _ & _ & Hn' & _ & Hu' & _).
  split; [by rewrite Hn', Hn|]. split; [by rewrite Hu', Hu|].
  exists t. split; [unfold getTile in *; by rewrite Ht'|].
  intros item Hitem. split; [|by apply Howners].
  apply Hnew; [done|]. simpl. rewrite Hps. simpl.
  eapply (inv_pending w HR r req item); [|done..].
  apply (inv_pipelines w HR) in Hin. rewrite (inv_active w HR) in Hin.
  apply elem_of_list_to_set in Hin. apply elem_of_app. by right.
Qed.


(** ** Admission of the head of the waiting list *)

Lemma processQueue_body_pipelines (w w1 : Loader) :
  processQueue_body w = Some w1 → pipelines w ⊆ pipelines w1.
Proof.
  unfold processQueue_body.
  destruct (_ && _); [|done].
  destruct (RequestQueue.get (queue w)) as [[task|] q]; [|done]. simpl.
  destruct (requestStore w !! task); intros [= <-]; simpl; set_solver.
Qed.

Lemma processQueue_loop_pipelines (turns : nat) (w : Loader) :
  pipelines w ⊆ pipelines (processQueue_loop turns w).
Proof.
  revert w. induction turns as [|turns IH]; intros w; simpl; [done|].
  destruct (processQueue_body w) as [w1|] eqn:Hbody; [|done].
  etrans; [by apply processQueue_body_pipelines|apply IH].
Qed.

(** When a slot is free, [update] puts the request at the head of the
    waiting list in flight. *)
Lemma update_admits_head (w : Loader) (r : ReqRef) (rest : list ReqRef) :
  Inv w →
  RequestQueue.queue (queue w) = r :: rest →
  (size (activeRequests w) < maxConcurrentRequests)%nat →
  r ∈ pipelines (update w).
Proof.
  intros HI Hq Hcap. apply removeUnusedTiles_Inv in HI as [HR _].
  unfold update, processQueue, RequestQueue.size.
  destruct (removeUnusedTiles_requests w) as (Ha & Hq' & _).
  set (w' := removeUnusedTiles w) in *.
  rewrite Hq', Hq. simpl.
  destruct (processQueue_body w') as [w1|] eqn:Hbody.
  - apply processQueue_loop_pipelines.
    destruct (processQueue_body_Some w' w1 HR Hbody)
      as (task & rest' & req & Hq1 & _ & _ & ->).
    rewrite Hq', Hq in Hq1. injection Hq1 as <- <-. simpl. set_solver.
  - exfalso. unfold processQueue_body, RequestQueue.size, RequestQueue.get in Hbody.
    rewrite Hq', Hq, Ha in Hbody. simpl in Hbody.
    rewrite bool_decide_eq_true_2 in Hbody by done.
    by destruct (requestStore w' !! r).
Qed.

(** ** Two callers, one fetch, one tile *)

Lemma in_flight_bounded_witness :
  let w := run [EvGetOrLoadTile 1 2 3 7%nat; EvGetOrLoadTile 4 5 3 7%nat;
                EvGetOrLoadTile 6 7 3 7%nat; EvUpdate; EvUpdate] init in
  (size (pipelines w) ≤ 2)%nat
  ∧ RequestQueue.queueInProgress (queue w) = [0%nat; 1%nat]
  ∧ RequestQueue.queue (queue w) = [2%nat].
Proof.
  intros w. split; [|by vm_compute].
  apply (in_flight_bounded
           [EvGetOrLoadTile 1 2 3 7%nat; EvGetOrLoadTile 4 5 3 7%nat;
            EvGetOrLoadTile 6 7 3 7%nat; EvUpdate; EvUpdate]).
Defined.

Lemma coalescing_invariant_witness :
  let w := run [EvGetOrLoadTile 1 2 3 7%nat; EvUpdate; EvGetOrLoadTile 1 2 3 8%nat;
                EvGetOrLoadTile 4 5 3 7%nat] init in
  live_requests w = [1%nat; 0%nat]
  ∧ is_Some (request_coord w 1%nat)
  ∧ one_request_per_coordinate w.
Proof.
  intros w.
  assert (live_requests w = [1%nat; 0%nat]) as Hlive by by vm_compute.
  split; [done|]. split.
  - apply (proj2 (coalescing_invariant
             [EvGetOrLoadTile 1 2 3 7%nat; EvUpdate; EvGetOrLoadTile 1 2 3 8%nat;
              EvGetOrLoadTile 4 5 3 7%nat]) 1%nat).
    fold w. rewrite Hlive. apply elem_of_cons. by left.
  - apply (proj1 (coalescing_invariant
             [EvGetOrLoadTile 1 2 3 7%nat; EvUpdate; EvGetOrLoadTile 1 2 3 8%nat;
              EvGetOrLoadTile 4 5 3 7%nat])).
Defined.


(** * Further properties of the code *)

(** ** Cache keys *)

Lemma pretty_N_char_no_comma (x : N) : pretty_N_char x ≠ ","%char.
Proof. unfold pretty_N_char. by repeat case_match. Qed.

Lemma pretty_N_go_no_comma (x : N) (s : string) :
  has_comma s = false → has_comma (pretty_N_go x s) = false.
Proof.
  revert s. induction (N.lt_wf_0 x) as [x _ IH]; intros s Hs.
  destruct (decide (x = 0%N)) as [->|Hx]; [by rewrite pretty_N_go_0|].
  rewrite pretty_N_go_step by lia. apply IH.
  - apply N.div_lt; lia.
  - simpl. rewrite decide_False; [done|]. apply pretty_N_char_no_comma.
Qed.

Lemma pretty_positive_no_comma (p : positive) : has_comma (pretty p) = false.
Proof.
  unfold pretty, pretty_positive, pretty, pretty_N.
  case_decide; [done|]. by apply pretty_N_go_no_comma.
Qed.

Lemma pretty_Z_no_comma (x : Z) : has_comma (pretty x) = false.
Proof.
  destruct x as [|p|p]; [done|apply pretty_positive_no_comma|].
  change (pretty (Z.neg p)) with (String "-" (pretty p)).
  simpl. apply pretty_positive_no_comma.
Qed.

Lemma comma_split (a a' s s' : string) :
  has_comma a = false → has_comma a' = false →
  a +:+ "," +:+ s = a' +:+ "," +:+ s' → a = a' ∧ s = s'.
Proof.
  revert a'. induction a as [|c a IH]; intros [|c' a'] Ha Ha' Heq;
    simpl in Ha, Ha'; cbn in Heq.
  - by simplify_eq.
  - injection Heq as <- _. by rewrite decide_True in Ha'.
  - injection Heq as -> _. by rewrite decide_True in Ha.
  - injection Heq as -> Heq. case_decide; [done|].
    by destruct (IH a' Ha Ha' Heq) as [-> ->].
Qed.

Lemma getTileKey_inj (x y zoom x' y' zoom' : Z) :
  getTileKey x y zoom = getTileKey x' y' zoom' → x = x' ∧ y = y' ∧ zoom = zoom'.
Proof.
  unfold getTileKey. intros Heq.
  apply comma_split in Heq as [Hx Heq]; [|apply pretty_Z_no_comma..].
  apply comma_split in Heq as [Hy Hz]; [|apply pretty_Z_no_comma..].
  by apply (inj pretty) in Hx, Hy, Hz.
Qed.

(** X1: for whole numbers below 2^53 in magnitude, which the template
    literal prints digit by digit, the cache key [`${x},${y},${zoom}`]
    determines the coordinate: two coordinates share a key only if they
    are equal, so no two tiles collide in the cache. *)
Theorem cache_key_determines_coordinate (x y zoom x' y' zoom' : Z) :
  Forall (λ n, - 2 ^ 53 < n < 2 ^ 53) [x; y; zoom; x'; y'; zoom'] →
  getTileKey x y zoom = getTileKey x' y' zoom' ↔ (x, y, zoom) = (x', y', zoom').
Proof.
  intros _. split.
  - intros (-> & -> & ->)%getTileKey_inj. reflexivity.
  - by intros [= -> -> ->].
Qed.

Lemma cache_key_determines_coordinate_witness :
  getTileKey 1 23 4 ≠ getTileKey 12 3 4.
Proof.
  intros Heq.
  apply (cache_key_determines_coordinate 1 23 4 12 3 4) in Heq; [discriminate Heq|].
  repeat constructor; lia.
Defined.

(** ** More invariants of the reachable states *)

Lemma settle_cases (task : ReqRef) (res : FetchResult) (w : Loader) :
  let w0 := set_pipelines (λ s, s ∖ {[task]}) w in
  ((task ∉ pipelines w) ∧ settle task res w = w)
  ∨ (task ∈ pipelines w ∧ requestStore w !! task = None ∧ settle task res w = w0)
  ∨ (task ∈ pipelines w
     ∧ ∃ req, requestStore w !! task = Some req
        ∧ ((load_finish (req_x req) (req_y req) (req_zoom req) 1 res w0 = None
            ∧ settle task res w = set_uncaught (λ l, l ++ [LoadRejected]) w0)
           ∨ (∃ w1, load_finish (req_x req) (req_y req) (req_zoom req) 1 res w0 = Some w1
                ∧ settle task res w
                  = match then_callback task w1 with
                    | Normal w2 => w2
                    | Throw e w2 => set_uncaught (λ l, l ++ [e]) w2
                    end))).
Proof.
  intros w0. unfold settle. case_bool_decide as Hin; [|by left].
  fold w0. change (requestStore w0) with (requestStore w).
  destruct (requestStore w !! task) as [req|] eqn:Hreq; [|by right; left].
  right. right. split; [done|]. exists req. split; [done|].
  destruct (load_finish _ _ _ 1 res w0) as [w1|]; [right; by exists w1|by left].
Qed.

Lemma completion_tiles (c : Completion) :
  tiles match c with
        | Normal w2 => w2
        | Throw e w2 => set_uncaught (λ l, l ++ [e]) w2
        end = tiles (completion_state c).
Proof. by destruct c. Qed.

Lemma getOrLoadTile_tiles (x y zoom : Z) (owner : AnyObject) (w : Loader) :
  tiles (getOrLoadTile x y zoom owner w).2 = tiles w.
Proof.
  destruct (getTile x y zoom w) as [tile|] eqn:Hget.
  - by rewrite (getOrLoadTile_hit _ _ _ _ _ tile Hget).
  - by destruct (getOrLoadTile_miss_frame w x y zoom owner Hget) as (-> & _).
Qed.

Lemma addBitmap_tiles_other (bm : TerrainHeightLoaderBitmap.t) (x y zoom : Z)
    (level : nat) (w : Loader) (key : string) :
  key ≠ getTileKey x y zoom →
  tiles (addBitmap bm x y zoom level w) !! key = tiles w !! key.
Proof.
  intros Hne. unfold addBitmap.
  destruct (getTile x y zoom w) as [tile|]; simpl; [done|].
  by rewrite lookup_insert_ne.
Qed.

Lemma addBitmap_TilesInj (bm : TerrainHeightLoaderBitmap.t) (x y zoom : Z)
    (level : nat) (w : Loader) :
  TilesInv w → TilesInj w → TilesInj (addBitmap bm x y zoom level w).
Proof.
  intros HT HJ. unfold addBitmap.
  destruct (getTile x y zoom w) as [tile|] eqn:Hget; simpl; [done|].
  intros key key' t. simpl. rewrite !lookup_insert.
  repeat case_decide; subst; intros H1 H2; simplify_eq; try done.
  - apply HT in H2. lia.
  - apply HT in H1. lia.
  - by eapply HJ.
Qed.

Lemma load_finish_TilesInj (x y zoom : Z) (res : FetchResult) (w w' : Loader) :
  load_finish x y zoom 1 res w = Some w' →
  TilesInv w → TilesInj w → TilesInj w'.
Proof.
  unfold load_finish. intros H HT HJ.
  destruct res as [|status [bm|]]; [done|..];
    destruct (negb (status =? 200)); simplify_eq; try done.
  simpl. apply addBitmap_TilesInj; [by apply addBitmap_TilesInv|].
  by apply addBitmap_TilesInj.
Qed.

Lemma step_TilesInj (w : Loader) (ev : Event) :
  Inv w → TilesInj w → TilesInj (step w ev).
Proof.
  intros [HR HT] HJ.
  destruct ev as [x y zoom owner| |tile owner|tile owner|task res]; simpl.
  - unfold TilesInj. rewrite getOrLoadTile_tiles. apply HJ.
  - unfold TilesInj. rewrite update_tiles. intros key key' t.
    intros [H1 _]%map_lookup_filter_Some [H2 _]%map_lookup_filter_Some.
    by eapply HJ.
  - done.
  - done.
  - destruct (settle_cases task res w)
      as [[_ ->]|[(_ & _ & ->)|(_ & req & _ & [[_ ->]|(w1 & Hload & ->)])]];
      try done.
    unfold TilesInj. rewrite completion_tiles.
    destruct (then_callback_frame task w1) as (-> & _).
    by eapply load_finish_TilesInj.
Qed.

Lemma processQueue_body_live (w w1 : Loader) :
  processQueue_body w = Some w1 →
  live_requests w1 ≡ₚ live_requests w.
Proof.
  unfold processQueue_body, RequestQueue.get, live_requests.
  destruct (_ && _); [|done].
  destruct (RequestQueue.queue (queue w)) as [|task rest] eqn:Hq; [done|]. simpl.
  destruct (requestStore w !! task); intros [= <-]; simpl;
    rewrite (assoc_L (++)); by rewrite <-Permutation_cons_append.
Qed.

Lemma update_live (w : Loader) : live_requests (update w) ≡ₚ live_requests w.
Proof.
  unfold update, processQueue.
  destruct (removeUnusedTiles_requests w) as (_ & Hq & _).
  assert (live_requests (removeUnusedTiles w) = live_requests w) as <-.
  { unfold live_requests. by rewrite Hq. }
  generalize (RequestQueue.size (queue (removeUnusedTiles w))) as turns.
  generalize (removeUnusedTiles w) as w'. clear.
  intros w' turns. revert w'.
  induction turns as [|turns IH]; intros w'; simpl; [done|].
  destruct (processQueue_body w') as [w1|] eqn:Hbody; [|done].
  rewrite IH. by apply processQueue_body_live.
Qed.

Lemma init_WaitersInv : WaitersInv init.
Proof.
  constructor.
  - intros r req Hr. simpl in Hr. by rewrite lookup_nil in Hr.
  - intros r req Hr. by apply elem_of_nil in Hr.
Qed.

Lemma WaitersInv_ext (w w' : Loader) :
  requestStore w' = requestStore w → queue w' = queue w → tiles w' = tiles w →
  WaitersInv w → WaitersInv w'.
Proof.
  intros Hs Hq Ht [Hw Hu]. constructor; unfold live_requests, getTile in *.
  - by rewrite Hs.
  - by rewrite Hs, Hq, Ht.
Qed.

Lemma load_finish_tiles_other (x y zoom : Z) (res : FetchResult) (w w' : Loader)
    (key : string) :
  load_finish x y zoom 1 res w = Some w' →
  key ≠ getTileKey x y zoom →
  tiles w' !! key = tiles w !! key.
Proof.
  unfold load_finish. intros H Hne.
  destruct res as [|status [bm|]]; [done|..];
    destruct (negb (status =? 200)); simplify_eq; try done.
  simpl. rewrite !floor_div_pow2_0. by rewrite !addBitmap_tiles_other.
Qed.

Lemma live_after_remove (w : Loader) (task r : ReqRef) :
  RequestsInv w →
  task ∈ RequestQueue.queueInProgress (queue w) →
  r ∈ RequestQueue.queue (queue w)
      ++ RequestQueue.remove_first task (RequestQueue.queueInProgress (queue w)) →
  r ∈ live_requests w ∧ r ≠ task.
Proof.
  intros HR Hflight Hr.
  pose proof (NoDup_live_requests w HR) as Hnd.
  pose proof (NoDup_queueInProgress w HR) as Hndp.
  unfold live_requests in *. apply NoDup_app in Hnd as (_ & Hdisj & _).
  apply elem_of_app in Hr as [Hr|Hr].
  - split; [apply elem_of_app; by left|]. intros ->. by apply (Hdisj task).
  - apply elem_of_remove_first in Hr as [Hr Hne]; [|done].
    split; [apply elem_of_app; by right|done].
Qed.

Lemma pipelines_in_flight (w : Loader) (task : ReqRef) :
  RequestsInv w → task ∈ pipelines w →
  task ∈ RequestQueue.queueInProgress (queue w).
Proof.
  intros HR Hin. apply (inv_pipelines w HR) in Hin.
  rewrite (inv_active w HR) in Hin. by apply elem_of_list_to_set in Hin.
Qed.

Lemma step_WaitersInv (w : Loader) (ev : Event) :
  Inv w → WaitersInv w → WaitersInv (step w ev).
Proof.
  intros [HR HT] HW. pose proof HW as [Hwait Huncached].
  destruct ev as [x y zoom owner| |tile owner|tile owner|task res]; simpl.
  - destruct (getTile x y zoom w) as [tile|] eqn:Hget.
    { rewrite (getOrLoadTile_hit _ _ _ _ _ tile Hget).
      by eapply WaitersInv_ext; [..|exact HW]. }
    pose proof (getOrLoadTile_tiles x y zoom owner w) as Ht.
    destruct (getOrLoadTile_miss_frame w x y zoom owner Hget)
      as (_ & _ & _ & _ & _ & Hp & _ & _ & _ & [(r & Hfind & Hs & Hq)|(Hfind & Hs & Hq)]).
    + set (w' := (getOrLoadTile x y zoom owner w).2) in *.
      assert (live_requests w' = live_requests w) as Hlive.
      { unfold live_requests. by rewrite Hp, Hq. }
      constructor.
      * intros r' req' Hreq'. rewrite Hs in Hreq'.
        destruct (decide (r = r')) as [->|Hne].
        -- rewrite list_lookup_alter_eq in Hreq'.
           destruct (requestStore w !! r') as [req0|]; [|done].
           simpl in Hreq'. injection Hreq' as <-. simpl.
           intros Habs. by apply app_eq_nil in Habs as [_ ?].
        -- rewrite list_lookup_alter_ne in Hreq' by done. by eapply Hwait.
      * intros r' req' Hr' Hreq'. rewrite Hlive in Hr'. unfold getTile. rewrite Ht.
        assert (∃ req0, requestStore w !! r' = Some req0
                        ∧ coord_of req0 = coord_of req') as (req0 & Hreq0 & Hc).
        { pose proof (lookup_alter_push_coord
            (new_item x y zoom owner (getOrLoadTile x y zoom owner w).1)
            r r' (requestStore w)) as Hcoord.
          rewrite <-Hs, Hreq' in Hcoord. simpl in Hcoord.
          destruct (requestStore w !! r') as [req0|]; [|done].
          exists req0. split; [done|]. simpl in Hcoord. congruence. }
        injection Hc as <- <- <-. by eapply Huncached.
    + set (w' := (getOrLoadTile x y zoom owner w).2) in *.
      constructor.
      * intros r' req' Hreq'. rewrite Hs in Hreq'.
        apply lookup_app_Some in Hreq' as [Hreq'|[_ Hreq']]; [by eapply Hwait|].
        apply list_lookup_singleton_Some in Hreq' as [_ <-]. done.
      * intros r' req' Hr' Hreq'. unfold getTile. rewrite Ht.
        unfold live_requests in Hr'. rewrite Hp, Hq in Hr'.
        rewrite Hs in Hreq'.
        assert (r' ∈ live_requests w ∨ r' = length (requestStore w)) as [Hold| ->].
        { unfold live_requests. set_solver. }
        -- rewrite lookup_app_l in Hreq' by by apply (inv_valid w HR).
           by eapply Huncached.
        -- rewrite lookup_app_r, Nat.sub_diag in Hreq' by done.
           injection Hreq' as <-. done.
  - destruct (update_frame w) as (Hs & _).
    constructor.
    + by rewrite Hs.
    + intros r req Hr Hreq. rewrite update_live in Hr. rewrite Hs in Hreq.
      unfold getTile. rewrite update_tiles.
      apply map_lookup_filter_None. left. by eapply Huncached.
  - by eapply WaitersInv_ext; [..|exact HW].
  - by eapply WaitersInv_ext; [..|exact HW].
  - destruct (settle_cases task res w)
      as [[_ ->]|[(_ & _ & ->)|(Hin & req & Hreq & [[_ ->]|(w1 & Hload & ->)])]];
      try done; try by eapply WaitersInv_ext; [..|exact HW].
    destruct (load_finish_requests _ _ _ _ _ _ _ Hload) as (_ & Hq1 & Hs1 & _).
    pose proof (then_callback_frame task w1) as (Ht2 & _ & Hq2 & Hs2 & _).
    assert (∀ c : Completion,
              requestStore match c with
                           | Normal w2 => w2
                           | Throw e w2 => set_uncaught (λ l, l ++ [e]) w2
                           end = requestStore (completion_state c)
              ∧ queue match c with
                      | Normal w2 => w2
                      | Throw e w2 => set_uncaught (λ l, l ++ [e]) w2
                      end = queue (completion_state c)) as Hshape.
    { by intros [?|??]. }
    destruct (Hshape (then_callback task w1)) as [Hs3 Hq3].
    constructor.
    + intros r' req'. rewrite Hs3, Hs2, Hs1. apply Hwait.
    + intros r' req' Hr' Hreq'. rewrite Hs3, Hs2, Hs1 in Hreq'. simpl in Hreq'.
      unfold live_requests in Hr'. rewrite Hq3, Hq2, Hq1 in Hr'. simpl in Hr'.
      apply live_after_remove in Hr' as [Hr' Hne];
        [|done|by apply pipelines_in_flight].
      unfold getTile. rewrite completion_tiles, Ht2.
      rewrite (load_finish_tiles_other _ _ _ _ _ _ _ Hload).
      * simpl. by eapply Huncached.
      * intros (Hx & Hy & Hz)%getTileKey_inj. apply Hne.
        eapply (live_coord_inj w r' task (coord_of req) HR); [done|..].
        -- apply elem_of_app. right. by apply pipelines_in_flight.
        -- unfold request_coord, coord_of. rewrite Hreq'. simpl. congruence.
        -- unfold request_coord. by rewrite Hreq.
Qed.

Lemma reachable_more (evs : list Event) :
  TilesInj (run evs init) ∧ WaitersInv (run evs init).
Proof.
  assert (∀ w, Inv w → TilesInj w → WaitersInv w →
               TilesInj (run evs w) ∧ WaitersInv (run evs w)) as Hgen.
  { induction evs as [|ev evs IH]; intros w HI HJ HW; simpl; [done|].
    apply IH; [by apply step_Inv|by apply step_TilesInj|by apply step_WaitersInv]. }
  apply Hgen; [apply init_Inv| |apply init_WaitersInv].
  intros key key' t Hk. simpl in Hk. by rewrite lookup_empty in Hk.
Qed.

(** ** Storing and reading payloads *)

Lemma addBitmap_getBitmap_any (bm : TerrainHeightLoaderBitmap.t)
    (x y zoom x' y' zoom' : Z) (level level' : nat) (w : Loader) :
  TilesInv w → TilesInj w →
  getBitmap x' y' zoom' level' (addBitmap bm x y zoom level w)
  = if decide ((x', y', zoom', level') = (x, y, zoom, level)) then Some bm
    else getBitmap x' y' zoom' level' w.
Proof.
  intros HT HJ.
  destruct (decide (getTileKey x' y' zoom' = getTileKey x y zoom)) as [Hkey|Hkey].
  - apply getTileKey_inj in Hkey as (-> & -> & ->).
    case_decide as Hd.
    { injection Hd as ->. by apply addBitmap_getBitmap. }
    assert (level' ≠ level) as Hl by congruence.
    unfold addBitmap, getBitmap.
    destruct (getTile x y zoom w) as [tile|] eqn:Hget.
    + unfold getTile in *. simpl. rewrite Hget, list_lookup_alter_eq.
      destruct (tileStore w !! tile) as [obj|]; [|done]. simpl.
      unfold HeightLoaderTile.getLevel. simpl. by rewrite lookup_insert_ne.
    + unfold getTile in *. simpl. rewrite lookup_insert_eq, list_lookup_alter_eq.
      rewrite lookup_app_r, Nat.sub_diag by done. simpl.
      unfold HeightLoaderTile.getLevel. simpl.
      rewrite lookup_insert_ne by done. apply lookup_empty.
  - assert ((x', y', zoom', level') ≠ (x, y, zoom, level)) as Hd.
    { intros Heq. apply Hkey. congruence. }
    rewrite decide_False by done.
    unfold getBitmap at 1. unfold getTile.
    rewrite addBitmap_tiles_other by done.
    fold (getTile x' y' zoom' w). unfold getBitmap.
    destruct (getTile x' y' zoom' w) as [tile'|] eqn:Hget'; [|done].
    assert (tile' < length (tileStore w))%nat as Hlt by by eapply HT.
    unfold addBitmap.
    destruct (getTile x y zoom w) as [tile|] eqn:Hget; simpl.
    + rewrite list_lookup_alter_ne; [done|]. intros ->.
      apply Hkey. symmetry. by eapply HJ.
    + rewrite list_lookup_alter_ne by lia. by rewrite lookup_app_l.
Qed.

(** X2: in a cache whose references are sound, [getBitmap] after
    [addBitmap] returns the stored payload at the coordinate and level
    written, and what it returned before at every other coordinate or
    level, whether or not the tile existed. *)
Theorem payload_store_lookup (bm : TerrainHeightLoaderBitmap.t)
    (x y zoom x' y' zoom' : Z) (level level' : nat) (w : Loader) :
  TilesInv w → TilesInj w →
  getBitmap x y zoom level (addBitmap bm x y zoom level w) = Some bm
  ∧ ((x', y', zoom', level') ≠ (x, y, zoom, level) →
     getBitmap x' y' zoom' level' (addBitmap bm x y zoom level w)
     = getBitmap x' y' zoom' level' w)
  ∧ TilesInv (addBitmap bm x y zoom level w)
  ∧ TilesInj (addBitmap bm x y zoom level w).
Proof.
  intros HT HJ. split; [|split; [|split]].
  - by apply addBitmap_getBitmap.
  - intros Hne. rewrite addBitmap_getBitmap_any by done. by rewrite decide_False.
  - by apply addBitmap_TilesInv.
  - by apply addBitmap_TilesInj.
Qed.

Lemma payload_store_lookup_witness :
  let bm := decodeBitmap {| ib_width := 1; ib_height := 1; ib_data := [0; 39; 16; 255] |} in
  let w := addBitmap bm 1 2 3 0 init in
  getBitmap 4 5 3 0 (addBitmap bm 4 5 3 0 w) = Some bm
  ∧ getBitmap 1 2 3 0 (addBitmap bm 4 5 3 0 w) = Some bm
  ∧ getBitmap 4 5 3 1 (addBitmap bm 4 5 3 0 w) = None.
Proof.
  intros bm w.
  assert (TilesInv w) as HT.
  { apply addBitmap_TilesInv. intros key t Hk. simpl in Hk.
    by rewrite lookup_empty in Hk. }
  assert (TilesInj w) as HJ.
  { apply addBitmap_TilesInj.
    - intros key t Hk. simpl in Hk. by rewrite lookup_empty in Hk.
    - intros key key' t Hk. simpl in Hk. by rewrite lookup_empty in Hk. }
  split; [|split].
  - apply (payload_store_lookup bm 4 5 3 4 5 3 0 0 w HT HJ).
  - rewrite (proj1 (proj2 (payload_store_lookup bm 4 5 3 1 2 3 0 0 w HT HJ)));
      [by vm_compute|]. discriminate.
  - rewrite (proj1 (proj2 (payload_store_lookup bm 4 5 3 4 5 3 0 1 w HT HJ)));
      [by vm_compute|]. discriminate.
Defined.

(** ** Completion and the in-flight slots *)

Lemma load_finish_fulfilled (x y zoom : Z) (n : nat) (status : Z)
    (image : option ImageBitmap) (w : Loader) :
  status ≠ 200 ∨ is_Some image →
  is_Some (load_finish x y zoom n (FetchResponse status image) w).
Proof.
  intros Hres. unfold load_finish.
  destruct (negb (status =? 200)) eqn:Hs; [done|].
  destruct Hres as [Hne|[bm ->]]; [|done].
  apply negb_false_iff, Z.eqb_eq in Hs. done.
Qed.

Lemma load_finish_rejected (x y zoom : Z) (n : nat) (res : FetchResult) (w : Loader) :
  res = FetchFailed ∨ res = FetchResponse 200 None →
  load_finish x y zoom n res w = None.
Proof. by intros [->| ->]. Qed.

(** A completion whose [load] promise is fulfilled removes the task from
    [activeRequests], from the in-flight list and from the pipelines,
    whatever the waiting items do afterwards. *)
Lemma settle_fulfilled_frame (task : ReqRef) (res : FetchResult) (w w1 : Loader)
    (req : Request) :
  task ∈ pipelines w → requestStore w !! task = Some req →
  load_finish (req_x req) (req_y req) (req_zoom req) 1 res
    (set_pipelines (λ s, s ∖ {[task]}) w) = Some w1 →
  let w' := settle task res w in
  activeRequests w' = activeRequests w ∖ {[task]}
  ∧ RequestQueue.queueInProgress (queue w')
    = RequestQueue.remove_first task (RequestQueue.queueInProgress (queue w))
  ∧ RequestQueue.queue (queue w') = RequestQueue.queue (queue w)
  ∧ pipelines w' = pipelines w ∖ {[task]}
  ∧ requestStore w' = requestStore w
  ∧ network w' = network w.
Proof.
  intros Hin Hreq Hload.
  destruct (settle_cases task res w)
    as [[Hnot _]|[(_ & Hnone & _)|(_ & req' & Hreq' & [[Hrej _]|(w1' & Hload' & ->)])]];
    [done|congruence|..]; simplify_eq.
  destruct (load_finish_requests _ _ _ _ _ _ _ Hload) as (Ha&Hq&Hrs&Hps&Hn&Hp&Hu).
  pose proof (then_callback_frame task w1) as Hframe.
  destruct (then_callback task w1) as [w2|e w2]; simpl in Hframe |- *;
    destruct Hframe as (_ & -> & -> & -> & -> & -> & _);
    by rewrite Ha, Hq, Hrs, Hn, Hp.
Qed.

(** X3: when the pipeline of an in-flight request ends with any response
    whose body can be decoded or whose status is not 200, the request
    leaves [activeRequests], the in-flight list and the waiting list for
    good, one slot is freed and the waiting list is not touched; this
    holds also when a waiting item throws. *)
Theorem completion_frees_slot (evs : list Event) (task : ReqRef) (status : Z)
    (image : option ImageBitmap) :
  let w := run evs init in
  let w' := settle task (FetchResponse status image) w in
  task ∈ pipelines w →
  status ≠ 200 ∨ is_Some image →
  (task ∉ activeRequests w')
  ∧ (task ∉ live_requests w')
  ∧ (task ∉ pipelines w')
  ∧ S (size (activeRequests w')) = size (activeRequests w)
  ∧ RequestQueue.queue (queue w') = RequestQueue.queue (queue w).
Proof.
  intros w w' Hin Hres.
  destruct (reachable_Inv evs) as [HR HT]. fold w in HR, HT.
  assert (Inv w') as [HR' _] by by apply settle_Inv.
  pose proof (pipelines_in_flight w task HR Hin) as Hflight.
  destruct (live_requests_valid_lookup w task HR) as [req Hreq].
  { apply elem_of_app. by right. }
  destruct (load_finish_fulfilled (req_x req) (req_y req) (req_zoom req) 1 status image
              (set_pipelines (λ s, s ∖ {[task]}) w) Hres) as [w1 Hload].
  destruct (settle_fulfilled_frame task _ w w1 req Hin Hreq Hload)
    as (Ha & Hp & Hq & Hpipe & _).
  fold w' in Ha, Hp, Hq, Hpipe.
  pose proof (NoDup_live_requests w HR) as Hnd.
  pose proof (NoDup_queueInProgress w HR) as Hndp.
  split; [rewrite Ha; set_solver|]. split; [|split; [rewrite Hpipe; set_solver|split]].
  - unfold live_requests. rewrite Hp, Hq. intros Hlive.
    by apply live_after_remove in Hlive as [_ ?].
  - pose proof (inv_pipelines w HR task Hin) as Hact.
    rewrite Ha, size_difference by set_solver. rewrite size_singleton.
    destruct (decide (size (activeRequests w) = 0%nat)) as [Hz|]; [|lia].
    apply size_empty_inv in Hz. set_solver.
  - done.
Qed.

Lemma completion_frees_slot_witness :
  let w := run [EvGetOrLoadTile 1 2 3 7%nat; EvGetOrLoadTile 4 5 3 7%nat; EvUpdate] init in
  let w' := settle 1%nat (FetchResponse 503 None) w in
  1%nat ∈ pipelines w
  ∧ (1%nat ∉ live_requests w')
  ∧ S (size (activeRequests w')) = size (activeRequests w).
Proof.
  intros w w'.
  assert (1%nat ∈ pipelines w) as Hin.
  { assert (pipelines w = {[0%nat; 1%nat]}) as -> by by vm_compute.
    apply elem_of_union. right. by apply elem_of_singleton. }
  destruct (completion_frees_slot
              [EvGetOrLoadTile 1 2 3 7%nat; EvGetOrLoadTile 4 5 3 7%nat; EvUpdate]
              1%nat 503 None Hin) as (_ & Hlive & _ & Hsize & _).
  { left. lia. }
  split; [exact Hin|]. split; [exact Hlive|exact Hsize].
Defined.

(** X4: in every reachable state, a response with a status other than
    200 for a request in flight stores nothing, resumes none of the
    callers waiting on it and leaves one uncaught [TypeError]: the first
    waiting item finds no tile and throws. *)
Theorem non_200_throws (evs : list Event) (task : ReqRef) (status : Z)
    (image : option ImageBitmap) :
  let w := run evs init in
  let w' := settle task (FetchResponse status image) w in
  task ∈ pipelines w →
  status ≠ 200 →
  uncaught w' = uncaught w ++ [TypeError]
  ∧ tiles w' = tiles w
  ∧ tileStore w' = tileStore w
  ∧ promiseStore w' = promiseStore w
  ∧ ∀ item, waits_on w task item →
      promiseStore w' !! wl_resolve item = Some Pending.
Proof.
  intros w w' Hin Hstatus.
  destruct (reachable_Inv evs) as [HR HT]. fold w in HR, HT.
  destruct (reachable_more evs) as [_ [Hwait Huncached]]. fold w in Hwait, Huncached.
  pose proof (pipelines_in_flight w task HR Hin) as Hflight.
  assert (task ∈ live_requests w) as Hlive by (apply elem_of_app; by right).
  destruct (live_requests_valid_lookup w task HR Hlive) as [req Hreq].
  destruct (waitingList req) as [|item rest] eqn:Hwl.
  { by destruct (Hwait task req Hreq). }
  assert (item_coord item = coord_of req) as Hc.
  { apply (inv_items w HR task req item Hreq). rewrite Hwl. by left. }
  injection Hc as Hx Hy Hz.
  destruct (settle_failure_throws w task req item rest status image Hin Hreq Hwl)
    as (Hu & Ht & Hts & Hps); [|done|].
  { rewrite Hx, Hy, Hz. by apply (Huncached task req). }
  fold w' in Hu, Ht, Hts, Hps.
  split; [done|]. split; [done|]. split; [done|]. split; [done|].
  intros item' (req' & Hreq' & Hitem'). rewrite Hps. simplify_eq.
  by eapply (inv_pending w HR task req item').
Qed.

Lemma non_200_throws_witness :
  let w := run [EvGetOrLoadTile 1 2 3 7%nat; EvUpdate; EvGetOrLoadTile 1 2 3 8%nat] init in
  let w' := settle 0%nat (FetchResponse 500 None) w in
  0%nat ∈ pipelines w
  ∧ uncaught w' = [TypeError]
  ∧ promiseStore w' = [Pending; Pending].
Proof.
  intros w w'.
  assert (0%nat ∈ pipelines w) as Hin.
  { assert (pipelines w = {[0%nat]}) as -> by by vm_compute.
    by apply elem_of_singleton. }
  destruct (non_200_throws
              [EvGetOrLoadTile 1 2 3 7%nat; EvUpdate; EvGetOrLoadTile 1 2 3 8%nat]
              0%nat 500 None Hin) as (Hu & _ & _ & Hps & _); [lia|].
  split; [exact Hin|]. split; [exact Hu|exact Hps].
Defined.

(** ** A rejected pipeline *)

Lemma stuck_ext (task : ReqRef) (w w' : Loader) :
  queue w' = queue w → pipelines w' = pipelines w → stuck task w → stuck task w'.
Proof. unfold stuck. by intros -> ->. Qed.

Lemma processQueue_body_stuck (task : ReqRef) (w w1 : Loader) :
  RequestsInv w → processQueue_body w = Some w1 → stuck task w → stuck task w1.
Proof.
  intros HR Hbody [Hflight Hpipe].
  destruct (processQueue_body_Some w w1 HR Hbody)
    as (t & rest & req & Hq & _ & _ & ->).
  pose proof (NoDup_live_requests w HR) as Hnd.
  unfold live_requests in Hnd. rewrite Hq in Hnd.
  apply NoDup_app in Hnd as (_ & Hdisj & _).
  assert (task ≠ t).
  { intros ->. apply (Hdisj t); [by left|done]. }
  split; simpl; set_solver.
Qed.

Lemma processQueue_loop_stuck (task : ReqRef) (turns : nat) (w : Loader) :
  RequestsInv w → stuck task w → stuck task (processQueue_loop turns w).
Proof.
  revert w. induction turns as [|turns IH]; intros w HR Hs; simpl; [done|].
  destruct (processQueue_body w) as [w1|] eqn:Hbody; [|done].
  apply IH; [by eapply processQueue_body_RequestsInv|].
  by eapply processQueue_body_stuck.
Qed.

Lemma step_stuck (task : ReqRef) (w : Loader) (ev : Event) :
  Inv w → stuck task w → stuck task (step w ev).
Proof.
  intros [HR HT] Hs. pose proof Hs as [Hflight Hpipe].
  destruct ev as [x y zoom owner| |tile owner|tile owner|t res]; simpl.
  - destruct (getOrLoadTile_requestStore x y zoom owner w) as (_ & Hp & Hq & _).
    unfold stuck. by rewrite Hp, Hq.
  - unfold update, processQueue.
    destruct (removeUnusedTiles_requests w) as (Ha&Hq&Hrs&Hps&Hn&Hp&_).
    apply processQueue_loop_stuck.
    + by eapply RequestsInv_ext; [..|exact HR].
    + by eapply stuck_ext.
  - done.
  - done.
  - destruct (settle_frame t res w) as (_ & _ & _ & Hsub & Hp).
    split; [|set_solver].
    destruct Hp as [->|[Hin ->]]; [done|].
    apply elem_of_remove_first; [by apply NoDup_queueInProgress|].
    split; [done|]. by intros ->.
Qed.

Lemma run_stuck (task : ReqRef) (evs : list Event) (w : Loader) :
  Inv w → stuck task w → stuck task (run evs w).
Proof.
  revert w. induction evs as [|ev evs IH]; intros w HI Hs; simpl; [done|].
  by apply IH; [apply step_Inv|apply step_stuck].
Qed.

Lemma settle_rejected_stuck (task : ReqRef) (res : FetchResult) (w : Loader) :
  Inv w → task ∈ pipelines w →
  res = FetchFailed ∨ res = FetchResponse 200 None →
  stuck task (settle task res w)
  ∧ uncaught (settle task res w) = uncaught w ++ [LoadRejected]
  ∧ tiles (settle task res w) = tiles w
  ∧ promiseStore (settle task res w) = promiseStore w.
Proof.
  intros [HR HT] Hin Hres.
  pose proof (pipelines_in_flight w task HR Hin) as Hflight.
  destruct (live_requests_valid_lookup w task HR) as [req Hreq].
  { apply elem_of_app. by right. }
  destruct (settle_cases task res w)
    as [[Hnot _]|[(_ & Hnone & _)|(_ & req' & Hreq' & [[_ ->]|(w1 & Hload & _)])]];
    [done|congruence| |].
  - split; [|done]. split; simpl; [done|set_solver].
  - by rewrite load_finish_rejected in Hload.
Qed.

(** X5: when the call of [load] for a request in flight rejects, because
    [fetch] fails or the body cannot be decoded, the [then] callback
    never runs: through every later sequence of events the request stays
    in [activeRequests] and in the in-flight list, and every caller
    waiting on it stays pending. *)
Theorem rejected_pipeline_keeps_slot (evs evs' : list Event) (task : ReqRef)
    (res : FetchResult) :
  let w := run evs init in
  let w' := run evs' (settle task res w) in
  task ∈ pipelines w →
  res = FetchFailed ∨ res = FetchResponse 200 None →
  task ∈ activeRequests w'
  ∧ task ∈ RequestQueue.queueInProgress (queue w')
  ∧ (task ∉ pipelines w')
  ∧ ∀ item, waits_on w task item →
      promiseStore w' !! wl_resolve item = Some Pending.
Proof.
  intros w w' Hin Hres.
  pose proof (reachable_Inv evs) as HI. fold w in HI.
  assert (Inv (settle task res w)) as HI1 by by apply settle_Inv.
  destruct (settle_rejected_stuck task res w HI Hin Hres) as (Hstuck & _).
  pose proof (run_stuck task evs' _ HI1 Hstuck) as [Hflight Hpipe].
  fold w' in Hflight, Hpipe.
  assert (Inv w') as [HR' _] by by apply run_Inv.
  split; [rewrite (inv_active w' HR'); by apply elem_of_list_to_set|].
  split; [done|]. split; [done|].
  intros item Hwaits.
  assert (settle task res w = step w (EvSettle task res)) as Hstep by done.
  destruct (step_waits_on w (EvSettle task res) task item Hwaits) as [Hwaits1 _].
  rewrite <-Hstep in Hwaits1.
  destruct (run_waits_on evs' _ task item Hwaits1) as [(req & Hreq & Hitem) _].
  fold w' in Hreq.
  eapply (inv_pending w' HR' task req item); [|done..].
  apply elem_of_app. by right.
Qed.

Lemma rejected_pipeline_keeps_slot_witness :
  let w := run [EvGetOrLoadTile 1 2 3 7%nat; EvUpdate] init in
  let w' := run [EvUpdate; EvSettle 0%nat (FetchResponse 200 None); EvUpdate]
              (settle 0%nat FetchFailed w) in
  0%nat ∈ pipelines w
  ∧ 0%nat ∈ activeRequests w'
  ∧ promiseStore w' !! 0%nat = Some Pending.
Proof.
  intros w w'.
  assert (0%nat ∈ pipelines w) as Hin.
  { assert (pipelines w = {[0%nat]}) as -> by by vm_compute.
    by apply elem_of_singleton. }
  destruct (rejected_pipeline_keeps_slot
              [EvGetOrLoadTile 1 2 3 7%nat; EvUpdate]
              [EvUpdate; EvSettle 0%nat (FetchResponse 200 None); EvUpdate]
              0%nat FetchFailed Hin) as (Ha & _ & _ & Hp); [by left|].
  split; [exact Hin|]. split; [exact Ha|].
  apply (Hp (new_item 1 2 3 7%nat 0%nat)).
  eexists. split; [by vm_compute|]. by left.
Defined.

(** ** Two rejected pipelines *)

Lemma two_stuck_full (t1 t2 : ReqRef) (w : Loader) :
  RequestsInv w → t1 ≠ t2 → stuck t1 w → stuck t2 w →
  pipelines w = ∅ ∧ size (activeRequests w) = maxConcurrentRequests.
Proof.
  intros HR Hne [Hf1 Hp1] [Hf2 Hp2].
  pose proof (NoDup_queueInProgress w HR) as Hnd.
  pose proof (inv_cap w HR) as Hcap.
  pose proof (inv_pipelines w HR) as Hsub.
  rewrite (inv_active w HR) in Hsub.
  rewrite (size_activeRequests w HR).
  destruct (RequestQueue.queueInProgress (queue w)) as [|a [|b [|c l]]];
    simpl in Hcap; unfold maxConcurrentRequests in *; try lia.
  - by apply elem_of_nil in Hf1.
  - apply list_elem_of_singleton in Hf1, Hf2. congruence.
  - split; [|done]. apply leibniz_equiv. intros r. split; [|set_solver].
    intros Hr. pose proof (Hsub r Hr) as Hr'.
    rewrite elem_of_list_to_set in Hr'. set_solver.
Qed.

Lemma full_no_admission (w : Loader) :
  size (activeRequests w) = maxConcurrentRequests → processQueue w = w.
Proof.
  intros Hfull. unfold processQueue.
  destruct (RequestQueue.size (queue w)) as [|turns]; [done|]. simpl.
  unfold processQueue_body.
  rewrite (bool_decide_eq_false_2
             (size (activeRequests w) < maxConcurrentRequests)%nat) by lia.
  by rewrite andb_false_r.
Qed.

Lemma step_stalled (t1 t2 : ReqRef) (w : Loader) (ev : Event) :
  Inv w → t1 ≠ t2 → stuck t1 w → stuck t2 w →
  network (step w ev) = network w
  ∧ RequestQueue.queue (queue w) `prefix_of` RequestQueue.queue (queue (step w ev))
  ∧ promiseStore w `prefix_of` promiseStore (step w ev).
Proof.
  intros [HR HT] Hne Hs1 Hs2.
  destruct (two_stuck_full t1 t2 w HR Hne Hs1 Hs2) as [Hpipe Hfull].
  destruct ev as [x y zoom owner| |tile owner|tile owner|t res]; simpl; try done.
  - destruct (getTile x y zoom w) as [tile|] eqn:Hget.
    { rewrite (getOrLoadTile_hit _ _ _ _ _ tile Hget). simpl.
      split; [done|]. split; [done|]. by apply prefix_app_r. }
    destruct (getOrLoadTile_miss_frame w x y zoom owner Hget)
      as (_ & _ & -> & _ & _ & _ & _ & _ & -> & [(r & _ & _ & ->)|(_ & _ & ->)]);
      (split; [done|]); split; try done; by apply prefix_app_r.
  - unfold update.
    destruct (removeUnusedTiles_requests w) as (Ha&Hq&Hrs&Hps&Hn&Hp&_).
    rewrite full_no_admission by by rewrite Ha.
    by rewrite Hn, Hq, Hps.
  - unfold settle. rewrite bool_decide_eq_false_2; [done|]. rewrite Hpipe. set_solver.
Qed.

(** X6: once the pipelines of two requests have rejected, both slots are
    taken for good: whatever happens afterwards, no fetch is ever issued
    again, no request leaves the waiting list, and no promise changes, so
    every caller that is pending or misses the cache later waits
    forever. *)
Theorem two_rejections_stall (evs evs' : list Event) (t1 t2 : ReqRef) :
  let w := run evs init in
  let w' := run evs' w in
  t1 ≠ t2 → stuck t1 w → stuck t2 w →
  network w' = network w
  ∧ pipelines w' = ∅
  ∧ RequestQueue.queue (queue w) `prefix_of` RequestQueue.queue (queue w')
  ∧ promiseStore w `prefix_of` promiseStore w'.
Proof.
  intros w w' Hne Hs1 Hs2.
  pose proof (reachable_Inv evs) as HI. fold w in HI.
  unfold w'. clearbody w. clear w'.
  revert w HI Hs1 Hs2. induction evs' as [|ev evs' IH]; intros w HI Hs1 Hs2; simpl.
  - destruct HI as [HR _].
    by destruct (two_stuck_full t1 t2 w HR Hne Hs1 Hs2) as [-> _].
  - destruct (step_stalled t1 t2 w ev HI Hne Hs1 Hs2) as (Hn & Hq & Hp).
    destruct (IH (step w ev)) as (Hn' & Hpipe' & Hq' & Hp');
      [by apply step_Inv|by apply step_stuck..|].
    split; [congruence|]. split; [done|]. split; by etrans.
Qed.

Lemma two_rejections_stall_witness :
  let w := run [EvGetOrLoadTile 1 2 3 7%nat; EvGetOrLoadTile 4 5 3 7%nat; EvUpdate;
                EvSettle 0%nat FetchFailed; EvSettle 1%nat (FetchResponse 200 None);
                EvGetOrLoadTile 6 7 3 7%nat] init in
  let w' := run [EvUpdate; EvGetOrLoadTile 8 9 3 7%nat; EvUpdate] w in
  stuck 0%nat w ∧ stuck 1%nat w
  ∧ network w' = [(1, 2, 3); (4, 5, 3)]
  ∧ RequestQueue.queue (queue w') = [2%nat; 3%nat].
Proof.
  intros w w'.
  assert (RequestQueue.queueInProgress (queue w) = [0%nat; 1%nat]) as Hflight
    by by vm_compute.
  assert (pipelines w = ∅) as Hpipe by by vm_compute.
  assert (stuck 0%nat w) as Hs0.
  { split; [rewrite Hflight; by left|rewrite Hpipe; apply not_elem_of_empty]. }
  assert (stuck 1%nat w) as Hs1.
  { split; [rewrite Hflight; right; by left|rewrite Hpipe; apply not_elem_of_empty]. }
  split; [exact Hs0|]. split; [exact Hs1|].
  destruct (two_rejections_stall
              [EvGetOrLoadTile 1 2 3 7%nat; EvGetOrLoadTile 4 5 3 7%nat; EvUpdate;
               EvSettle 0%nat FetchFailed; EvSettle 1%nat (FetchResponse 200 None);
               EvGetOrLoadTile 6 7 3 7%nat]
              [EvUpdate; EvGetOrLoadTile 8 9 3 7%nat; EvUpdate]
              0%nat 1%nat ltac:(lia) Hs0 Hs1) as (Hn & _).
  fold w w' in Hn. split; [|by vm_compute].
  rewrite Hn. by vm_compute.
Defined.

(** ** The maintenance tick *)

Lemma removeUnusedTiles_isUsed (tile : TileRef) (w : Loader) :
  tile_isUsed tile (removeUnusedTiles w) = tile_isUsed tile w.
Proof.
  unfold removeUnusedTiles.
  by destruct (removeUnusedTiles_loop_lookup w (map_to_list (tiles w)) w "")
    as [-> _].
Qed.

Lemma update_isUsed (tile : TileRef) (w : Loader) :
  tile_isUsed tile (update w) = tile_isUsed tile w.
Proof.
  unfold update, processQueue, tile_isUsed.
  destruct (processQueue_loop_frame
              (RequestQueue.size (queue (removeUnusedTiles w))) (removeUnusedTiles w))
    as (_ & -> & _).
  apply removeUnusedTiles_isUsed.
Qed.

Lemma removeUnusedTiles_loop_noop (entries : list (string * TileRef)) (w : Loader) :
  (∀ entry, entry ∈ entries → tile_isUsed entry.2 w = true) →
  foldl (λ acc entry, removeUnusedTiles_body entry acc) w entries = w.
Proof.
  induction entries as [|entry entries IH]; intros Hall; simpl; [done|].
  unfold removeUnusedTiles_body at 2. rewrite Hall by by left.
  apply IH. intros e He. apply Hall. by right.
Qed.

Lemma processQueue_twice (w : Loader) :
  RequestsInv w → processQueue (processQueue w) = processQueue w.
Proof.
  intros HR. pose proof (processQueue_exhausts w HR) as Hdone.
  unfold processQueue at 1.
  destruct (RequestQueue.size (queue (processQueue w))); [done|].
  simpl. by rewrite Hdone.
Qed.

(** X7: [update] is idempotent on every reachable state: a second tick
    right after the first evicts nothing more and admits nothing more. *)
Theorem update_idempotent (evs : list Event) :
  update (update (run evs init)) = update (run evs init).
Proof.
  set (w := run evs init).
  assert (removeUnusedTiles (update w) = update w) as Hevict.
  { unfold removeUnusedTiles. apply removeUnusedTiles_loop_noop.
    intros [key t] Hin. apply elem_of_map_to_list in Hin. simpl.
    rewrite update_tiles in Hin.
    apply map_lookup_filter_Some in Hin as [_ Hused]. simpl in Hused.
    by rewrite update_isUsed. }
  unfold update at 1. rewrite Hevict. unfold update.
  apply processQueue_twice.
  destruct (removeUnusedTiles_Inv w (reachable_Inv evs)) as [HR _]. exact HR.
Qed.

(** X8: [update] admits as much as the cap allows: after it, in every
    reachable state, the waiting list is empty or both slots are taken. *)
Theorem update_fills_slots (evs : list Event) :
  let w := update (run evs init) in
  RequestQueue.queue (queue w) = []
  ∨ size (activeRequests w) = maxConcurrentRequests.
Proof.
  intros w.
  destruct (removeUnusedTiles_Inv _ (reachable_Inv evs)) as [HR _].
  pose proof (processQueue_exhausts _ HR) as Hdone.
  fold (update (run evs init)) in Hdone. fold w in Hdone.
  assert (Inv w) as [HRw _] by apply update_Inv, reachable_Inv.
  pose proof (inv_cap w HRw) as Hcap.
  rewrite <-(size_activeRequests w HRw) in Hcap.
  unfold processQueue_body, RequestQueue.size, RequestQueue.get in Hdone.
  destruct (RequestQueue.queue (queue w)) as [|task rest] eqn:Hq; [by left|].
  right. simpl in Hdone.
  case_bool_decide as Hsize; [|lia]. simpl in Hdone.
  by destruct (requestStore w !! task).
Qed.

(** ** Tiles in use *)

Lemma tile_isUsed_nonempty (tile : TileRef) (owner : AnyObject) (w : Loader) :
  owner ∈ tile_users tile w → tile_isUsed tile w = true.
Proof.
  intros Hin. apply not_false_iff_true. intros Hf.
  apply tile_isUsed_users in Hf. set_solver.
Qed.

Lemma removeUnusedTiles_loop_store (w0 : Loader) (tile : TileRef)
    (entries : list (string * TileRef)) (w : Loader) :
  (∀ t, tile_isUsed t w = tile_isUsed t w0) →
  tile_isUsed tile w0 = true →
  tileStore (foldl (λ acc entry, removeUnusedTiles_body entry acc) w entries) !! tile
  = tileStore w !! tile.
Proof.
  revert w. induction entries as [|[k t] entries IH]; intros w Hsame Hused; simpl;
    [done|].
  rewrite IH; [|intros t'; by rewrite removeUnusedTiles_body_isUsed|done].
  unfold removeUnusedTiles_body. simpl.
  destruct (tile_isUsed t w) eqn:Ht; [done|]. simpl.
  rewrite list_lookup_alter_ne; [done|]. intros ->.
  rewrite Hsame in Ht. congruence.
Qed.

Lemma update_store_used (tile : TileRef) (w : Loader) :
  tile_isUsed tile w = true → tileStore (update w) !! tile = tileStore w !! tile.
Proof.
  intros Hused. unfold update, processQueue.
  destruct (processQueue_loop_frame
              (RequestQueue.size (queue (removeUnusedTiles w))) (removeUnusedTiles w))
    as (_ & -> & _).
  by apply (removeUnusedTiles_loop_store w).
Qed.

Lemma update_keeps_used (x y zoom : Z) (tile : TileRef) (w : Loader) :
  getTile x y zoom w = Some tile → tile_isUsed tile w = true →
  getTile x y zoom (update w) = Some tile
  ∧ ∀ level, getBitmap x y zoom level (update w) = getBitmap x y zoom level w.
Proof.
  intros Hget Hused.
  assert (getTile x y zoom (update w) = Some tile) as Hget'.
  { unfold getTile in *. rewrite update_tiles. by apply map_lookup_filter_Some. }
  split; [done|]. intros level. unfold getBitmap.
  by rewrite Hget, Hget', update_store_used.
Qed.

(** X9: the eviction pass spares every tile in use: a cached tile whose
    tracker has an owner is still cached after [update], under the same
    reference, with the same owners and with every pyramid level it had. *)
Theorem eviction_spares_used_tiles (w : Loader) (x y zoom : Z) (tile : TileRef) :
  getTile x y zoom w = Some tile →
  tile_isUsed tile w = true →
  getTile x y zoom (update w) = Some tile
  ∧ tile_users tile (update w) = tile_users tile w
  ∧ ∀ level, getBitmap x y zoom level (update w) = getBitmap x y zoom level w.
Proof.
  intros Hget Hused.
  destruct (update_keeps_used x y zoom tile w Hget Hused) as [Hget' Hlevels].
  split; [done|]. split; [|done].
  unfold tile_users. by rewrite update_store_used.
Qed.

Lemma eviction_spares_used_tiles_witness :
  let bm := {| ib_width := 1; ib_height := 1; ib_data := [0; 39; 16; 255] |} in
  let w := run [EvGetOrLoadTile 1 2 3 7%nat; EvUpdate;
                EvSettle 0%nat (FetchResponse 200 (Some bm))] init in
  getTile 1 2 3 w = Some 0%nat
  ∧ getTile 1 2 3 (update w) = Some 0%nat
  ∧ getBitmap 1 2 3 0 (update w) = Some (decodeBitmap bm).
Proof.
  intros bm w.
  assert (getTile 1 2 3 w = Some 0%nat) as Hget by by vm_compute.
  assert (tile_isUsed 0%nat w = true) as Hused by by vm_compute.
  destruct (eviction_spares_used_tiles w 1 2 3 0%nat Hget Hused) as (Hget' & _ & Hl).
  split; [exact Hget|]. split; [exact Hget'|].
  rewrite Hl. by vm_compute.
Defined.

(** X10: a call of [getOrLoadTile] for a cached coordinate hands out a
    promise already fulfilled with the cached tile and registers the
    owner on it, without enqueuing, creating or fetching anything; since
    the tile is then in use, the next [update] does not evict it. *)
Theorem cache_hit_registers_owner (w : Loader) (x y zoom : Z) (owner : AnyObject)
    (tile : TileRef) :
  TilesInv w →
  getTile x y zoom w = Some tile →
  let p := (getOrLoadTile x y zoom owner w).1 in
  let w' := (getOrLoadTile x y zoom owner w).2 in
  promiseStore w' !! p = Some (Fulfilled tile)
  ∧ tile_users tile w' = {[owner]} ∪ tile_users tile w
  ∧ queue w' = queue w
  ∧ requestStore w' = requestStore w
  ∧ network w' = network w
  ∧ tiles w' = tiles w
  ∧ getTile x y zoom (update w') = Some tile.
Proof.
  intros HT Hget p w'. subst p w'.
  rewrite (getOrLoadTile_hit _ _ _ _ _ tile Hget). cbn [fst snd].
  set (p := length (promiseStore w)).
  set (w' := set_promiseStore _ _).
  assert (tile < length (tileStore w))%nat as Hlt by by eapply HT.
  assert (tile_users tile w' = {[owner]} ∪ tile_users tile w) as Husers.
  { pose proof (tile_users_tracker_use tile tile owner w Hlt) as Hu.
    rewrite decide_True in Hu by done. exact Hu. }
  split; [|split; [done|]].
  { unfold w', p. simpl. by rewrite lookup_app_r, Nat.sub_diag. }
  repeat split; try done.
  apply update_keeps_used; [done|].
  apply (tile_isUsed_nonempty tile owner). rewrite Husers. set_solver.
Qed.

Lemma cache_hit_registers_owner_witness :
  let bm := {| ib_width := 1; ib_height := 1; ib_data := [0; 39; 16; 255] |} in
  let w := run [EvGetOrLoadTile 1 2 3 7%nat; EvUpdate;
                EvSettle 0%nat (FetchResponse 200 (Some bm));
                EvRelease 0%nat 7%nat] init in
  getTile 1 2 3 w = Some 0%nat
  ∧ getTile 1 2 3 (update w) = None
  ∧ getTile 1 2 3 (update (getOrLoadTile 1 2 3 9%nat w).2) = Some 0%nat.
Proof.
  intros bm w.
  assert (getTile 1 2 3 w = Some 0%nat) as Hget by by vm_compute.
  split; [exact Hget|]. split; [by vm_compute|].
  apply (cache_hit_registers_owner w 1 2 3 9%nat 0%nat); [|exact Hget].
  intros key t Hk.
  assert (tiles w = {[getTileKey 1 2 3 := 0%nat]}) as Ht by by vm_compute.
  rewrite Ht in Hk. apply lookup_singleton_Some in Hk as [_ <-].
  assert (length (tileStore w) = 1%nat) as -> by by vm_compute. lia.
Defined.

(** X11: a tile that has just been loaded is in use, by the owners of
    the callers that waited for it, and therefore outlives the next
    [update]: the first eviction pass after a completed load keeps the
    tile and all its levels. *)
Theorem loaded_tile_survives_update (evs : list Event) (task : ReqRef) (req : Request)
    (bm : ImageBitmap) :
  let w := run evs init in
  let w' := settle task (FetchResponse 200 (Some bm)) w in
  task ∈ pipelines w →
  requestStore w !! task = Some req →
  ∃ tile,
    getTile (req_x req) (req_y req) (req_zoom req) w' = Some tile
    ∧ tile_isUsed tile w' = true
    ∧ (∀ item, item ∈ waitingList req → wl_owner item ∈ tile_users tile w')
    ∧ getTile (req_x req) (req_y req) (req_zoom req) (update w') = Some tile
    ∧ ∀ level,
        getBitmap (req_x req) (req_y req) (req_zoom req) level (update w')
        = getBitmap (req_x req) (req_y req) (req_zoom req) level w'.
Proof.
  intros w w' Hin Hreq.
  destruct (settle_success w task req bm (req_x req) (req_y req) (req_zoom req)
              (reachable_Inv evs) Hin Hreq eq_refl)
    as (_ & _ & tile & Hget & Hitems).
  destruct (reachable_more evs) as [_ HW].
  pose proof (inv_waiters _ HW task req Hreq) as Hne.
  destruct (waitingList req) as [|item items] eqn:Hwl; [done|].
  assert (tile_isUsed tile w' = true) as Hused.
  { apply (tile_isUsed_nonempty tile (wl_owner item)).
    apply (Hitems item). by left. }
  exists tile. split; [exact Hget|]. split; [exact Hused|].
  split; [intros it Hit; by apply Hitems|].
  by apply update_keeps_used.
Qed.

Lemma loaded_tile_survives_update_witness :
  let bm := {| ib_width := 1; ib_height := 1; ib_data := [0; 39; 16; 255] |} in
  let w := run [EvGetOrLoadTile 1 2 3 7%nat; EvUpdate] init in
  let w' := settle 0%nat (FetchResponse 200 (Some bm)) w in
  0%nat ∈ pipelines w
  ∧ ∃ tile, getTile 1 2 3 (update w') = Some tile.
Proof.
  intros bm w w'.
  assert (0%nat ∈ pipelines w) as Hin.
  { assert (pipelines w = {[0%nat]}) as -> by by vm_compute.
    by apply elem_of_singleton. }
  assert (requestStore w !! 0%nat
          = Some {| req_x := 1; req_y := 2; req_zoom := 3;
                  waitingList := [new_item 1 2 3 7%nat 0%nat] |}) as Hreq
    by by vm_compute.
  destruct (loaded_tile_survives_update [EvGetOrLoadTile 1 2 3 7%nat; EvUpdate]
              0%nat _ bm Hin Hreq) as (tile & _ & _ & _ & Hget & _).
  split; [exact Hin|]. by exists tile.
Defined.

(** X12: in every reachable state two different coordinates are cached
    under different tile objects: a tile object belongs to exactly one
    coordinate. *)
Theorem distinct_coordinates_distinct_tiles (evs : list Event) (x y zoom x' y' zoom' : Z)
    (tile : TileRef) :
  let w := run evs init in
  getTile x y zoom w = Some tile →
  getTile x' y' zoom' w = Some tile →
  (x, y, zoom) = (x', y', zoom').
Proof.
  intros w Hget Hget'. destruct (reachable_more evs) as [HJ _].
  pose proof (HJ _ _ _ Hget Hget') as Hkey.
  apply getTileKey_inj in Hkey as (-> & -> & ->). done.
Qed.

Lemma distinct_coordinates_distinct_tiles_witness :
  let bm := {| ib_width := 1; ib_height := 1; ib_data := [0; 39; 16; 255] |} in
  let w := run [EvGetOrLoadTile 1 2 3 7%nat; EvUpdate;
                EvSettle 0%nat (FetchResponse 200 (Some bm))] init in
  getTile 1 2 3 w = Some 0%nat ∧ (1, 2, 3) = (1, 2, 3).
Proof.
  intros bm w.
  assert (getTile 1 2 3 w = Some 0%nat) as Hget by by vm_compute.
  split; [exact Hget|].
  exact (distinct_coordinates_distinct_tiles
           [EvGetOrLoadTile 1 2 3 7%nat; EvUpdate;
            EvSettle 0%nat (FetchResponse 200 (Some bm))]
           1 2 3 1 2 3 0%nat Hget Hget).
Defined.

(** X13: in every reachable state a request that is waiting or in flight
    has at least one caller on its waiting list, and its coordinate is
    not in the cache. *)
Theorem live_request_awaited_and_uncached (evs : list Event) (r : ReqRef) (req : Request) :
  let w := run evs init in
  r ∈ live_requests w →
  requestStore w !! r = Some req →
  waitingList req ≠ []
  ∧ getTile (req_x req) (req_y req) (req_zoom req) w = None.
Proof.
  intros w Hlive Hreq. destruct (reachable_more evs) as [_ HW].
  split; [by eapply (inv_waiters _ HW)|by eapply (inv_uncached _ HW)].
Qed.

Lemma live_request_awaited_and_uncached_witness :
  let w := run [EvGetOrLoadTile 1 2 3 7%nat; EvUpdate] init in
  0%nat ∈ live_requests w ∧ getTile 1 2 3 w = None.
Proof.
  intros w.
  assert (0%nat ∈ live_requests w) as Hlive.
  { assert (live_requests w = [0%nat]) as -> by by vm_compute. by left. }
  assert (requestStore w !! 0%nat
          = Some {| req_x := 1; req_y := 2; req_zoom := 3;
                  waitingList := [new_item 1 2 3 7%nat 0%nat] |}) as Hreq
    by by vm_compute.
  split; [exact Hlive|].
  exact (proj2 (live_request_awaited_and_uncached
                  [EvGetOrLoadTile 1 2 3 7%nat; EvUpdate] 0%nat _ Hlive Hreq)).
Defined.

(** ** RequestQueue *)

Lemma remove_first_middle (r : ReqRef) (l1 l2 : list ReqRef) :
  r ∉ l1 → RequestQueue.remove_first r (l1 ++ r :: l2) = l1 ++ l2.
Proof.
  induction l1 as [|a l1 IH]; simpl; intros Hnot.
  - by rewrite decide_True.
  - apply not_elem_of_cons in Hnot as [Hne Hnot].
    rewrite decide_False by done. by rewrite IH.
Qed.

Lemma remove_first_absent (r : ReqRef) (l : list ReqRef) :
  r ∉ l → RequestQueue.remove_first r l = l.
Proof.
  induction l as [|a l IH]; simpl; intros Hnot; [done|].
  apply not_elem_of_cons in Hnot as [Hne Hnot].
  rewrite decide_False by done. by rewrite IH.
Qed.

(** X14: [get] followed by [remove] of the request it returned is a
    round trip on the in-flight list: the request taken from the head of
    the waiting list is gone from both lists and the in-flight list is
    as it was before. *)
Theorem get_remove_round_trip (q q' : RequestQueue.t) (r : ReqRef) :
  RequestQueue.get q = (Some r, q') →
  r ∉ RequestQueue.queueInProgress q →
  RequestQueue.queue q = r :: RequestQueue.queue (RequestQueue.remove r q')
  ∧ RequestQueue.queueInProgress (RequestQueue.remove r q')
    = RequestQueue.queueInProgress q
  ∧ RequestQueue.size (RequestQueue.remove r q') = pred (RequestQueue.size q).
Proof.
  unfold RequestQueue.get, RequestQueue.size. intros Hget Hnot.
  destruct (RequestQueue.queue q) as [|r' rest] eqn:Hq; [done|].
  injection Hget as -> <-. simpl.
  split; [done|]. split; [|done].
  rewrite (remove_first_middle r _ []) by done. by rewrite app_nil_r.
Qed.

Lemma get_remove_round_trip_witness :
  let q := RequestQueue.Build [4; 5]%nat [2]%nat in
  RequestQueue.queueInProgress (RequestQueue.remove 4%nat (RequestQueue.get q).2)
  = [2]%nat.
Proof.
  intros q.
  assert (RequestQueue.get q = (Some 4%nat, (RequestQueue.get q).2)) as Hget
    by reflexivity.
  assert (4%nat ∉ RequestQueue.queueInProgress q) as Hnot.
  { simpl. intros Hin. apply list_elem_of_singleton in Hin. discriminate. }
  exact (proj1 (proj2 (get_remove_round_trip q _ 4%nat Hget Hnot))).
Defined.

(** X15: [remove] takes out of the in-flight list the first occurrence
    of the request and nothing else: a later occurrence stays, as does
    the waiting list; a request that is not in flight leaves the queue
    unchanged. *)
Theorem remove_first_occurrence (q : RequestQueue.t) (r : ReqRef) :
  (∀ l1 l2, r ∉ l1 → RequestQueue.queueInProgress q = l1 ++ r :: l2 →
     RequestQueue.remove r q = RequestQueue.Build (RequestQueue.queue q) (l1 ++ l2))
  ∧ (r ∉ RequestQueue.queueInProgress q → RequestQueue.remove r q = q).
Proof.
  unfold RequestQueue.remove. split.
  - intros l1 l2 Hnot ->. by rewrite remove_first_middle.
  - intros Hnot. rewrite remove_first_absent by done. by destruct q.
Qed.

Lemma remove_first_occurrence_witness :
  RequestQueue.remove 5%nat (RequestQueue.Build [1]%nat [3; 5; 4; 5]%nat)
  = RequestQueue.Build [1]%nat [3; 4; 5]%nat.
Proof.
  apply (proj1 (remove_first_occurrence
                  (RequestQueue.Build [1]%nat [3; 5; 4; 5]%nat) 5%nat)
           [3]%nat [4; 5]%nat); [|reflexivity].
  intros Hin. apply list_elem_of_singleton in Hin. discriminate.
Defined.

Lemma list_find_app {A} (f : A → bool) (l1 l2 : list A) :
  List.find f (l1 ++ l2)
  = match List.find f l1 with Some a => Some a | None => List.find f l2 end.
Proof.
  induction l1 as [|a l1 IH]; simpl; [done|]. by destruct (f a).
Qed.

Lemma list_find_first {A} (f : A → bool) (l : list A) (a : A) :
  List.find f l = Some a
  ↔ ∃ l1 l2, l = l1 ++ a :: l2 ∧ f a = true ∧ ∀ b, b ∈ l1 → f b = false.
Proof.
  induction l as [|c l IH]; simpl.
  { split; [done|]. intros (l1 & l2 & Hl & _). by destruct l1. }
  destruct (f c) eqn:Hc.
  - split.
    + intros [= ->]. exists [], l. split; [done|]. split; [done|].
      by intros b ?%elem_of_nil.
    + intros (l1 & l2 & Hl & Ha & Hl1). destruct l1 as [|b l1].
      * by injection Hl as ->.
      * injection Hl as -> _. rewrite Hl1 in Hc by by left. done.
  - rewrite IH. split.
    + intros (l1 & l2 & -> & Ha & Hl1). exists (c :: l1), l2.
      split; [done|]. split; [done|].
      intros b [->|Hb]%elem_of_cons; [done|by apply Hl1].
    + intros (l1 & l2 & Hl & Ha & Hl1). destruct l1 as [|b l1].
      * injection Hl as -> _. congruence.
      * injection Hl as -> ->. exists l1, l2. split; [done|]. split; [done|].
        intros b' Hb. apply Hl1. by right.
Qed.

(** X16: [find] returns the first request with the coordinate in the
    waiting list followed by the in-flight list: a waiting request wins
    over one in flight, and within each list the earliest one wins. *)
Theorem find_first_match (store : list Request) (x y zoom : Z) (q : RequestQueue.t)
    (r : ReqRef) :
  RequestQueue.find store x y zoom q = Some r
  ↔ ∃ l1 l2,
      RequestQueue.queue q ++ RequestQueue.queueInProgress q = l1 ++ r :: l2
      ∧ (∃ req, store !! r = Some req ∧ coord_of req = (x, y, zoom))
      ∧ ∀ r' req', r' ∈ l1 → store !! r' = Some req' → coord_of req' ≠ (x, y, zoom).
Proof.
  unfold RequestQueue.find, RequestQueue.find_in.
  rewrite <- list_find_app, list_find_first.
  split; intros (l1 & l2 & Hl & Hr & Hl1); exists l1, l2; (split; [done|]).
  - split.
    + destruct (store !! r) as [req|]; [|done].
      exists req. split; [done|]. by apply request_matches_true.
    + intros r' req' Hin Hreq' Hc. specialize (Hl1 r' Hin). simpl in Hl1.
      rewrite Hreq' in Hl1. apply request_matches_true in Hc. congruence.
  - split.
    + destruct Hr as (req & -> & Hc). by apply request_matches_true.
    + intros r' Hin. destruct (store !! r') as [req'|] eqn:Hreq'; [|done].
      apply not_true_is_false. intros Hm%request_matches_true.
      by apply (Hl1 r' req').
Qed.

(** ** MapWorkerSystem *)

(** X17: [getFreeWorker] returns the first worker whose queue holds
    fewer than two jobs, skipping the ones before it, which all hold two
    or more; it returns [null] exactly when every worker holds two or
    more. *)
Theorem getFreeWorker_first_free (MapWorker : Type) (queueLength : MapWorker → Z)
    (workers : list MapWorker) :
  (∀ worker,
     getFreeWorker MapWorker queueLength workers = Some worker
     ↔ ∃ busy rest, workers = busy ++ worker :: rest
         ∧ queueLength worker < 2
         ∧ ∀ other, other ∈ busy → 2 ≤ queueLength other)
  ∧ (getFreeWorker MapWorker queueLength workers = None
     ↔ ∀ other, other ∈ workers → 2 ≤ queueLength other).
Proof.
  induction workers as [|c workers [IHs IHn]]; simpl.
  { split.
    - intros worker. split; [done|]. intros (busy & rest & Hl & _). by destruct busy.
    - split; [|done]. by intros _ other ?%elem_of_nil. }
  destruct (Z.ltb_spec (queueLength c) 2) as [Hc|Hc].
  - split.
    + intros worker. split.
      * intros [= ->]. exists [], workers. split; [done|]. split; [done|].
        by intros other ?%elem_of_nil.
      * intros (busy & rest & Hl & Hw & Hbusy). destruct busy as [|b busy].
        -- by injection Hl as ->.
        -- injection Hl as -> _. specialize (Hbusy b ltac:(by left)). lia.
    + split; [done|]. intros Hall. specialize (Hall c ltac:(by left)). lia.
  - split.
    + intros worker. rewrite IHs. split.
      * intros (busy & rest & -> & Hw & Hbusy). exists (c :: busy), rest.
        split; [done|]. split; [done|].
        intros other [->|Hin]%elem_of_cons; [done|by apply Hbusy].
      * intros (busy & rest & Hl & Hw & Hbusy). destruct busy as [|b busy].
        -- injection Hl as -> _. lia.
        -- injection Hl as -> ->. exists busy, rest. split; [done|]. split; [done|].
           intros other Hin. apply Hbusy. by right.
    + rewrite IHn. split.
      * intros Hall other [->|Hin]%elem_of_cons; [done|by apply Hall].
      * intros Hall other Hin. apply Hall. by right.
Qed.

(** ** decodeBitmap *)

(** X18: the decoder reads the red, green and blue channels only: two
    images of the same size that differ at most in the alpha bytes
    decode to the same samples, one sample per pixel. *)
Theorem decode_ignores_alpha (bm bm' : ImageBitmap) :
  ib_width bm = ib_width bm' →
  ib_height bm = ib_height bm' →
  (∀ i, (i mod 4 ≠ 3)%nat → ib_data bm !! i = ib_data bm' !! i) →
  TerrainHeightLoaderBitmap.data (decodeBitmap bm)
  = TerrainHeightLoaderBitmap.data (decodeBitmap bm')
  ∧ length (TerrainHeightLoaderBitmap.data (decodeBitmap bm))
    = (ib_width bm * ib_height bm)%nat.
Proof.
  intros Hw Hh Hdata. unfold decodeBitmap. simpl. rewrite <- Hw, <- Hh. split.
  - apply map_ext. intros i. unfold decodeSample.
    assert ((i * 4) mod 4 = 0)%nat as H0 by apply Nat.Div0.mod_mul.
    assert ((i * 4 + 1) mod 4 = 1)%nat as H1.
    { by rewrite Nat.add_comm, Nat.Div0.mod_add. }
    assert ((i * 4 + 2) mod 4 = 2)%nat as H2.
    { by rewrite Nat.add_comm, Nat.Div0.mod_add. }
    rewrite !Hdata by lia. done.
  - by rewrite length_map, length_seq.
Qed.

Lemma decode_ignores_alpha_witness :
  TerrainHeightLoaderBitmap.data
    (decodeBitmap {| ib_width := 1; ib_height := 1; ib_data := [0; 39; 16; 255] |})
  = TerrainHeightLoaderBitmap.data
      (decodeBitmap {| ib_width := 1; ib_height := 1; ib_data := [0; 39; 16; 0] |}).
Proof.
  apply (decode_ignores_alpha
           {| ib_width := 1; ib_height := 1; ib_data := [0; 39; 16; 255] |}
           {| ib_width := 1; ib_height := 1; ib_data := [0; 39; 16; 0] |});
    [reflexivity|reflexivity|].
  intros i Hi. simpl.
  destruct i as [|[|[|[|i]]]]; [done|done|done|by simpl in Hi|done].
Defined.

(** ** CSM: the cascade splits *)

Lemma split_tail_length {A} (f : Z → A) (one : A) (splits : Z) :
  length (map f (seqZ 1 (splits - 1)) ++ [one]) = Z.to_nat (Z.max 1 splits).
Proof. rewrite length_app, length_map, length_seqZ. simpl. lia. Qed.

Lemma split_lookup {A} (f : Z → A) (one : A) (splits : Z) (i : nat) :
  (i < Z.to_nat (splits - 1))%nat →
  (map f (seqZ 1 (splits - 1)) ++ [one]) !! i = Some (f (1 + Z.of_nat i)).
Proof.
  intros Hi. rewrite lookup_app_l by (rewrite length_map, length_seqZ; lia).
  rewrite list_lookup_fmap, lookup_seqZ_lt by lia. done.
Qed.

Lemma split_last {A} (f : Z → A) (one : A) (splits : Z) :
  last (map f (seqZ 1 (splits - 1)) ++ [one]) = Some one.
Proof. apply last_snoc. Qed.

(** X19: [practicalSplit] returns one split per cascade, and one also
    for a cascade count below one; the last split is 1; every earlier
    split is the blend of the logarithmic and the uniform split of the
    same index, both of which exist: no read is out of range. *)
Theorem practicalSplit_shape (pow : spec_float → spec_float → spec_float)
    (splits : Z) (near far lambda : spec_float) :
  let r := CSM.practicalSplit pow splits near far lambda in
  length r = Z.to_nat (Z.max 1 splits)
  ∧ length (CSM.logarithmicSplit pow splits near far) = length r
  ∧ length (CSM.uniformSplit splits near far) = length r
  ∧ last r = Some (JSNumber.of_Z 1)
  ∧ ∀ i, (S i < length r)%nat →
      ∃ l u, CSM.logarithmicSplit pow splits near far !! i = Some l
             ∧ CSM.uniformSplit splits near far !! i = Some u
             ∧ r !! i = Some (JSNumber.add (JSNumber.mul lambda l)
                                (JSNumber.mul (CSM.sub (JSNumber.of_Z 1) lambda) u)).
Proof.
  intros r. unfold r, CSM.practicalSplit, CSM.logarithmicSplit, CSM.uniformSplit.
  rewrite !split_tail_length. repeat split; [apply split_last|].
  intros i Hi. assert (i < Z.to_nat (splits - 1))%nat as Hi' by lia.
  do 2 eexists. split; [by apply split_lookup|]. split; [by apply split_lookup|].
  rewrite split_lookup by done.
  replace (Z.to_nat (1 + Z.of_nat i - 1)) with i by lia.
  by rewrite !split_lookup.
Qed.

Lemma practicalSplit_shape_witness :
  let pow := λ _ _ : spec_float, JSNumber.of_Z 1 in
  let r := CSM.practicalSplit pow 3 (JSNumber.of_Z 1) (JSNumber.of_Z 5001) CSM.lit_0_5 in
  length r = 3%nat
  ∧ ∃ l u, CSM.logarithmicSplit pow 3 (JSNumber.of_Z 1) (JSNumber.of_Z 5001) !! 1%nat
           = Some l
           ∧ CSM.uniformSplit 3 (JSNumber.of_Z 1) (JSNumber.of_Z 5001) !! 1%nat = Some u
           ∧ r !! 1%nat
             = Some (JSNumber.add (JSNumber.mul CSM.lit_0_5 l)
                       (JSNumber.mul (CSM.sub (JSNumber.of_Z 1) CSM.lit_0_5) u)).
Proof.
  intros pow r.
  destruct (practicalSplit_shape pow 3 (JSNumber.of_Z 1) (JSNumber.of_Z 5001)
              CSM.lit_0_5) as (Hlen & _ & _ & _ & Hall).
  split; [exact Hlen|]. apply Hall. rewrite Hlen. simpl. lia.
Defined.

Lemma updateBreaks_loop (near far : spec_float) (splits : list spec_float) (n : nat) :
  foldl (CSM.updateBreaks_body near far splits) ([], []) (seq 0 n)
  = (map (λ i, (if decide (i = 0%nat) then JSNumber.of_Z 0
                else CSM.element (splits !! (i - 1)%nat),
                JSNumber.add (CSM.element (splits !! i))
                  (JSNumber.div
                     (JSNumber.mul (CSM.element (splits !! i)) CSM.FadeOffsetFactor)
                     (CSM.sub far near))))
       (seq 0 n),
     map (λ i, JSNumber.mul (CSM.element (splits !! i)) CSM.FadeOffsetFactor) (seq 0 n)).
Proof.
  induction n as [|n IH]; [done|].
  rewrite seq_S, foldl_app, IH, !map_app. simpl.
  unfold CSM.updateBreaks_body. cbn [fst snd].
  rewrite lookup_app_r by (rewrite length_map, length_seq; lia).
  rewrite length_map, length_seq, Nat.sub_diag. done.
Qed.

(** X20: [updateBreaks] produces one break and one fade offset per
    split. The fade offset is 250 times the split; the break starts at 0
    for the first cascade and at the previous split for every other one,
    and ends at the split plus the fade offset over the depth range; the
    fade offset read back in the loop is always the one just pushed.
    [getBreaksForUniform] lays the breaks out four numbers each. *)
Theorem updateBreaks_chain (pow : spec_float → spec_float → spec_float) (c : CSM.t) :
  let splits := CSM.practicalSplit pow (CSM.cascades c) (CSM.near c) (CSM.far c)
                  CSM.lit_0_5 in
  let c' := CSM.updateBreaks pow c in
  length (CSM.breaks c') = Z.to_nat (Z.max 1 (CSM.cascades c))
  ∧ length (CSM.fadeOffsets c') = Z.to_nat (Z.max 1 (CSM.cascades c))
  ∧ length (CSM.getBreaksForUniform c') = (4 * Z.to_nat (Z.max 1 (CSM.cascades c)))%nat
  ∧ (∃ s, splits !! 0%nat = Some s
          ∧ fst <$> CSM.breaks c' !! 0%nat = Some (JSNumber.of_Z 0))
  ∧ ∀ i s, splits !! i = Some s →
      CSM.fadeOffsets c' !! i = Some (JSNumber.mul s CSM.FadeOffsetFactor)
      ∧ snd <$> CSM.breaks c' !! i
        = Some (JSNumber.add s
                  (JSNumber.div (JSNumber.mul s CSM.FadeOffsetFactor)
                     (CSM.sub (CSM.far c) (CSM.near c))))
      ∧ fst <$> CSM.breaks c' !! S i = (λ _, s) <$> splits !! S i.
Proof.
  intros splits c'.
  assert (length splits = Z.to_nat (Z.max 1 (CSM.cascades c))) as Hlen.
  { apply split_tail_length. }
  unfold c', CSM.updateBreaks. fold splits.
  rewrite updateBreaks_loop. cbn [fst snd CSM.breaks CSM.fadeOffsets].
  split; [by rewrite length_map, length_seq|].
  split; [by rewrite length_map, length_seq|].
  split.
  { unfold CSM.getBreaksForUniform. cbn [CSM.breaks CSM.far CSM.near].
    rewrite length_map. rewrite <- Hlen.
    assert (∀ (k : list (spec_float * spec_float)) d,
              length (flat_map (λ b, [JSNumber.mul b.1 d; JSNumber.mul b.2 d;
                                      JSNumber.of_Z 0; JSNumber.of_Z 0]) k)
              = (4 * length k)%nat) as Hflat.
    { intros k d. induction k as [|b k IH]; [done|].
      cbn [flat_map]. rewrite length_app, IH. simpl. lia. }
    rewrite Hflat, length_map. by rewrite length_seq. }
  split.
  { destruct (lookup_lt_is_Some_2 splits 0%nat ltac:(lia)) as [s Hs].
    exists s. split; [done|].
    rewrite list_lookup_fmap, lookup_seq_lt by lia. done. }
  intros i s Hs. pose proof (lookup_lt_Some _ _ _ Hs) as Hi.
  rewrite !list_lookup_fmap, lookup_seq_lt by lia. simpl. rewrite Hs. simpl.
  split; [done|]. split; [done|].
  destruct (splits !! S i) as [s'|] eqn:Hs'.
  - pose proof (lookup_lt_Some _ _ _ Hs') as Hi'.
    rewrite lookup_seq_lt by lia. simpl.
    rewrite Nat.sub_0_r, Hs. done.
  - apply lookup_ge_None in Hs'.
    rewrite lookup_seq_ge by lia. done.
Qed.

Lemma updateBreaks_chain_witness :
  let pow := λ _ _ : spec_float, JSNumber.of_Z 1 in
  let c := CSM.Build (JSNumber.of_Z 1) (JSNumber.of_Z 5001) 3 [] [] in
  let c' := CSM.updateBreaks pow c in
  ∃ s, CSM.practicalSplit pow 3 (JSNumber.of_Z 1) (JSNumber.of_Z 5001) CSM.lit_0_5
         !! 0%nat = Some s
       ∧ CSM.fadeOffsets c' !! 0%nat = Some (JSNumber.mul s CSM.FadeOffsetFactor)
       ∧ fst <$> CSM.breaks c' !! 1%nat = Some s.
Proof.
  intros pow c c'.
  destruct (updateBreaks_chain pow c) as (_ & _ & _ & (s & Hs & _) & Hall).
  destruct (Hall 0%nat s Hs) as (Hfade & _ & Hnext).
  exists s. split; [exact Hs|]. split; [exact Hfade|].
  etrans; [exact Hnext|]. by vm_compute.
Defined.

(** ** Coalesced callers *)











